(** * Line-by-line commit script: a shallow embedding of [script.py]

    The script appends the lines of an input text to a file of a remote
    repository, one commit per line, pausing between commits.  This file
    embeds its functions ([shorten], [parse_duration], [build_delay_getter],
    [get_file], [put_file], [main]) as Rocq functions and proves properties
    of them.

    Conventions of the embedding:
    - a Python [str] is the list of its Unicode code points;
    - a Python [float] is an IEEE 754 binary64 number, a [spec_float] with
      precision 53 and maximal exponent 1024;
    - a raised exception is a value of type [exc] in a [result];
    - the network, the clock and the random generator are an explicit
      [World] that answers each call; [random.uniform] is the formula of
      the standard library on the number that [random()] answers; what the
      script prints and sends is the list of [event]s of the run. *)

From Stdlib Require Import String Ascii ZArith NArith PArith Bool Lia List.
From Stdlib Require Import Floats.SpecFloat.
Import ListNotations.

Local Open Scope N_scope.

(* ================================================================== *)
(** * Python text *)

(** A character is a Unicode code point, a [str] the list of them. *)
Definition char := N.
Definition str := list char.

(** ASCII literals of the development are written as Rocq strings. *)
Definition lit (s : string) : str :=
  map N_of_ascii (list_ascii_of_string s).

Definition char_eqb (a b : char) : bool := N.eqb a b.

Fixpoint str_eqb (a b : str) : bool :=
  match a, b with
  | [], [] => true
  | x :: a', y :: b' => char_eqb x y && str_eqb a' b'
  | _, _ => false
  end.

Definition LF : char := 10.
Definition CR : char := 13.
Definition SPACE : char := 32.
Definition HYPHEN : char := 45.
Definition DOT : char := 46.
Definition SLASH : char := 47.
(** U+2026, the ellipsis [shorten] appends. *)
Definition ELLIPSIS : char := 8230.
(** U+017F, LATIN SMALL LETTER LONG S. *)
Definition LONG_S : char := 383.

Definition in_range (lo hi c : char) : bool := (lo <=? c) && (c <=? hi).

(** [str.isspace] on one character, also the class [\s] of [re] on [str]
    patterns: the characters of bidirectional type WS, B or S, or of category
    Zs. *)
Definition isspace (c : char) : bool :=
  in_range 9 13 c || in_range 28 32 c || (c =? 133) || (c =? 160)
  || (c =? 5760) || in_range 8192 8202 c || (c =? 8232) || (c =? 8233)
  || (c =? 8239) || (c =? 8287) || (c =? 12288).

(** The line boundaries of [str.splitlines]. *)
Definition is_linebreak (c : char) : bool :=
  in_range 10 13 c || in_range 28 30 c || (c =? 133)
  || (c =? 8232) || (c =? 8233).

(** The first code point of every run of ten decimal digits (category Nd) of
    the Unicode character database, version 14.0: the zero of each script. *)
Definition decimal_zeros : list char :=
  [ 48; 1632; 1776; 1984; 2406; 2534; 2662; 2790; 2918; 3046; 3174; 3302;
    3430; 3558; 3664; 3792; 3872; 4160; 4240; 6112; 6160; 6470; 6608; 6784;
    6800; 6992; 7088; 7232; 7248; 42528; 43216; 43264; 43472; 43504; 43600;
    44016; 65296; 66720; 68912; 69734; 69872; 69942; 70096; 70384; 70736;
    70864; 71248; 71360; 71472; 71904; 72016; 72784; 73040; 73120; 92768;
    92864; 93008; 120782; 120792; 120802; 120812; 120822; 123200; 123632;
    125264; 130032 ].

(** The value of a decimal digit, [None] for any other character. *)
Fixpoint decimal_in (zeros : list char) (c : char) : option N :=
  match zeros with
  | [] => None
  | z :: zs => if in_range z (z + 9) c then Some (c - z) else decimal_in zs c
  end.

Definition decimal_value (c : char) : option N := decimal_in decimal_zeros c.

(** [str.isdecimal] on one character, also the class [\d] of [re]. *)
Definition isdecimal (c : char) : bool :=
  match decimal_value c with Some _ => true | None => false end.

(** The surrogate code points, U+D800 to U+DFFF. The command line holds one
    for every byte that is no UTF-8 (the error handler [surrogateescape]). *)
Definition is_surrogate (c : char) : bool := in_range 55296 57343 c.

(** A text that [s.encode("utf-8")] and [urllib.parse.quote(s)] accept: one
    without surrogate. On any other text they raise a
    [UnicodeEncodeError]. *)
Definition encodable (s : str) : bool :=
  forallb (fun c => negb (is_surrogate c)) s.

(** [sub in s] for a one-character [sub]. *)
Fixpoint contains (c : char) (s : str) : bool :=
  match s with
  | [] => false
  | x :: s' => char_eqb x c || contains c s'
  end.

(** [s.split(sep, 1)] for a one-character [sep]: the text before the first
    [sep] and the text after it; the whole of [s] and nothing when [sep] does
    not occur. *)
Fixpoint split_once (sep : char) (s : str) : str * option str :=
  match s with
  | [] => ([], None)
  | x :: s' =>
      if char_eqb x sep then ([], Some s')
      else let '(l, r) := split_once sep s' in (x :: l, r)
  end.

(** [s.endswith("\n")]. *)
Fixpoint endswith_LF (s : str) : bool :=
  match s with
  | [] => false
  | [c] => char_eqb c LF
  | _ :: s' => endswith_LF s'
  end.

(** [str.splitlines]: [cur] is the line being read. A carriage return
    followed by a line feed is one boundary; no empty line follows the last
    boundary. *)
Fixpoint splitlines_from (cur : str) (s : str) : list str :=
  match s with
  | [] => match cur with [] => [] | _ => [cur] end
  | c :: s' =>
      if is_linebreak c then
        match s' with
        | c' :: s'' =>
            if char_eqb c CR && char_eqb c' LF
            then cur :: splitlines_from [] s''
            else cur :: splitlines_from [] s'
        | [] => [cur]
        end
      else splitlines_from (cur ++ [c]) s'
  end.

Definition splitlines (s : str) : list str := splitlines_from [] s.

(** [str.lstrip], [str.rstrip] and [str.strip] without argument. *)
Fixpoint lstrip (s : str) : str :=
  match s with
  | c :: s' => if isspace c then lstrip s' else s
  | [] => []
  end.

Definition rstrip (s : str) : str := rev (lstrip (rev s)).
Definition strip (s : str) : str := rstrip (lstrip s).

(** [s.replace("\n", " ")]. *)
Definition replace_LF_by_space (s : str) : str :=
  map (fun c => if char_eqb c LF then SPACE else c) s.

(** [str(n)] for a natural number: its decimal digits. *)
Fixpoint digits_of (fuel : nat) (n : N) (acc : str) : str :=
  match fuel with
  | O => acc
  | S fuel' =>
      let acc' := (48 + n mod 10) :: acc in
      if n <? 10 then acc' else digits_of fuel' (n / 10) acc'
  end.

Definition str_of_nat (n : nat) : str :=
  digits_of (S n) (N.of_nat n) [].

(* ================================================================== *)
(** * Python floats *)

(** A [float] is a binary64 number. *)
Definition float := spec_float.
Definition prec : Z := 53.
Definition emax : Z := 1024.

Definition fmul : float -> float -> float := SFmul prec emax.
Definition fadd : float -> float -> float := SFadd prec emax.
Definition fsub : float -> float -> float := SFsub prec emax.
Definition fltb : float -> float -> bool := SFltb.
Definition fleb : float -> float -> bool := SFleb.

(** [0.0]. *)
Definition fzero : float := S754_zero false.

(** The binary64 number nearest to the fraction [n / d] (ties to even), for
    [0 <= n] and [0 < d]: the quotient is computed with enough bits and the
    position of the remainder, then rounded once. *)
Definition float_of_ratio (n d : Z) : float :=
  match n with
  | Z0 => fzero
  | _ =>
      let '(q, e, l) := SFdiv_core_binary prec emax n 0 d 0 in
      binary_round_aux prec emax false q e l
  end.

(** The longest prefix of decimal digits of a text, as the number it
    denotes and the count of its digits, and the rest of the text. *)
Fixpoint read_digits (acc : N) (count : nat) (s : str) : N * nat * str :=
  match s with
  | c :: s' =>
      match decimal_value c with
      | Some d => read_digits (10 * acc + d) (S count) s'
      | None => (acc, count, s)
      end
  | [] => (acc, count, [])
  end.

(** [float(s)] on the decimal literals: digits with an optional point, at
    least one digit in all. It converts with correct rounding and gives
    [inf] beyond the largest finite number. [None] stands for the texts that
    are not such a literal; the other spellings Python's [float] reads (sign,
    exponent, [inf], [nan], underscores, padding) have a character that group
    1 of [_DURATION_RE] never holds. *)
Definition py_float (s : str) : option float :=
  let '(ni, ci, r) := read_digits 0 O s in
  match r with
  | [] =>
      match ci with
      | O => None
      | _ => Some (float_of_ratio (Z.of_N ni) 1)
      end
  | c :: r' =>
      if char_eqb c DOT then
        let '(n, cf, r'') := read_digits ni O r' in
        match r'', (ci + cf)%nat with
        | [], S _ => Some (float_of_ratio (Z.of_N n) (10 ^ Z.of_nat cf))
        | _, _ => None
        end
      else None
  end.

(** The literals of [parse_duration]: [0.001], [1.0], [60.0], [3600.0]. *)
Definition f0_001 : float := S754_finite false 4611686018427388 (-62).
Definition f1 : float := S754_finite false 4503599627370496 (-52).
Definition f60 : float := S754_finite false 8444249301319680 (-47).
Definition f3600 : float := S754_finite false 7916483719987200 (-41).

(** [max(a, b)] and [min(a, b)] of Python: the first argument unless the
    second is strictly greater (smaller). *)
Definition py_max (a b : float) : float := if fltb a b then b else a.
Definition py_min (a b : float) : float := if fltb b a then b else a.

(** [random.uniform(a, b)] of the standard library, which is
    [a + (b - a) * random()]; [r] is the number that [random()] returned, a
    float from 0.0 (included) to 1.0 (excluded). *)
Definition uniform (a b r : float) : float := fadd a (fmul (fsub b a) r).


(* ================================================================== *)
(** * Exceptions *)

(** The exceptions the script can meet. [SystemExit] is what [sys.exit]
    raises; [InvalidDuration] is the [ValueError] of [parse_duration];
    [UnicodeEncodeError] is what [str.encode] and [urllib.parse.quote] raise
    on a text that UTF-8 cannot encode; [OtherError] stands for the other
    errors of the libraries (transport, decoding, file system). All of these
    are subclasses of [Exception]. *)
Inductive exc : Type :=
  | InvalidDuration (token : str)
  | KeyError (key : str)
  | RuntimeError
  | AttributeError
  | UnicodeEncodeError
  | OtherError
  | KeyboardInterrupt
  | SystemExit (code : Z).

Inductive result (A : Type) : Type :=
  | Ok (a : A)
  | Raise (e : exc).
Arguments Ok {A} a.
Arguments Raise {A} e.

(** [except Exception] catches everything but [KeyboardInterrupt] and
    [SystemExit]. *)
Definition is_Exception (e : exc) : bool :=
  match e with
  | KeyboardInterrupt | SystemExit _ => false
  | _ => true
  end.

(* ================================================================== *)
(** * Durations *)

(** ** The pattern [_DURATION_RE]

    [^\s*(\d+(?:\.\d+)?)\s*(ms|s|m|h)?\s*$] with [re.IGNORECASE], matched the
    way [re] does: each piece takes the longest text it can and gives back when
    what follows fails. Every piece receives the rest of the pattern as the
    continuation [k]. *)

Section Backtracking.
Context {A : Type}.

(** [p*], greedy. *)
Fixpoint re_star (p : char -> bool) (s : str) (k : str -> option A)
  : option A :=
  match s with
  | c :: s' =>
      if p c then
        match re_star p s' k with
        | Some r => Some r
        | None => k s
        end
      else k s
  | [] => k []
  end.

(** [p*], greedy, inside a group: [g] is the text the group holds so far. *)
Fixpoint re_star_in (p : char -> bool) (g : str) (s : str)
  (k : str -> str -> option A) : option A :=
  match s with
  | c :: s' =>
      if p c then
        match re_star_in p (g ++ [c]) s' k with
        | Some r => Some r
        | None => k g s
        end
      else k g s
  | [] => k g []
  end.

(** [p+], greedy, inside a group. *)
Definition re_plus_in (p : char -> bool) (g : str) (s : str)
  (k : str -> str -> option A) : option A :=
  match s with
  | c :: s' => if p c then re_star_in p (g ++ [c]) s' k else None
  | [] => None
  end.

(** [(?:\.\d+)?], greedy, inside group 1. *)
Definition re_fraction (g : str) (s : str) (k : str -> str -> option A)
  : option A :=
  match s with
  | c :: s' =>
      if char_eqb c DOT then
        match re_plus_in isdecimal (g ++ [c]) s' k with
        | Some r => Some r
        | None => k g s
        end
      else k g s
  | [] => k g []
  end.

(** A literal text under [re.IGNORECASE]; [eq] says which characters each
    letter of the pattern matches. The matched text is handed on. *)
Fixpoint re_literal (eq : char -> char -> bool) (pat : str) (g : str)
  (s : str) (k : str -> str -> option A) : option A :=
  match pat with
  | [] => k g s
  | x :: pat' =>
      match s with
      | c :: s' => if eq x c then re_literal eq pat' (g ++ [c]) s' k else None
      | [] => None
      end
  end.

(** [(a|b|...)?]: the alternatives in order, then the empty match, in
    which the group holds nothing. *)
Fixpoint re_alternatives (eq : char -> char -> bool) (pats : list str)
  (s : str) (k : option str -> str -> option A) : option A :=
  match pats with
  | [] => k None s
  | pat :: pats' =>
      match re_literal eq pat [] s (fun g r => k (Some g) r) with
      | Some r => Some r
      | None => re_alternatives eq pats' s k
      end
  end.
End Backtracking.

(** A letter of the pattern against a character of the text under
    [re.IGNORECASE] on [str]: equal after lowering, and, for [s], also the
    long s, which [re] adds as a second lowercase form of [S]. Exact for the
    letters [m], [s] and [h], the only ones the pattern has. *)
Definition ignorecase_eq (x c : char) : bool :=
  char_eqb c x || char_eqb (c + 32) x
  || (char_eqb x 115 && char_eqb c LONG_S).

(** [$] without [re.MULTILINE]: the end of the text, or just before a line
    feed that ends it. *)
Definition re_end (s : str) : bool :=
  match s with
  | [] => true
  | [c] => char_eqb c LF
  | _ => false
  end.

Definition unit_names : list str := [lit "ms"; lit "s"; lit "m"; lit "h"].

(** [_DURATION_RE.match(token)]: groups 1 and 2 of the match, if any. *)
Definition _DURATION_RE (token : str) : option (str * option str) :=
  re_star isspace token (fun s1 =>
  re_plus_in isdecimal [] s1 (fun g s2 =>
  re_fraction g s2 (fun g1 s3 =>
  re_star isspace s3 (fun s4 =>
  re_alternatives ignorecase_eq unit_names s4 (fun g2 s5 =>
  re_star isspace s5 (fun s6 =>
  if re_end s6 then Some (g1, g2) else None)))))).

(** [str.lower] on one character, for the characters group 2 can hold: the
    ASCII letters, and the long s, which is its own lowercase. *)
Definition lower_char (c : char) : char :=
  if in_range 65 90 c then c + 32 else c.

Definition lower (s : str) : str := map lower_char s.

(** The dictionary of factors: [{"ms": 0.001, "s": 1.0, "m": 60.0,
    "h": 3600.0}[unit]]. *)
Definition factor_of (unit : str) : result float :=
  if str_eqb unit (lit "ms") then Ok f0_001
  else if str_eqb unit (lit "s") then Ok f1
  else if str_eqb unit (lit "m") then Ok f60
  else if str_eqb unit (lit "h") then Ok f3600
  else Raise (KeyError unit).

Definition parse_duration (token : str) : result float :=
  match _DURATION_RE token with
  | None => Raise (InvalidDuration token)
  | Some (g1, g2) =>
      match py_float g1 with
      | None => Raise OtherError
      | Some value =>
          let unit := lower (match g2 with Some u => u | None => lit "s" end) in
          match factor_of unit with
          | Ok factor => Ok (fmul value factor)
          | Raise e => Raise e
          end
      end
  end.

(** ** The delay getter

    [build_delay_getter] returns a closure and a description of it; the
    closure is represented by what it captures. *)
Inductive delay_getter : Type :=
  | RangeDelay (lo hi : float)
  | FixedDelay (fixed : float).

Definition build_delay_getter (spec : str) : result delay_getter :=
  if contains HYPHEN spec then
    let '(left_, right_) := split_once HYPHEN spec in
    match parse_duration left_ with
    | Raise e => Raise e
    | Ok a =>
        match parse_duration (match right_ with Some r => r | None => [] end) with
        | Raise e => Raise e
        | Ok b =>
            let '(lo, hi) := if fleb a b then (a, b) else (b, a) in
            let lo := py_max fzero lo in
            Ok (RangeDelay lo hi)
        end
    end
  else
    match parse_duration spec with
    | Raise e => Raise e
    | Ok fixed => Ok (FixedDelay (py_max fzero fixed))
    end.

(** [next_delay()]: [random.uniform(lo, hi)] or the fixed value; [r] is the
    answer of the random generator to this call. *)
Definition next_delay (g : delay_getter) (r : float) : float :=
  match g with
  | RangeDelay lo hi => uniform lo hi r
  | FixedDelay fixed => fixed
  end.

(* ================================================================== *)
(** * Values decoded from JSON *)

(** What [json.loads] returns; [JNull] is [None], [JObj] a [dict] given by its
    bindings (the first binding of a key is the one the [dict] holds). *)
#[warnings="-register-all"]
Inductive json : Type :=
  | JNull
  | JBool (b : bool)
  | JInt (z : Z)
  | JFloat (f : float)
  | JStr (s : str)
  | JArr (items : list json)
  | JObj (bindings : list (str * json)).

(** The truth value of a Python object. *)
Definition truthy (v : json) : bool :=
  match v with
  | JNull => false
  | JBool b => b
  | JInt z => negb (Z.eqb z 0)
  | JFloat (S754_zero _) => false
  | JFloat _ => true
  | JStr s => match s with [] => false | _ => true end
  | JArr items => match items with [] => false | _ => true end
  | JObj bindings => match bindings with [] => false | _ => true end
  end.

Fixpoint dict_lookup (bindings : list (str * json)) (key : str) : option json :=
  match bindings with
  | [] => None
  | (k, v) :: rest => if str_eqb k key then Some v else dict_lookup rest key
  end.

(** [v.get(key, default)]; only a [dict] has the method. *)
Definition py_get (v : json) (key : str) (default : json) : result json :=
  match v with
  | JObj bindings =>
      Ok (match dict_lookup bindings key with Some x => x | None => default end)
  | _ => Raise AttributeError
  end.

(** [v or {}]. *)
Definition or_empty_dict (v : json) : json := if truthy v then v else JObj [].

(** The truth value of an optional text, as of [args.token] or
    [committer_name]: [None] and the empty text are false. *)
Definition given (o : option str) : bool :=
  match o with
  | Some (_ :: _) => true
  | _ => false
  end.

(* ================================================================== *)
(** * The world outside the script *)

Inductive method : Type := GET | PUT.

(** The body of a write request, [payload] in [put_file]. [p_content] is the
    text itself; on the wire it is its base64 encoding. [p_sha] and
    [p_committer] are [None] when the key is not in the dictionary. *)
Record payload : Type := {
  p_message : str;
  p_content : str;
  p_branch : str;
  p_sha : option json;
  p_committer : option (str * str)
}.

(** The contents URL of a file, [ref] being its query when there is one. *)
Record url : Type := {
  u_owner : str;
  u_repo : str;
  u_path : str;
  u_ref : option str
}.

Record request : Type := {
  rq_method : method;
  rq_url : url;
  rq_token : str;
  rq_data : option payload
}.

(** What a call of [http_request] gives: a status code with the decoded body
    (from a response or from an [HTTPError]), or an exception that passes
    through it. *)
Inductive http_outcome : Type :=
  | Returned (code : Z) (resp : json)
  | Raised (e : exc).

(** The answers of everything outside the script. The calls of the remote
    service, of the random generator and of the clock are numbered: the fetch
    is call 0 of [http], and the write, the sample and the pause of line [idx]
    are call [idx] of [http], [random] and [sleep] (each earlier line of a
    live run made one write). [decode_content] stands for the base64 and UTF-8
    decoding of the fetched content. An interruption by the user is a
    [KeyboardInterrupt] raised by the call during which it arrives: a request,
    a pause, or the reading of the input. *)
Record World : Type := {
  getenv_GITHUB_TOKEN : option str;
  read_text_file : str -> result str;
  stdin_isatty : bool;
  stdin_read : result str;
  http : nat -> request -> http_outcome;
  decode_content : json -> result str;
  random : nat -> float;
  sleep : nat -> float -> result unit
}.

(** The command line, after [argparse]. *)
Record Args : Type := {
  token : option str;
  repo : str;
  path : str;
  branch : str;
  text : option str;
  text_file : option str;
  delay : str;
  skip_empty : bool;
  start_index : Z;
  commit_prefix : str;
  committer_name : option str;
  committer_email : option str;
  dry_run : bool
}.

(* ================================================================== *)
(** * Runs *)

(** Each [print] of the script, by what it reports. *)
Inductive message : Type :=
  | MissingToken
  | BadRepo
  | InvalidDelay (e : exc)
  | PasteHint
  | NoLines
  | FetchFailed (e : exc)
  | WillBeCreated (file : str)
  | FoundAppending (file : str)
  | DelayMode (g : delay_getter)
  | DryRunMessage (msg : str)
  | CommitError (code : Z) (reason : json)
  | ErrorList (errors : json)
  | Committed (count total : nat) (commit_sha html_url : json)
  | Pause (delay_sec : float)
  | DryRunFinished
  | Done (count : nat)
  | Interrupted.

(** What a run does that can be seen from outside, in order. *)
Inductive event : Type :=
  | Stderr (m : message)
  | Stdout (m : message)
  | Http (call : nat) (rq : request) (answer : http_outcome)
  | Sampled (call : nat) (g : delay_getter) (value : float)
  | Slept (call : nat) (seconds : float) (answer : result unit).

(** A computation of the script: the events it produced and its value or the
    exception that ended it. *)
Definition run (A : Type) : Type := (list event * result A)%type.

Definition ret {A : Type} (a : A) : run A := ([], Ok a).

Definition bind {A B : Type} (m : run A) (k : A -> run B) : run B :=
  match m with
  | (ev, Ok a) => let '(ev', r) := k a in (ev ++ ev', r)
  | (ev, Raise e) => (ev, Raise e)
  end.

Definition emit (e : event) : run unit := ([e], Ok tt).
Definition raise {A : Type} (e : exc) : run A := ([], Raise e).
Definition lift {A : Type} (r : result A) : run A := ([], r).

(** [try: m except ...: handler], the handler chosen by [catches]. *)
Definition try_except {A : Type} (m : run A) (catches : exc -> bool)
  (handler : exc -> run A) : run A :=
  match m with
  | (ev, Raise e) =>
      if catches e then let '(ev', r) := handler e in (ev ++ ev', r)
      else (ev, Raise e)
  | _ => m
  end.

Declare Scope run_scope.
Delimit Scope run_scope with run.
Notation "x <- m ;; k" := (bind m (fun x => k))
  (at level 61, m at next level, right associativity) : run_scope.
Notation "' p <- m ;; k" := (bind m (fun x => let 'p := x in k))
  (at level 61, p pattern, m at next level, right associativity) : run_scope.
Notation "m ;; k" := (bind m (fun _ => k))
  (at level 61, right associativity) : run_scope.
Local Open Scope run_scope.

Definition events {A : Type} (r : run A) : list event := fst r.
Definition outcome {A : Type} (r : run A) : result A := snd r.

(** The return code of the process whose main function ran as [r], as the
    parent process reads it: the code given to [sys.exit], 0 when the function
    returns, 1 for an exception nobody caught. For a [KeyboardInterrupt]
    nobody caught the interpreter ends the process by the signal SIGINT, which
    is no exit code: the return code is then [-2], the number of the signal
    with a minus sign. *)
Definition exit_status {A : Type} (r : run A) : Z :=
  match outcome r with
  | Ok _ => 0
  | Raise (SystemExit code) => code
  | Raise KeyboardInterrupt => -2
  | Raise _ => 1
  end.

(* ================================================================== *)
(** * The script *)

(** ** HTTP and the contents interface *)

(** Call number [call] of [http_request]: the request goes out and the
    world answers. *)
Definition http_request (w : World) (call : nat) (m : method) (u : url)
  (tok : str) (data : option payload) : run (Z * json) :=
  let rq := {| rq_method := m; rq_url := u; rq_token := tok; rq_data := data |} in
  let answer := http w call rq in
  emit (Http call rq answer) ;;
  match answer with
  | Returned code resp => ret (code, resp)
  | Raised e => raise e
  end.

Definition is_dict (v : json) : bool :=
  match v with JObj _ => true | _ => false end.

(** [key in v] for a dictionary [v]. *)
Definition has_key (v : json) (key : str) : bool :=
  match v with
  | JObj bindings =>
      match dict_lookup bindings key with Some _ => true | None => false end
  | _ => false
  end.

(** [v != "base64"]. *)
Definition differs_from_base64 (v : json) : bool :=
  match v with
  | JStr s => negb (str_eqb s (lit "base64"))
  | _ => true
  end.

(** Lines 42 to 47: the text and the [sha] in the answer to a fetch. *)
Definition read_contents (w : World) (resp : json) : result (option str * json) :=
  match py_get resp (lit "encoding") (JStr (lit "base64")) with
  | Raise e => Raise e
  | Ok encoding =>
      if differs_from_base64 encoding then Raise RuntimeError
      else
        match py_get resp (lit "content") JNull with
        | Raise e => Raise e
        | Ok content_b64 =>
            match decode_content w content_b64 with
            | Raise e => Raise e
            | Ok text_ =>
                match py_get resp (lit "sha") JNull with
                | Raise e => Raise e
                | Ok sha => Ok (Some text_, sha)
                end
            end
        end
  end.

(** The request [get_file] sends. *)
Definition get_request (owner repo_name file branch_name tok : str) : request :=
  {| rq_method := GET;
     rq_url := {| u_owner := owner; u_repo := repo_name; u_path := file;
                  u_ref := Some branch_name |};
     rq_token := tok;
     rq_data := None |}.

(** What [get_file] does with the answer to its request. *)
Definition read_fetch (w : World) (code : Z) (resp : json)
  : result (option str * json) :=
  if Z.eqb code 200 && is_dict resp && has_key resp (lit "content") then
    read_contents w resp
  else if Z.eqb code 404 then Ok (None, JNull)
  else Raise RuntimeError.

(** The pair [(text, sha)] of the file, [(None, None)] when it does not
    exist. Line 39 quotes the path and the branch for the URL, which fails
    before any request on a text that UTF-8 cannot encode. *)
Definition get_file (w : World) (owner repo_name file branch_name tok : str)
  : run (option str * json) :=
  if encodable file && encodable branch_name then
    let u := {| u_owner := owner; u_repo := repo_name; u_path := file;
                u_ref := Some branch_name |} in
    '(code, resp) <- http_request w 0 GET u tok None ;;
    lift (read_fetch w code resp)
  else raise UnicodeEncodeError.

(** The dictionary [put_file] sends. *)
Definition put_payload (branch_name message_ text_ : str) (sha : json)
  (name email : option str) : payload :=
  {| p_message := message_;
     p_content := text_;
     p_branch := branch_name;
     p_sha := if truthy sha then Some sha else None;
     p_committer :=
       if given name && given email then
         match name, email with
         | Some n, Some e => Some (n, e)
         | _, _ => None
         end
       else None |}.

(** Line 53 quotes the path for the URL and line 54 encodes the text; both
    fail before any request on a text that UTF-8 cannot encode. The message
    and the branch go through [json.dumps], which escapes every character
    outside ASCII. *)
Definition put_file (w : World) (call : nat)
  (owner repo_name file branch_name message_ text_ tok : str) (sha : json)
  (name email : option str) : run (Z * json) :=
  if encodable file && encodable text_ then
    let u := {| u_owner := owner; u_repo := repo_name; u_path := file;
                u_ref := None |} in
    http_request w call PUT u tok
      (Some (put_payload branch_name message_ text_ sha name email))
  else raise UnicodeEncodeError.

(** ** Utility *)

Definition shorten (s : str) : str :=
  let s := replace_LF_by_space (strip s) in
  if Nat.leb (List.length s) 60 then s else firstn 59 s ++ [ELLIPSIS].

(** ** Main *)

(** [args.token or os.getenv("GITHUB_TOKEN")]. *)
Definition resolve_token (a : Args) (w : World) : option str :=
  if given (token a) then token a else getenv_GITHUB_TOKEN w.

(** The input text: [--text], else the file of [--text-file], else the
    standard input. *)
Definition read_raw (a : Args) (w : World) : run str :=
  match text a with
  | Some t => ret t
  | None =>
      if given (text_file a) then
        lift (read_text_file w (match text_file a with Some f => f | None => [] end))
      else
        (if stdin_isatty w then emit (Stderr PasteHint) else ret tt) ;;
        lift (stdin_read w)
  end.

(** Lines 140 to 144: the lines to commit; [split_and_filter] is lines 140
    to 142, before the offset. *)
Definition split_and_filter (raw : str) (skip : bool) : list str :=
  let lines := splitlines raw in
  if skip then filter (fun ln => negb (str_eqb (strip ln) [])) lines
  else lines.

Definition select_lines (raw : str) (skip : bool) (start : Z) : list str :=
  let lines := split_and_filter raw skip in
  if Z.ltb 0 start then skipn (Z.to_nat start) lines else lines.

(** Lines 169 and 170: a line feed after a text that has none at its end. *)
Definition ensure_newline (current_text : str) : str :=
  match current_text with
  | [] => []
  | _ => if endswith_LF current_text then current_text else current_text ++ [LF]
  end.

(** Lines 169 to 171: the buffer after one more line. *)
Definition append_line (current_text line : str) : str :=
  ensure_newline current_text ++ line ++ [LF].

(** Line 173: the commit message of line [idx] of [total]. *)
Definition commit_message (prefix : str) (idx total : nat) (line : str) : str :=
  prefix ++ [SPACE] ++ str_of_nat idx ++ [SLASH] ++ str_of_nat total
  ++ lit ": " ++ shorten line.

(** The variables the loop updates. *)
Record loop_state : Type := {
  current_text : str;
  file_sha : json;
  committed : nat
}.

(** [code not in (200, 201)]. *)
Definition not_success (code : Z) : bool :=
  negb (Z.eqb code 200 || Z.eqb code 201).

(** Lines 183 to 187: the report of a refused write, then [sys.exit(1)]. *)
Definition report_commit_error (code : Z) (resp : json) : run loop_state :=
  reason <- lift (py_get resp (lit "message") JNull) ;;
  emit (Stderr (CommitError code reason)) ;;
  (if has_key resp (lit "errors") then
     errors <- lift (py_get resp (lit "errors") JNull) ;;
     emit (Stderr (ErrorList errors))
   else ret tt) ;;
  raise (SystemExit 1).

(** Lines 196 to 199: the pause after a commit that is not the last. *)
Definition pause (w : World) (g : delay_getter) (idx total : nat) : run unit :=
  if Nat.ltb idx total then
    let value := next_delay g (random w idx) in
    emit (Sampled idx g value) ;;
    let delay_sec := py_max fzero value in
    emit (Stderr (Pause delay_sec)) ;;
    let answer := sleep w idx delay_sec in
    emit (Slept idx delay_sec answer) ;;
    lift answer
  else ret tt.

(** Lines 189 to 192: what the script reads in the answer to a write, the
    new [file_sha], [commit_sha] and [html_url]. *)
Definition read_answer (resp : json) (sha : json) : result (json * json * json) :=
  match py_get resp (lit "content") JNull with
  | Raise e => Raise e
  | Ok content =>
      let new_content := or_empty_dict content in
      match py_get new_content (lit "sha") sha with
      | Raise e => Raise e
      | Ok file_sha' =>
          match py_get resp (lit "commit") JNull with
          | Raise e => Raise e
          | Ok commit =>
              match py_get (or_empty_dict commit) (lit "sha") JNull with
              | Raise e => Raise e
              | Ok commit_sha =>
                  match py_get new_content (lit "html_url") JNull with
                  | Raise e => Raise e
                  | Ok html_url => Ok (file_sha', commit_sha, html_url)
                  end
              end
          end
      end
  end.

(** Lines 169 to 199: the body of the loop, for line [idx]. *)
Definition commit_line (a : Args) (w : World) (g : delay_getter)
  (owner repo_name tok : str) (total idx : nat) (line : str) (st : loop_state)
  : run loop_state :=
  let current_text' := append_line (current_text st) line in
  let msg := commit_message (commit_prefix a) idx total line in
  if dry_run a then
    emit (Stdout (DryRunMessage msg)) ;;
    ret {| current_text := current_text'; file_sha := file_sha st;
           committed := committed st |}
  else
    '(code, resp) <- put_file w idx owner repo_name (path a) (branch a) msg
                       current_text' tok (file_sha st)
                       (committer_name a) (committer_email a) ;;
    if not_success code then report_commit_error code resp
    else
      '(file_sha', commit_sha, html_url) <-
         lift (read_answer resp (file_sha st)) ;;
      let committed' := S (committed st) in
      emit (Stdout (Committed committed' total commit_sha html_url)) ;;
      pause w g idx total ;;
      ret {| current_text := current_text'; file_sha := file_sha';
             committed := committed' |}.

(** Line 168: [for idx, line in enumerate(lines, 1)], from line [idx] on. *)
Fixpoint commit_loop (a : Args) (w : World) (g : delay_getter)
  (owner repo_name tok : str) (total idx : nat) (lines : list str)
  (st : loop_state) : run loop_state :=
  match lines with
  | [] => ret st
  | line :: rest =>
      st' <- commit_line a w g owner repo_name tok total idx line st ;;
      commit_loop a w g owner repo_name tok total (S idx) rest st'
  end.

(** Lines 165 to 207: the loop, the closing report and the handler of an
    interruption. *)
Definition commit_all (a : Args) (w : World) (g : delay_getter)
  (owner repo_name tok : str) (lines : list str) (st : loop_state)
  : run loop_state :=
  try_except
    (st' <- commit_loop a w g owner repo_name tok (List.length lines) 1 lines st ;;
     (if dry_run a then emit (Stdout DryRunFinished)
      else emit (Stdout (Done (committed st')))) ;;
     ret st')
    (fun e => match e with KeyboardInterrupt => true | _ => false end)
    (fun _ => emit (Stderr Interrupted) ;; raise (SystemExit 130)).

(** Lines 150 to 161: the first state of the loop, from the fetch. *)
Definition initial_state (a : Args) (w : World) (owner repo_name tok : str)
  : run loop_state :=
  '(fetched, sha) <-
     try_except (get_file w owner repo_name (path a) (branch a) tok)
       is_Exception
       (fun e => emit (Stderr (FetchFailed e)) ;; raise (SystemExit 1)) ;;
  match fetched with
  | None =>
      emit (Stderr (WillBeCreated (path a))) ;;
      ret {| current_text := []; file_sha := JNull; committed := 0 |}
  | Some t =>
      emit (Stderr (FoundAppending (path a))) ;;
      ret {| current_text := t; file_sha := sha; committed := 0 |}
  end.

Definition main (a : Args) (w : World) : run loop_state :=
  match resolve_token a w with
  | Some (c :: tok') =>
      let tok := c :: tok' in
      if negb (contains SLASH (repo a)) then
        emit (Stderr BadRepo) ;; raise (SystemExit 2)
      else
        let '(owner, rest) := split_once SLASH (repo a) in
        let repo_name := match rest with Some r => r | None => [] end in
        g <- try_except (lift (build_delay_getter (delay a))) is_Exception
               (fun e => emit (Stderr (InvalidDelay e)) ;; raise (SystemExit 2)) ;;
        raw <- read_raw a w ;;
        let lines := select_lines raw (skip_empty a) (start_index a) in
        match lines with
        | [] => emit (Stderr NoLines) ;; raise (SystemExit 0)
        | _ =>
            st <- initial_state a w owner repo_name tok ;;
            emit (Stderr (DelayMode g)) ;;
            commit_all a w g owner repo_name tok lines st
        end
  | _ => emit (Stderr MissingToken) ;; raise (SystemExit 2)
  end.

(* ================================================================== *)
(** * Vocabulary of the properties *)

(** ** Observations of a run *)

(** The bodies of the write requests of a run, in order. *)
Fixpoint writes (evs : list event) : list payload :=
  match evs with
  | [] => []
  | Http _ {| rq_method := PUT; rq_data := Some p |} _ :: evs' => p :: writes evs'
  | _ :: evs' => writes evs'
  end.

(** The messages a dry run logs instead of committing, in order. *)
Fixpoint dry_run_messages (evs : list event) : list str :=
  match evs with
  | [] => []
  | Stdout (DryRunMessage msg) :: evs' => msg :: dry_run_messages evs'
  | _ :: evs' => dry_run_messages evs'
  end.

(** The number of commits a run reports as made. *)
Fixpoint confirmed_commits (evs : list event) : nat :=
  match evs with
  | [] => 0
  | Stdout (Committed _ _ _ _) :: evs' => S (confirmed_commits evs')
  | _ :: evs' => confirmed_commits evs'
  end.

(** The delays a run asked the getter for. *)
Fixpoint samples (evs : list event) : list float :=
  match evs with
  | [] => []
  | Sampled _ _ v :: evs' => v :: samples evs'
  | _ :: evs' => samples evs'
  end.

(** The pauses a run made, by their length. *)
Fixpoint pauses (evs : list event) : list float :=
  match evs with
  | [] => []
  | Slept _ secs _ :: evs' => secs :: pauses evs'
  | _ :: evs' => pauses evs'
  end.

(** The requests of a run with their answers, fetch and writes alike. *)
Fixpoint http_events (evs : list event) : list (nat * request * http_outcome) :=
  match evs with
  | [] => []
  | Http c rq ans :: evs' => (c, rq, ans) :: http_events evs'
  | _ :: evs' => http_events evs'
  end.

(** An event that is a message on the standard error. *)
Definition is_stderr (e : event) : bool :=
  match e with Stderr _ => true | _ => false end.

(** The exception an event shows a call of the world to have raised. *)
Definition raised_by (ev : event) : option exc :=
  match ev with
  | Http _ _ (Raised e) => Some e
  | Slept _ _ (Raise e) => Some e
  | _ => None
  end.

(** An event of a call the loop makes: a write or a pause. The fetch is the
    only call before the loop that leaves an event. *)
Definition in_loop (ev : event) : bool :=
  match ev with
  | Http _ rq _ => match rq_method rq with PUT => true | GET => false end
  | Slept _ _ _ => true
  | _ => false
  end.

(** The request [put_file] sends. *)
Definition put_request (owner repo_name file branch_name message_ text_ tok : str)
  (sha : json) (name email : option str) : request :=
  {| rq_method := PUT;
     rq_url := {| u_owner := owner; u_repo := repo_name; u_path := file;
                  u_ref := None |};
     rq_token := tok;
     rq_data := Some (put_payload branch_name message_ text_ sha name email) |}.

(** The fetch can be sent: UTF-8 can encode the path and the branch. *)
Definition fetchable (a : Args) : bool :=
  encodable (path a) && encodable (branch a).

(** The write of a line can be sent: UTF-8 can encode the path and the
    buffer with the line. *)
Definition sendable (a : Args) (st : loop_state) (line : str) : bool :=
  encodable (path a) && encodable (append_line (current_text st) line).

(** The request of the write of line [idx], from the state [st]. *)
Definition line_request (a : Args) (owner repo_name tok : str)
  (total idx : nat) (line : str) (st : loop_state) : request :=
  put_request owner repo_name (path a) (branch a)
    (commit_message (commit_prefix a) idx total line)
    (append_line (current_text st) line) tok (file_sha st)
    (committer_name a) (committer_email a).

(** ** Answers of the remote service *)

(** A success the script can read: status 200 or 201 and a dictionary whose
    [content] and [commit] are dictionaries, or false. *)
Definition confirms (answer : http_outcome) : bool :=
  match answer with
  | Returned code resp =>
      negb (not_success code)
      && match read_answer resp JNull with Ok _ => true | Raise _ => false end
  | Raised _ => false
  end.

(** The answer to the fetch as [get_file] reads it. *)
Definition fetch_result (w : World) (rq : request) : result (option str * json) :=
  match http w 0 rq with
  | Returned code resp => read_fetch w code resp
  | Raised e => Raise e
  end.

(** The state the loop starts from, by the result of the fetch. *)
Definition state_of_fetch (r : result (option str * json)) : result loop_state :=
  match r with
  | Ok (None, _) => Ok {| current_text := []; file_sha := JNull; committed := 0 |}
  | Ok (Some t, sha) => Ok {| current_text := t; file_sha := sha; committed := 0 |}
  | Raise e => Raise (if is_Exception e then SystemExit 1 else e)
  end.

(** ** The running buffer *)

(** The buffer after the lines [lines], from the buffer [t]. *)
Definition buffer_after (t : str) (lines : list str) : str :=
  fold_left append_line lines t.

(** A text that ends with a line feed and has no line feed just before it. *)
Definition ends_with_one_LF (s : str) : Prop :=
  exists p, s = p ++ [LF] /\ endswith_LF p = false.

(** The lines [ls], each followed by a line feed. *)
Definition terminated (ls : list str) : str :=
  concat (map (fun l => l ++ [LF]) ls).

(** The buffers the loop goes through over [lines], from the buffer [t], and
    the commit messages of these lines, numbered from [idx]. *)
Fixpoint buffers (t : str) (lines : list str) : list str :=
  match lines with
  | [] => []
  | line :: rest => append_line t line :: buffers (append_line t line) rest
  end.

Fixpoint messages (prefix : str) (total idx : nat) (lines : list str)
  : list str :=
  match lines with
  | [] => []
  | line :: rest =>
      commit_message prefix idx total line :: messages prefix total (S idx) rest
  end.

(** The messages of a dry run over [lines], numbered from [idx]. *)
Fixpoint dry_run_log (prefix : str) (total idx : nat) (lines : list str)
  : list event :=
  match lines with
  | [] => []
  | line :: rest =>
      Stdout (DryRunMessage (commit_message prefix idx total line))
      :: dry_run_log prefix total (S idx) rest
  end.

(** ** The stages of [main] *)

(** What [main] has settled when it reaches the loop: the token, the owner
    and the name of the repository, the delay getter, the lines, and the state
    from the fetch; [pre] is what the run produced until then. *)
Definition reaches_loop (a : Args) (w : World) (tok owner repo_name : str)
  (g : delay_getter) (lines : list str) (st0 : loop_state) (pre : list event)
  : Prop :=
  resolve_token a w = Some tok /\ tok <> []
  /\ contains SLASH (repo a) = true
  /\ fetchable a = true
  /\ owner = fst (split_once SLASH (repo a))
  /\ repo_name = match snd (split_once SLASH (repo a)) with
                 | Some r => r
                 | None => []
                 end
  /\ build_delay_getter (delay a) = Ok g
  /\ exists raw log,
       outcome (read_raw a w) = Ok raw
       /\ lines = select_lines raw (skip_empty a) (start_index a)
       /\ lines <> []
       /\ state_of_fetch
            (fetch_result w (get_request owner repo_name (path a) (branch a) tok))
          = Ok st0
       /\ forallb is_stderr log = true
       /\ pre = events (read_raw a w)
                ++ Http 0 (get_request owner repo_name (path a) (branch a) tok)
                     (http w 0 (get_request owner repo_name (path a) (branch a) tok))
                   :: log.

(** A run that ended with [e] before the loop: it made no write, no commit
    and no pause, and if it sent the fetch, the fetch is why it ended. *)
Definition stops_before_loop (w : World) (r : run loop_state) (e : exc) : Prop :=
  outcome r = Raise e
  /\ writes (events r) = []
  /\ confirmed_commits (events r) = 0%nat
  /\ samples (events r) = []
  /\ pauses (events r) = []
  /\ dry_run_messages (events r) = []
  /\ forall k rq ans,
       In (Http k rq ans) (events r) ->
       rq_method rq = GET /\ ans = http w 0 rq
       /\ state_of_fetch (fetch_result w rq) = Raise e.

(** [main] with its sequencing written out: what it produced and how it ended,
    by the stage it reached. *)
Definition main_stages (a : Args) (w : World) : run loop_state :=
  match resolve_token a w with
  | Some (c :: tok') =>
      let tok := c :: tok' in
      if contains SLASH (repo a) then
        let owner := fst (split_once SLASH (repo a)) in
        let repo_name := match snd (split_once SLASH (repo a)) with
                         | Some r => r
                         | None => []
                         end in
        match build_delay_getter (delay a) with
        | Raise e =>
            if is_Exception e
            then ([Stderr (InvalidDelay e)], Raise (SystemExit 2))
            else ([], Raise e)
        | Ok g =>
            let read := read_raw a w in
            match outcome read with
            | Raise e => (events read, Raise e)
            | Ok raw =>
                match select_lines raw (skip_empty a) (start_index a) with
                | [] => (events read ++ [Stderr NoLines], Raise (SystemExit 0))
                | lines =>
                    let init := initial_state a w owner repo_name tok in
                    match outcome init with
                    | Raise e => (events read ++ events init, Raise e)
                    | Ok st0 =>
                        let rest := commit_all a w g owner repo_name tok lines st0 in
                        (events read ++ events init
                           ++ Stderr (DelayMode g) :: events rest,
                         outcome rest)
                    end
                end
            end
        end
      else ([Stderr BadRepo], Raise (SystemExit 2))
  | _ => ([Stderr MissingToken], Raise (SystemExit 2))
  end.

(** ** Duration texts *)

(** The text begins with no character of the class [p]. *)
Definition stops (p : char -> bool) (s : str) : Prop :=
  match s with
  | [] => True
  | c :: _ => p c = false
  end.

(** White space, and digits: at least one. *)
Definition spaces (s : str) : Prop := forallb isspace s = true.
Definition digits (s : str) : Prop := s <> [] /\ forallb isdecimal s = true.

(** A number as the pattern has it: digits, then possibly a point and
    digits. *)
Inductive number_text : str -> Prop :=
  | whole_number :
      forall ip, digits ip -> number_text ip
  | with_fraction :
      forall ip fp, digits ip -> digits fp -> number_text (ip ++ DOT :: fp).

(** The text [u] spells [name], letter by letter, [eq] saying which
    characters stand for a letter. *)
Definition spells (eq : char -> char -> bool) (name u : str) : Prop :=
  Forall2 (fun x c => eq x c = true) name u.

(** What group 2 holds and the text it stands for: nothing, or a spelling
    of one of the units. *)
Inductive unit_text (eq : char -> char -> bool) : option str -> str -> Prop :=
  | no_unit : unit_text eq None []
  | some_unit :
      forall name u,
        In name unit_names -> spells eq name u -> unit_text eq (Some u) u.

(** A letter in either case, ASCII only. *)
Definition ascii_case_eq (x c : char) : bool :=
  char_eqb c x || char_eqb (c + 32) x.

(** The texts [_DURATION_RE] is written for, with what its groups hold:
    white space, a number, white space, possibly a unit, white space. *)
Definition duration_text (eq : char -> char -> bool) (s g1 : str)
  (g2 : option str) : Prop :=
  exists ws1 ws2 u ws3,
    s = ws1 ++ g1 ++ ws2 ++ u ++ ws3
    /\ spaces ws1 /\ spaces ws2 /\ spaces ws3
    /\ number_text g1 /\ unit_text eq g2 u.

(** The grammar in the words of the specification: white space around, a
    number, and possibly a unit as its suffix, in either case. *)
Definition duration_grammar (s g1 : str) (g2 : option str) : Prop :=
  exists ws1 u ws2,
    s = ws1 ++ g1 ++ u ++ ws2
    /\ spaces ws1 /\ spaces ws2
    /\ number_text g1 /\ unit_text ascii_case_eq g2 u.

(** The letters of the units in the pattern: [m], [s] and [h]. *)
Definition unit_letters : list char := [109; 115; 104].

(** The characters the units are written with: the letters of [ms], [s],
    [m], [h] in both cases, and the long s. *)
Definition is_unit_char (c : char) : bool :=
  ignorecase_eq 109 c || ignorecase_eq 115 c || ignorecase_eq 104 c.

(** A decimal digit is no white space, no point, no hyphen and no letter of
    a unit: checked on the ten digits of every script. *)
Definition apart_from_digits (c : char) : bool :=
  negb (isspace c) && negb (char_eqb c DOT) && negb (char_eqb c HYPHEN)
  && negb (is_unit_char c).

(** The end of the pattern, from the white space after the number. *)
Definition re_tail (g : str) (s3 : str) : option (str * option str) :=
  re_star isspace s3 (fun s4 =>
  re_alternatives ignorecase_eq unit_names s4 (fun g2 s5 =>
  re_star isspace s5 (fun s6 =>
  if re_end s6 then Some (g, g2) else None))).

(** ** Floats *)

(** A float that is no NaN and has no minus sign: [+0.0], a positive finite
    number, or [+inf]. *)
Definition nonneg (x : float) : bool :=
  match x with
  | S754_zero false | S754_infinity false | S754_finite false _ _ => true
  | _ => false
  end.

(** *** Rounding to binary64 *)

Section BinaryFloats.

Local Open Scope Z_scope.

(** Whether a quotient [q] with remainder [rem] out of [pw] rounds up: the
    remainder is more than half, or half with [q] odd. *)
Definition round_up (q rem pw : Z) : bool :=
  (pw <? 2 * rem) || ((2 * rem =? pw) && Z.odd q).

(** The mantissa [m] shifted right by [n] bits and rounded to nearest, ties
    to even. *)
Definition rne (m n : Z) : Z :=
  m / 2 ^ n + (if round_up (m / 2 ^ n) (m mod 2 ^ n) (2 ^ n) then 1 else 0).

(** The float of a rounded mantissa [M <= 2^53] at the exponent [E]. *)
Definition pack (M E : Z) : float :=
  match M with
  | Z0 => S754_zero false
  | Zpos p =>
      if M <? 2 ^ 53 then
        if E <=? 971 then S754_finite false p E else S754_infinity false
      else
        if E + 1 <=? 971 then S754_finite false 4503599627370496 (E + 1)
        else S754_infinity false
  | Zneg _ => S754_nan
  end.

(** The exponent a number [m * 2^e] is rounded at. *)
Definition rexp (m e : Z) : Z := fexp prec emax (Zdigits2 m + e).

(** A float that binary64 has: a mantissa of 53 bits, or of fewer at the
    smallest exponent, and an exponent in range. *)
Definition valid (x : float) : bool := valid_binary prec emax x.

(** A float that is neither an infinity nor a NaN. *)
Definition finite (x : float) : bool :=
  match x with
  | S754_zero _ | S754_finite _ _ _ => true
  | _ => false
  end.

(** The value [m * 2^e] in units of [2^-2148], an integer for every
    exponent from [-2148] on: the numbers of binary64 have exponents from
    [-1074] on, their products from [-2148] on. *)
Definition scaled (m e : Z) : Z := m * 2 ^ (e + 2148).

(** The value of a float that is finite and not negative. *)
Definition float_value (x : float) : Z :=
  match x with
  | S754_finite false m e => scaled (Z.pos m) e
  | _ => 0
  end.

(** [m * 2^e] rounded to binary64, for [0 <= m]. *)
Definition round_exact (m e : Z) : float :=
  binary_round_aux prec emax false m e loc_Exact.

(** The mantissa and the value of the rounded number. *)
Definition round_mantissa (m e : Z) : Z := rne m (rexp m e - e).

Definition round_value (m e : Z) : Z :=
  scaled (round_mantissa m e) (rexp m e).

(** The numbers given to the rounding: not negative, at an exponent that
    the scale covers and that is at most the exponent of the result. *)
Definition roundable (m e : Z) : Prop :=
  0 <= m /\ -2148 <= e /\ e <= rexp m e.

(** The floats of the delays: valid, finite, and not negative. *)
Definition regular (x : float) : bool := valid x && finite x && nonneg x.

(** What an operation rounds: an exact number, given as the rounding of a
    mantissa and an exponent that is at least the smallest one. *)
Definition rounds (value : Z) (x : float) : Prop :=
  exists m e,
    roundable m e /\ -1074 <= e /\ scaled m e = value /\ x = round_exact m e.

End BinaryFloats.

Arguments scaled : simpl never.

(** What [random()] returns: a float from 0.0 (included) to 1.0
    (excluded). *)
Definition unit_interval (r : float) : bool := regular r && fltb r f1.

(** The floats [0.5] and [+inf], and a number of 400 digits, which is beyond
    the largest float. *)
Definition half : float := S754_finite false 4503599627370496 (-53).
Definition infinity : float := S754_infinity false.
Definition nines : str := repeat 57 400.

(** ** Further vocabulary *)

(** A text with no white space at either end. *)
Definition stripped (s : str) : Prop :=
  stops isspace s /\ stops isspace (rev s).

(** A text without line boundary. *)
Definition single_line (l : str) : bool :=
  forallb (fun c => negb (is_linebreak c)) l.

(** The pauses of a list of events are its samples clamped at zero. *)
Definition pauses_clamped (evs : list event) : Prop :=
  pauses evs = map (py_max fzero) (samples evs).

(** The calls of the lines that are followed by a pause: those before line
    [total]. *)
Definition paused_calls (total idx count : nat) : list nat :=
  filter (fun k => Nat.ltb k total) (seq idx count).

(** The token an answer to a write gives: what it holds under [content] and
    there under [sha], if anything. *)
Definition answered_sha (resp : json) : option json :=
  match resp with
  | JObj b =>
      match dict_lookup b (lit "content") with
      | Some (JObj c) => dict_lookup c (lit "sha")
      | _ => None
      end
  | _ => None
  end.

(** The token as a write sends it: left out when it is false. *)
Definition sent_sha (sha : json) : option json :=
  if truthy sha then Some sha else None.


(** The float of a whole number [0 < m < 2^53]: the mantissa shifted to 53
    bits. *)
Definition whole_float (m : Z) : float :=
  match (m * 2 ^ (53 - Zdigits2 m))%Z with
  | Zpos p => S754_finite false p (Zdigits2 m - 53)
  | _ => fzero
  end.

(** ** Example runs *)

(** Arguments for a repository "owner/name" and a file "notes.txt", by the
    token, the delay, the text and the mode. *)
Definition args_of (tok : option str) (delay_ : str) (text_ : str) (dry : bool)
  : Args :=
  {| token := tok;
     repo := lit "owner/name";
     path := lit "notes.txt";
     branch := lit "main";
     text := Some text_;
     text_file := None;
     delay := delay_;
     skip_empty := false;
     start_index := 0;
     commit_prefix := lit "chore: append line";
     committer_name := None;
     committer_email := None;
     dry_run := dry |}.

(** The arguments of the example of the specification: the text of two lines
    "a" and "b", delay "0". *)
Definition two_lines : str := lit "a" ++ [LF] ++ lit "b" ++ [LF].

Definition example_args : Args :=
  args_of (Some (lit "secret")) (lit "0") two_lines false.

(** The answer of the service to a write it accepts, with the new [sha]. *)
Definition created (sha : str) : http_outcome :=
  Returned 201
    (JObj [(lit "content", JObj [(lit "sha", JStr sha)]);
           (lit "commit", JObj [(lit "sha", JStr (lit "c0ffee"))])]).

(** The answer to a fetch of a file that exists. *)
Definition found (content sha : json) : http_outcome :=
  Returned 200
    (JObj [(lit "content", content); (lit "encoding", JStr (lit "base64"));
           (lit "sha", sha)]).

Definition not_found : http_outcome :=
  Returned 404 (JObj [(lit "message", JStr (lit "Not Found"))]).

Definition conflict : http_outcome :=
  Returned 409 (JObj [(lit "message", JStr (lit "conflict"))]).

(** A world whose fetch is answered by [fetch] and whose write number [k] by
    [write k]; the decoding of the fetched content is the text of the JSON
    string itself, the random generator gives 0.0, and no pause is cut
    short. *)
Definition world_of (fetch : http_outcome) (write : nat -> http_outcome) : World :=
  {| getenv_GITHUB_TOKEN := None;
     read_text_file := fun _ => Raise OtherError;
     stdin_isatty := false;
     stdin_read := Ok [];
     http := fun call _ => match call with O => fetch | _ => write call end;
     decode_content := fun v => match v with JStr s => Ok s | _ => Raise OtherError end;
     random := fun _ => fzero;
     sleep := fun _ _ => Ok tt |}.

(** A world that reports the file absent and accepts every write, and one
    that refuses the second write. *)
Definition accepting_world : World :=
  world_of not_found (fun _ => created (lit "abc")).

Definition refusing_world : World :=
  world_of not_found
    (fun k => match k with 2%nat => conflict | _ => created (lit "abc") end).

(** A world where the user interrupts the second write, and one where the
    user interrupts the fetch. *)
Definition interrupted_world : World :=
  world_of not_found
    (fun k => match k with
              | 2%nat => Raised KeyboardInterrupt
              | _ => created (lit "abc")
              end).

Definition interrupted_fetch_world : World :=
  world_of (Raised KeyboardInterrupt) (fun _ => created (lit "abc")).

(** A text of one line that UTF-8 cannot encode: the surrogate U+DCFF, which
    the command line holds for the byte FF, and a line feed. *)
Definition unencodable_text : str := [56575; LF].

Definition unencodable_args : Args :=
  args_of (Some (lit "secret")) (lit "0") unencodable_text false.

(** A world whose fetch finds the file, with the content "x" and a line feed
    and the token [sha]. *)
Definition finding_world (sha : json) : World :=
  world_of (found (JStr (lit "x" ++ [LF])) sha) (fun _ => created (lit "def")).

Definition example_fetch : request :=
  get_request (lit "owner") (lit "name") (lit "notes.txt") (lit "main")
    (lit "secret").

(* ================================================================== *)
(** * Properties *)

(** ** The starting offset *)

(** C9. For every starting offset that is zero or negative, the lines to
    commit are the lines as they are before the offset step: nothing is
    dropped, neither from the front nor, as a negative slice would, from the
    end. *)
Theorem select_lines_nonpositive_start :
  forall (raw : str) (skip : bool) (start : Z),
    (start <= 0)%Z ->
    select_lines raw skip start = split_and_filter raw skip.
Proof.
  intros raw skip start Hstart. unfold select_lines.
  destruct (Z.ltb_spec 0 start) as [Hpos | _]; [lia | reflexivity].
Qed.

Lemma select_lines_nonpositive_start_witness :
  select_lines (lit "a" ++ [LF] ++ lit "b" ++ [LF]) false (-1)
  = split_and_filter (lit "a" ++ [LF] ++ lit "b" ++ [LF]) false.
Proof.
  apply (select_lines_nonpositive_start _ false (-1)%Z). lia.
Defined.

(** A positive offset drops that many leading lines. *)
Lemma select_lines_positive_start :
  forall (raw : str) (skip : bool) (start : Z),
    (0 < start)%Z ->
    select_lines raw skip start
    = skipn (Z.to_nat start) (split_and_filter raw skip).
Proof.
  intros raw skip start Hstart. unfold select_lines.
  destruct (Z.ltb_spec 0 start) as [_ | Hneg]; [reflexivity | lia].
Qed.

(** ** The committer of a write *)

Lemma given_spec :
  forall o : option str, given o = true <-> exists s, o = Some s /\ s <> [].
Proof.
  intros [[| c s] |]; simpl; split; intros H;
    try discriminate; try reflexivity.
  - destruct H as [s [Hs Hne]]. inversion Hs; subst. contradiction.
  - exists (c :: s). split; [reflexivity | discriminate].
  - destruct H as [s [Hs _]]. discriminate.
Qed.

(** C10, as the script has it. [put_file] sends one request, unless UTF-8
    cannot encode the path or the text: then it sends none. The request has a
    committer exactly when a name and an email are both given and neither is
    empty; the committer is then that pair. When one of the two is missing
    there is none, whatever the other is. *)
Theorem put_file_committer :
  forall (w : World) (call : nat)
    (owner repo_name file branch_name message_ text_ tok : str) (sha : json)
    (name email : option str),
  exists (rq : request) (p : payload),
    events (put_file w call owner repo_name file branch_name message_ text_ tok
              sha name email)
    = (if encodable file && encodable text_
       then [Http call rq (http w call rq)]
       else [])
    /\ rq_method rq = PUT
    /\ rq_data rq = Some p
    /\ (forall n e,
          p_committer p = Some (n, e)
          <-> (name = Some n /\ email = Some e /\ n <> [] /\ e <> []))
    /\ (name = None \/ email = None -> p_committer p = None).
Proof.
  intros.
  exists {| rq_method := PUT;
            rq_url := {| u_owner := owner; u_repo := repo_name;
                         u_path := file; u_ref := None |};
            rq_token := tok;
            rq_data := Some (put_payload branch_name message_ text_ sha
                               name email) |}.
  exists (put_payload branch_name message_ text_ sha name email).
  split.
  - unfold put_file.
    destruct (encodable file && encodable text_); [| reflexivity].
    unfold http_request, events, bind, emit.
    simpl. destruct (http w call _); reflexivity.
  - split; [reflexivity |]. split; [reflexivity |]. split.
    + intros n e. simpl. split.
      * intros H.
        destruct name as [[| c1 n1] |], email as [[| c2 e1] |];
          simpl in H; try discriminate H.
        inversion H; subst. repeat split; discriminate.
      * intros [-> [-> [Hn He]]].
        destruct n; [contradiction |]. destruct e; [contradiction |].
        reflexivity.
    + intros [H | H]; subst; simpl.
      * reflexivity.
      * destruct (given name); reflexivity.
Qed.

(** The claim read with "supplied" as "passed on the command line" fails:
    an empty name passed with an email gives a request without committer. *)
Lemma put_file_committer_empty_name :
  Some ([] : str) <> None /\ Some (lit "a@b.c") <> None
  /\ p_committer (put_payload (lit "main") (lit "m") (lit "t") JNull
                    (Some []) (Some (lit "a@b.c")))
     = None.
Proof.
  repeat split; discriminate.
Qed.

(** ** The running buffer *)

Lemma endswith_LF_app_LF : forall s : str, endswith_LF (s ++ [LF]) = true.
Proof.
  induction s as [| c s IH]; [reflexivity |].
  simpl. destruct (s ++ [LF]) eqn:E.
  - destruct s; discriminate.
  - exact IH.
Qed.

Lemma endswith_LF_app :
  forall s t : str, t <> [] -> endswith_LF (s ++ t) = endswith_LF t.
Proof.
  induction s as [| c s IH]; intros t Ht; [reflexivity |].
  simpl. destruct (s ++ t) eqn:E.
  - destruct s; [simpl in E; contradiction | discriminate].
  - rewrite <- E. apply IH. exact Ht.
Qed.

Lemma ensure_newline_ends :
  forall t : str,
    ensure_newline t = [] \/ endswith_LF (ensure_newline t) = true.
Proof.
  intros [| c t]; [left; reflexivity | right].
  unfold ensure_newline. destruct (endswith_LF (c :: t)) eqn:E.
  - exact E.
  - apply endswith_LF_app_LF.
Qed.

Lemma append_line_ends :
  forall t line : str, endswith_LF (append_line t line) = true.
Proof.
  intros. unfold append_line. rewrite app_assoc. apply endswith_LF_app_LF.
Qed.

(** ** Texts that UTF-8 can encode *)

Lemma encodable_app :
  forall s t : str, encodable (s ++ t) = encodable s && encodable t.
Proof. intros s t. unfold encodable. apply forallb_app. Qed.

Lemma encodable_ensure_newline :
  forall t : str, encodable (ensure_newline t) = encodable t.
Proof.
  intros [| c t]; [reflexivity |]. unfold ensure_newline.
  destruct (endswith_LF (c :: t)); [reflexivity |].
  rewrite encodable_app. apply andb_true_r.
Qed.

Lemma encodable_append_line :
  forall t line : str,
    encodable (append_line t line) = encodable t && encodable line.
Proof.
  intros t line. unfold append_line.
  rewrite !encodable_app, encodable_ensure_newline.
  change (encodable [LF]) with true. rewrite andb_true_r. reflexivity.
Qed.

Lemma splitlines_from_encodable :
  forall (n : nat) (s cur : str),
    (List.length s <= n)%nat ->
    encodable cur = true -> encodable s = true ->
    forallb encodable (splitlines_from cur s) = true.
Proof.
  induction n as [| n IH]; intros s cur Hn Hcur Hs.
  - destruct s; [| simpl in Hn; lia].
    cbn [splitlines_from]. destruct cur; [reflexivity |].
    cbn [forallb]. rewrite Hcur. reflexivity.
  - destruct s as [| c s].
    { cbn [splitlines_from]. destruct cur; [reflexivity |].
      cbn [forallb]. rewrite Hcur. reflexivity. }
    assert (Hc : negb (is_surrogate c) = true /\ encodable s = true)
      by (apply andb_true_iff; exact Hs).
    destruct Hc as [Hc Hs']. simpl in Hn.
    cbn [splitlines_from]. destruct (is_linebreak c).
    + destruct s as [| c' s''].
      * cbn [forallb]. rewrite Hcur. reflexivity.
      * assert (Hs'' : encodable s'' = true)
          by (apply andb_true_iff in Hs'; apply Hs').
        simpl in Hn.
        destruct (char_eqb c CR && char_eqb c' LF); cbn [forallb];
          rewrite Hcur; cbn [andb]; apply IH; auto; simpl; lia.
    + apply IH; [lia | | exact Hs'].
      rewrite encodable_app, Hcur. unfold encodable. cbn [forallb andb].
      rewrite Hc. reflexivity.
Qed.

Lemma splitlines_encodable :
  forall raw : str,
    encodable raw = true -> forallb encodable (splitlines raw) = true.
Proof.
  intros raw H.
  apply (splitlines_from_encodable (List.length raw));
    [apply Nat.le_refl | reflexivity | exact H].
Qed.

(* ================================================================== *)
(** ** Runs: general facts *)

Lemma events_bind :
  forall (A B : Type) (m : run A) (k : A -> run B),
    events (bind m k)
    = events m ++ match outcome m with
                  | Ok x => events (k x)
                  | Raise _ => []
                  end.
Proof.
  intros A B [ev [x | e]] k; unfold bind, events, outcome; simpl.
  - destruct (k x); reflexivity.
  - rewrite app_nil_r. reflexivity.
Qed.

Lemma outcome_bind :
  forall (A B : Type) (m : run A) (k : A -> run B),
    outcome (bind m k)
    = match outcome m with
      | Ok x => outcome (k x)
      | Raise e => Raise e
      end.
Proof.
  intros A B [ev [x | e]] k; unfold bind, outcome; simpl.
  - destruct (k x); reflexivity.
  - reflexivity.
Qed.

Lemma run_eta : forall (A : Type) (r : run A), r = (events r, outcome r).
Proof. intros A [ev res]. reflexivity. Qed.

Lemma writes_app :
  forall evs evs' : list event, writes (evs ++ evs') = writes evs ++ writes evs'.
Proof.
  induction evs as [| e evs IH]; intros evs'; [reflexivity |].
  destruct e as [m | m | c [[|] u t [p |]] ans | c g v | c v ans]; simpl;
    rewrite ?IH; reflexivity.
Qed.

Lemma dry_run_messages_app :
  forall evs evs' : list event,
    dry_run_messages (evs ++ evs') = dry_run_messages evs ++ dry_run_messages evs'.
Proof.
  induction evs as [| e evs IH]; intros evs'; [reflexivity |].
  destruct e as [m | m | c rq ans | c g v | c v ans]; simpl;
    try destruct m; simpl; rewrite ?IH; reflexivity.
Qed.

Lemma confirmed_commits_app :
  forall evs evs' : list event,
    confirmed_commits (evs ++ evs')
    = (confirmed_commits evs + confirmed_commits evs')%nat.
Proof.
  induction evs as [| e evs IH]; intros evs'; [reflexivity |].
  destruct e as [m | m | c rq ans | c g v | c v ans]; simpl;
    try destruct m; simpl; rewrite ?IH; reflexivity.
Qed.

Lemma samples_app :
  forall evs evs' : list event, samples (evs ++ evs') = samples evs ++ samples evs'.
Proof.
  induction evs as [| e evs IH]; intros evs'; [reflexivity |].
  destruct e; simpl; rewrite ?IH; reflexivity.
Qed.

Lemma pauses_app :
  forall evs evs' : list event, pauses (evs ++ evs') = pauses evs ++ pauses evs'.
Proof.
  induction evs as [| e evs IH]; intros evs'; [reflexivity |].
  destruct e; simpl; rewrite ?IH; reflexivity.
Qed.

(** ** One line of a dry run *)

Lemma commit_line_dry_run :
  forall a w g owner repo_name tok total idx line st,
    dry_run a = true ->
    commit_line a w g owner repo_name tok total idx line st
    = ([Stdout (DryRunMessage (commit_message (commit_prefix a) idx total line))],
       Ok {| current_text := append_line (current_text st) line;
             file_sha := file_sha st;
             committed := committed st |}).
Proof.
  intros. unfold commit_line. rewrite H. reflexivity.
Qed.

Lemma commit_loop_dry_run :
  forall a w g owner repo_name tok total lines idx st,
    dry_run a = true ->
    commit_loop a w g owner repo_name tok total idx lines st
    = (dry_run_log (commit_prefix a) total idx lines,
       Ok {| current_text := buffer_after (current_text st) lines;
             file_sha := file_sha st;
             committed := committed st |}).
Proof.
  intros a w g owner repo_name tok total lines.
  induction lines as [| line rest IH]; intros idx st Hdry.
  - destruct st; reflexivity.
  - simpl commit_loop. rewrite commit_line_dry_run by exact Hdry.
    unfold bind. rewrite IH by exact Hdry. reflexivity.
Qed.

Lemma dry_run_log_observed :
  forall prefix total lines idx,
    let log := dry_run_log prefix total idx lines in
    writes log = [] /\ samples log = [] /\ pauses log = []
    /\ confirmed_commits log = 0%nat
    /\ List.length (dry_run_messages log) = List.length lines.
Proof.
  intros prefix total lines.
  induction lines as [| line rest IH]; intros idx; simpl.
  - repeat split.
  - destruct (IH (S idx)) as [Hw [Hs [Hp [Hc Hl]]]].
    repeat split; try assumption. simpl. f_equal. exact Hl.
Qed.

(** ** One line of a live run *)

Lemma http_events_app :
  forall evs evs' : list event,
    http_events (evs ++ evs') = http_events evs ++ http_events evs'.
Proof.
  induction evs as [| e evs IH]; intros evs'; [reflexivity |].
  destruct e; simpl; rewrite ?IH; reflexivity.
Qed.

Lemma In_http_events :
  forall evs c rq ans,
    In (Http c rq ans) evs <-> In (c, rq, ans) (http_events evs).
Proof.
  induction evs as [| e evs IH]; intros c rq ans; simpl; [tauto |].
  specialize (IH c rq ans).
  destruct e; simpl; split; intros H;
    try (destruct H as [H | H]; [discriminate | tauto]);
    try tauto.
  - destruct H as [H | H]; [inversion H; subst; left; reflexivity | tauto].
  - destruct H as [H | H]; [inversion H; subst; left; reflexivity | tauto].
Qed.

Lemma report_commit_error_run :
  forall code resp,
    let r := report_commit_error code resp in
    http_events (events r) = [] /\ writes (events r) = []
    /\ confirmed_commits (events r) = 0%nat
    /\ samples (events r) = [] /\ pauses (events r) = []
    /\ (outcome r = Raise (SystemExit 1) \/ outcome r = Raise AttributeError).
Proof.
  intros code resp. unfold report_commit_error.
  destruct resp as [| b | z | f | s | items | bindings]; simpl;
    try (repeat split; auto; fail).
  destruct (dict_lookup bindings (lit "errors")); simpl; repeat split; auto.
Qed.

Lemma pause_run :
  forall w g idx total,
    let r := pause w g idx total in
    http_events (events r) = [] /\ writes (events r) = []
    /\ confirmed_commits (events r) = 0%nat.
Proof.
  intros w g idx total r. subst r. unfold pause. cbv zeta.
  destruct (Nat.ltb idx total); [| simpl; repeat split; auto].
  - unfold bind, emit, lift, events, outcome.
    match goal with
    | |- context [sleep w idx ?v] => destruct (sleep w idx v)
    end; simpl; repeat split; auto.
Qed.

(** The run of one line of a live run, by the answer to its write. *)
Lemma commit_line_unencodable :
  forall a w g owner repo_name tok total idx line st,
    dry_run a = false ->
    sendable a st line = false ->
    commit_line a w g owner repo_name tok total idx line st
    = ([], Raise UnicodeEncodeError).
Proof.
  intros a w g owner repo_name tok total idx line st Hdry Henc.
  unfold commit_line. rewrite Hdry. unfold put_file.
  unfold sendable in Henc. rewrite Henc. reflexivity.
Qed.

Lemma commit_line_live :
  forall a w g owner repo_name tok total idx line st,
    dry_run a = false ->
    sendable a st line = true ->
    let rq := line_request a owner repo_name tok total idx line st in
    commit_line a w g owner repo_name tok total idx line st
    = match http w idx rq with
      | Raised e => ([Http idx rq (Raised e)], Raise e)
      | Returned code resp =>
          if not_success code then
            (Http idx rq (Returned code resp)
               :: events (report_commit_error code resp),
             outcome (report_commit_error code resp))
          else
            match read_answer resp (file_sha st) with
            | Raise e => ([Http idx rq (Returned code resp)], Raise e)
            | Ok (file_sha', commit_sha, html_url) =>
                (Http idx rq (Returned code resp)
                   :: Stdout (Committed (S (committed st)) total commit_sha
                                html_url)
                   :: events (pause w g idx total),
                 match outcome (pause w g idx total) with
                 | Ok _ =>
                     Ok {| current_text := append_line (current_text st) line;
                           file_sha := file_sha';
                           committed := S (committed st) |}
                 | Raise e => Raise e
                 end)
            end
      end.
Proof.
  intros a w g owner repo_name tok total idx line st Hdry Henc rq.
  unfold commit_line. rewrite Hdry.
  unfold put_file. unfold sendable in Henc. rewrite Henc.
  unfold http_request.
  fold (put_request owner repo_name (path a) (branch a)
          (commit_message (commit_prefix a) idx total line)
          (append_line (current_text st) line) tok (file_sha st)
          (committer_name a) (committer_email a)).
  fold (line_request a owner repo_name tok total idx line st). fold rq.
  destruct (http w idx rq) as [code resp | e]; [| reflexivity].
  cbn [bind emit ret raise lift app].
  destruct (not_success code).
  - destruct (report_commit_error code resp) as [ev r]. reflexivity.
  - destruct (read_answer resp (file_sha st)) as [[[sha' csha] url] | e];
      [| reflexivity].
    cbn [bind emit ret raise lift app].
    destruct (pause w g idx total) as [ev [[] | e]];
      unfold bind, ret, events, outcome; simpl;
      rewrite ?app_nil_r; reflexivity.
Qed.

(** ** The loop of a live run *)

Lemma events_pair :
  forall (A : Type) (evs : list event) (res : result A), events (evs, res) = evs.
Proof. reflexivity. Qed.

Lemma outcome_pair :
  forall (A : Type) (evs : list event) (res : result A), outcome (evs, res) = res.
Proof. reflexivity. Qed.

Ltac run_pairs := rewrite ?events_pair, ?outcome_pair in *.

Lemma commit_loop_cons :
  forall a w g owner repo_name tok total idx line rest st,
    commit_loop a w g owner repo_name tok total idx (line :: rest) st
    = (events (commit_line a w g owner repo_name tok total idx line st)
       ++ match outcome (commit_line a w g owner repo_name tok total idx line st) with
          | Ok st' =>
              events (commit_loop a w g owner repo_name tok total (S idx) rest st')
          | Raise _ => []
          end,
       match outcome (commit_line a w g owner repo_name tok total idx line st) with
       | Ok st' =>
           outcome (commit_loop a w g owner repo_name tok total (S idx) rest st')
       | Raise e => Raise e
       end).
Proof.
  intros. simpl commit_loop.
  rewrite (run_eta _ (bind _ _)), events_bind, outcome_bind. reflexivity.
Qed.

(** A write that is refused is the last thing the loop sends: the loop ends
    with an exception that gives exit status 1, and every earlier line was
    committed. *)
Lemma commit_loop_refused :
  forall a w g owner repo_name tok total lines idx st k rq code resp,
    let r := commit_loop a w g owner repo_name tok total idx lines st in
    dry_run a = false ->
    In (k, rq, Returned code resp) (http_events (events r)) ->
    not_success code = true ->
    (idx <= k)%nat
    /\ (outcome r = Raise (SystemExit 1) \/ outcome r = Raise AttributeError)
    /\ List.length (writes (events r)) = S (k - idx)
    /\ confirmed_commits (events r) = (k - idx)%nat
    /\ exists evs1 evs2,
         events r = evs1 ++ Http k rq (Returned code resp) :: evs2
         /\ http_events evs2 = [] /\ writes evs2 = [].
Proof.
  intros a w g owner repo_name tok total lines.
  induction lines as [| line rest IH];
    intros idx st k rq code resp r Hdry Hin Hbad; subst r.
  - simpl in Hin. contradiction.
  - rewrite commit_loop_cons in *. run_pairs.
    destruct (sendable a st line) eqn:Henc.
    2: { rewrite commit_line_unencodable in Hin by assumption.
         run_pairs. simpl in Hin. contradiction. }
    rewrite commit_line_live in * by assumption.
    set (rq0 := line_request a owner repo_name tok total idx line st) in *.
    assert (Hw0 : forall evs, writes (Http idx rq0 (http w idx rq0) :: evs)
                              = put_payload (branch a)
                                  (commit_message (commit_prefix a) idx total line)
                                  (append_line (current_text st) line)
                                  (file_sha st) (committer_name a)
                                  (committer_email a) :: writes evs)
      by reflexivity.
    destruct (http w idx rq0) as [code0 resp0 | e0] eqn:Hans.
    + destruct (not_success code0) eqn:Hcode0.
      * (* the write of this line is refused *)
        destruct (report_commit_error_run code0 resp0)
          as [Hh [Hw [Hc [_ [_ Hout]]]]].
        run_pairs.
        assert (Hraise : exists e,
                   outcome (report_commit_error code0 resp0) = Raise e)
          by (destruct Hout as [-> | ->]; eexists; reflexivity).
        destruct Hraise as [e He]. rewrite He in *.
        rewrite app_nil_r in *. simpl in Hin. rewrite Hh in Hin.
        destruct Hin as [Heq | []]. inversion Heq; subst k rq code resp.
        split; [lia |]. split; [exact Hout |]. split.
        { rewrite Hw0, Hw. simpl. f_equal. lia. }
        split.
        { simpl. rewrite Hc. lia. }
        exists [], (events (report_commit_error code0 resp0)).
        repeat split; assumption.
      * (* the write of this line is accepted *)
        destruct (read_answer resp0 (file_sha st)) as [[[sha' csha] url] | e].
        -- destruct (pause_run w g idx total) as [Hh [Hw Hc]].
           run_pairs.
           destruct (outcome (pause w g idx total)) as [[] | e].
           ++ rewrite http_events_app in Hin. simpl in Hin. rewrite Hh in Hin.
              simpl in Hin.
              destruct Hin as [Heq | Hin];
                [inversion Heq; subst; congruence |].
              destruct (IH (S idx) _ k rq code resp Hdry Hin Hbad)
                as [Hle [Hout [Hlen [Hcount [evs1 [evs2 [Hev [Hh2 Hw2]]]]]]]].
              split; [lia |]. split; [exact Hout |]. split.
              { rewrite writes_app, Hw0. simpl. rewrite Hw. simpl.
                rewrite Hlen. lia. }
              split.
              { rewrite confirmed_commits_app. simpl. rewrite Hc, Hcount. lia. }
              eexists (_ ++ evs1), evs2. rewrite Hev.
              rewrite <- app_assoc. repeat split; assumption.
           ++ rewrite app_nil_r in Hin. simpl in Hin. rewrite Hh in Hin.
              destruct Hin as [Heq | []]. inversion Heq; subst; congruence.
        -- run_pairs. simpl in Hin. destruct Hin as [Heq | []].
           inversion Heq; subst; congruence.
    + run_pairs. simpl in Hin. destruct Hin as [Heq | []]. inversion Heq.
Qed.

(** ** The stages of [main] *)

Lemma stderr_only :
  forall log : list event,
    forallb is_stderr log = true ->
    http_events log = [] /\ writes log = [] /\ confirmed_commits log = 0%nat
    /\ samples log = [] /\ pauses log = [] /\ dry_run_messages log = [].
Proof.
  induction log as [| e log IH]; intros H; [repeat split |].
  destruct e; try discriminate. simpl in H. exact (IH H).
Qed.

Lemma get_file_run :
  forall w owner repo_name file branch_name tok,
    encodable file && encodable branch_name = true ->
    let rq := get_request owner repo_name file branch_name tok in
    get_file w owner repo_name file branch_name tok
    = ([Http 0 rq (http w 0 rq)], fetch_result w rq).
Proof.
  intros w owner repo_name file branch_name tok Henc rq. subst rq.
  unfold get_file. rewrite Henc. unfold http_request, fetch_result.
  fold (get_request owner repo_name file branch_name tok).
  destruct (http w 0 _) as [code resp | e]; [| reflexivity].
  unfold bind, emit, ret, lift. simpl.
  destruct (read_fetch w code resp); reflexivity.
Qed.

Lemma initial_state_unencodable :
  forall a w owner repo_name tok,
    fetchable a = false ->
    initial_state a w owner repo_name tok
    = ([Stderr (FetchFailed UnicodeEncodeError)], Raise (SystemExit 1)).
Proof.
  intros a w owner repo_name tok Henc. unfold initial_state, get_file.
  unfold fetchable in Henc. rewrite Henc. reflexivity.
Qed.

Lemma initial_state_run :
  forall a w owner repo_name tok,
    fetchable a = true ->
    let rq := get_request owner repo_name (path a) (branch a) tok in
    exists log,
      initial_state a w owner repo_name tok
      = (Http 0 rq (http w 0 rq) :: log, state_of_fetch (fetch_result w rq))
      /\ forallb is_stderr log = true.
Proof.
  intros a w owner repo_name tok Henc rq. unfold initial_state.
  rewrite get_file_run by exact Henc. fold rq. unfold state_of_fetch.
  destruct (fetch_result w rq) as [[[t |] sha] | e];
    unfold try_except, bind, emit, ret, raise; simpl.
  - eexists. split; reflexivity.
  - eexists. split; reflexivity.
  - destruct (is_Exception e); simpl; eexists; split; reflexivity.
Qed.

Lemma read_raw_stderr :
  forall a w, forallb is_stderr (events (read_raw a w)) = true.
Proof.
  intros a w. unfold read_raw.
  destruct (text a); [reflexivity |].
  destruct (given (text_file a)); [reflexivity |].
  destruct (stdin_isatty w); unfold bind, emit, ret, lift; simpl;
    destruct (stdin_read w); reflexivity.
Qed.

Lemma stops_with_report :
  forall w log e,
    forallb is_stderr log = true ->
    stops_before_loop w (log, Raise e) e.
Proof.
  intros w log e Hlog.
  destruct (stderr_only _ Hlog) as [Hh [Hw [Hc [Hs [Hp Hd]]]]].
  unfold stops_before_loop. rewrite events_pair, outcome_pair.
  repeat (split; [assumption || reflexivity |]).
  intros k rq ans H. apply In_http_events in H. rewrite Hh in H. contradiction.
Qed.

Lemma stops_at_fetch :
  forall w log1 log2 rq e,
    forallb is_stderr log1 = true ->
    forallb is_stderr log2 = true ->
    rq_method rq = GET ->
    state_of_fetch (fetch_result w rq) = Raise e ->
    stops_before_loop w (log1 ++ Http 0 rq (http w 0 rq) :: log2, Raise e) e.
Proof.
  intros w log1 log2 rq e Hlog1 Hlog2 Hget Hfetch.
  destruct (stderr_only _ Hlog1) as [Hh [Hw [Hc [Hs [Hp Hd]]]]].
  destruct (stderr_only _ Hlog2) as [Hh' [Hw' [Hc' [Hs' [Hp' Hd']]]]].
  unfold stops_before_loop. rewrite events_pair, outcome_pair.
  rewrite writes_app, confirmed_commits_app, samples_app, pauses_app,
    dry_run_messages_app.
  destruct rq as [m u t d]. simpl in Hget. subst m.
  simpl. rewrite Hw, Hc, Hs, Hp, Hd, Hw', Hc', Hs', Hp', Hd'.
  repeat (split; [reflexivity |]).
  intros k rq ans H. apply In_http_events in H.
  rewrite http_events_app, Hh in H. simpl in H. rewrite Hh' in H.
  destruct H as [H | []]. inversion H; subst. auto.
Qed.

(** [main] either reaches the loop, or stops before it. *)
Lemma main_cases :
  forall a w,
    (exists tok owner repo_name g lines st0 pre,
        reaches_loop a w tok owner repo_name g lines st0 pre
        /\ main a w
           = (pre ++ events (commit_all a w g owner repo_name tok lines st0),
              outcome (commit_all a w g owner repo_name tok lines st0)))
    \/ (exists e, stops_before_loop w (main a w) e).
Proof.
  intros a w. unfold main.
  destruct (resolve_token a w) as [[| c tok'] |] eqn:Htok;
    try (right; exists (SystemExit 2); apply stops_with_report; reflexivity).
  destruct (contains SLASH (repo a)) eqn:Hslash; simpl negb; cbv iota;
    [| right; exists (SystemExit 2); apply stops_with_report; reflexivity].
  destruct (split_once SLASH (repo a)) as [owner rest] eqn:Hsplit.
  set (repo_name := match rest with Some r => r | None => [] end).
  destruct (build_delay_getter (delay a)) as [g | e] eqn:Hdelay.
  2: { right. unfold try_except, lift, bind, emit, raise. simpl.
       destruct (is_Exception e); simpl; eexists;
         apply stops_with_report; reflexivity. }
  unfold try_except, lift. cbn [bind app].
  pose proof (read_raw_stderr a w) as Hraw.
  destruct (read_raw a w) as [evr [raw | e]] eqn:Hread;
    rewrite events_pair in Hraw.
  2: { right. exists e. apply stops_with_report. exact Hraw. }
  cbn [bind].
  destruct (select_lines raw (skip_empty a) (start_index a))
    as [| line lines] eqn:Hlines.
  - right. exists (SystemExit 0). unfold bind, emit, raise.
    apply stops_with_report. rewrite forallb_app, Hraw. reflexivity.
  - destruct (fetchable a) eqn:Henc.
    2: { right. exists (SystemExit 1).
         rewrite (initial_state_unencodable a w owner repo_name (c :: tok')
                    Henc).
         unfold bind. apply stops_with_report.
         rewrite forallb_app, Hraw. reflexivity. }
    destruct (initial_state_run a w owner repo_name (c :: tok') Henc)
      as [log [Hinit Hlog]].
    set (rq := get_request owner repo_name (path a) (branch a) (c :: tok')) in *.
    rewrite Hinit.
    destruct (state_of_fetch (fetch_result w rq)) as [st0 | e] eqn:Hstate.
    + left. exists (c :: tok'), owner, repo_name, g, (line :: lines), st0.
      exists (evr ++ Http 0 rq (http w 0 rq) :: log ++ [Stderr (DelayMode g)]).
      split.
      * unfold reaches_loop. rewrite Hsplit, Hread. simpl fst. simpl snd.
        fold repo_name. fold rq. rewrite outcome_pair, events_pair.
        repeat (split; [reflexivity || discriminate || assumption |]).
        exists raw, (log ++ [Stderr (DelayMode g)]).
        rewrite Hlines.
        repeat (split; [reflexivity || discriminate || assumption |]).
        split; [| reflexivity].
        rewrite forallb_app, Hlog. reflexivity.
      * unfold bind, emit. simpl.
        destruct (commit_all a w g owner repo_name (c :: tok') (line :: lines) st0)
          as [evl res].
        unfold events, outcome. simpl.
        rewrite <- !app_assoc. simpl. rewrite <- !app_assoc. reflexivity.
    + right. exists e. unfold bind.
      apply stops_at_fetch; auto.
Qed.

Lemma dry_run_log_http :
  forall prefix total lines idx,
    http_events (dry_run_log prefix total idx lines) = [].
Proof.
  intros prefix total lines.
  induction lines as [| line rest IH]; intros idx; simpl; auto.
Qed.

(** The loop with its closing report and its handler, by the outcome of the
    loop. *)
Lemma commit_all_run :
  forall a w g owner repo_name tok lines st,
    let loop :=
      commit_loop a w g owner repo_name tok (List.length lines) 1 lines st in
    commit_all a w g owner repo_name tok lines st
    = match outcome loop with
      | Ok st' =>
          (events loop
             ++ [Stdout (if dry_run a then DryRunFinished
                         else Done (committed st'))],
           Ok st')
      | Raise KeyboardInterrupt =>
          (events loop ++ [Stderr Interrupted], Raise (SystemExit 130))
      | Raise e => (events loop, Raise e)
      end.
Proof.
  intros. subst loop. unfold commit_all.
  destruct (commit_loop a w g owner repo_name tok (List.length lines) 1 lines st)
    as [evs [st' | e]].
  - rewrite outcome_pair, events_pair. unfold try_except, bind, emit, ret.
    destruct (dry_run a); reflexivity.
  - rewrite outcome_pair, events_pair. unfold try_except, bind, emit, raise.
    destruct e; reflexivity.
Qed.

(** What the closing report and the handler add to the events of the loop
    changes none of the observations. *)
Lemma commit_all_observed :
  forall a w g owner repo_name tok lines st,
    let loop :=
      commit_loop a w g owner repo_name tok (List.length lines) 1 lines st in
    let r := commit_all a w g owner repo_name tok lines st in
    exists tail,
      events r = events loop ++ tail
      /\ http_events tail = [] /\ writes tail = []
      /\ confirmed_commits tail = 0%nat
      /\ samples tail = [] /\ pauses tail = [] /\ dry_run_messages tail = []
      /\ exit_status r = match outcome loop with
                         | Raise KeyboardInterrupt => 130%Z
                         | _ => exit_status loop
                         end.
Proof.
  intros. subst r. rewrite commit_all_run. fold loop.
  unfold exit_status.
  destruct (outcome loop) as [st' | e].
  - eexists. rewrite events_pair, outcome_pair. split; [reflexivity |].
    destruct (dry_run a); repeat split; reflexivity.
  - destruct e; rewrite events_pair, outcome_pair;
      try (exists []; rewrite app_nil_r; repeat split; reflexivity).
    eexists. split; [reflexivity |]. repeat split; reflexivity.
Qed.

Lemma reaches_loop_pre :
  forall a w tok owner repo_name g lines st0 pre,
    reaches_loop a w tok owner repo_name g lines st0 pre ->
    let rq := get_request owner repo_name (path a) (branch a) tok in
    http_events pre = [(0%nat, rq, http w 0 rq)]
    /\ writes pre = [] /\ confirmed_commits pre = 0%nat
    /\ samples pre = [] /\ pauses pre = [] /\ dry_run_messages pre = [].
Proof.
  intros a w tok owner repo_name g lines st0 pre H rq.
  destruct H as [_ [_ [_ [_ [_ [_ [_ [raw [log [_ [_ [_ [_ [Hlog Hpre]]]]]]]]]]]]]].
  fold rq in Hpre. subst pre.
  destruct (stderr_only _ (read_raw_stderr a w)) as [Hh [Hw [Hc [Hs [Hp Hd]]]]].
  destruct (stderr_only _ Hlog) as [Hh' [Hw' [Hc' [Hs' [Hp' Hd']]]]].
  rewrite http_events_app, writes_app, confirmed_commits_app, samples_app,
    pauses_app, dry_run_messages_app.
  simpl. rewrite Hh, Hw, Hc, Hs, Hp, Hd, Hh', Hw', Hc', Hs', Hp', Hd'.
  repeat split; reflexivity.
Qed.

(** ** A refused write *)

(** A write seen in a run of [main] was sent by the loop of a live run; the
    events of the run are those of the loop between what came before and the
    closing report, and the exit status is that of the loop, or 130 when the
    loop was interrupted. *)
Lemma write_in_loop :
  forall a w k rq ans,
    In (Http k rq ans) (events (main a w)) ->
    rq_method rq = PUT ->
    exists tok owner repo_name g lines st0 pre tail,
      let loop := commit_loop a w g owner repo_name tok (List.length lines) 1
                    lines st0 in
      dry_run a = false
      /\ In (k, rq, ans) (http_events (events loop))
      /\ events (main a w) = pre ++ events loop ++ tail
      /\ writes pre = [] /\ confirmed_commits pre = 0%nat
      /\ http_events tail = [] /\ writes tail = []
      /\ confirmed_commits tail = 0%nat
      /\ exit_status (main a w)
         = match outcome loop with
           | Raise KeyboardInterrupt => 130%Z
           | _ => exit_status loop
           end.
Proof.
  intros a w k rq ans Hin Hput.
  destruct (main_cases a w)
    as [[tok [owner [repo_name [g [lines [st0 [pre [Hreach Hmain]]]]]]]]
       | [e [_ [_ [_ [_ [_ [_ Hget]]]]]]]].
  2: { destruct (Hget _ _ _ Hin) as [Hm _]. congruence. }
  destruct (reaches_loop_pre _ _ _ _ _ _ _ _ _ Hreach)
    as [Hh [Hw [Hc _]]].
  destruct (commit_all_observed a w g owner repo_name tok lines st0)
    as [tail [Hev [Hht [Hwt [Hct [_ [_ [_ Hexit]]]]]]]].
  exists tok, owner, repo_name, g, lines, st0, pre, tail. cbv zeta.
  assert (Hevents : events (main a w)
                    = pre ++ events (commit_loop a w g owner repo_name tok
                                       (List.length lines) 1 lines st0) ++ tail)
    by (rewrite Hmain, events_pair, Hev; reflexivity).
  rewrite Hevents in Hin. apply In_http_events in Hin.
  rewrite !http_events_app, Hh, Hht, app_nil_r in Hin. simpl in Hin.
  destruct Hin as [Heq | Hin].
  { inversion Heq; subst. discriminate. }
  assert (Hdry : dry_run a = false).
  { destruct (dry_run a) eqn:Hdry; [| reflexivity].
    rewrite commit_loop_dry_run in Hin by exact Hdry.
    rewrite events_pair, dry_run_log_http in Hin. contradiction. }
  repeat (split; [assumption |]).
  rewrite Hmain. exact Hexit.
Qed.

(** C5. If the answer to the write of line [k] is a status other than 200
    and 201, the run ends with exit status 1; it sent [k] writes in all, of
    which [k - 1] were reported as commits, and nothing is sent after the
    refused write: no retry, no other write, nothing that undoes a commit. *)
Theorem refused_write_halts :
  forall (a : Args) (w : World) (k : nat) (rq : request) (code : Z) (resp : json),
    In (Http k rq (Returned code resp)) (events (main a w)) ->
    rq_method rq = PUT ->
    not_success code = true ->
    exit_status (main a w) = 1%Z
    /\ List.length (writes (events (main a w))) = k
    /\ confirmed_commits (events (main a w)) = (k - 1)%nat
    /\ exists before after,
         events (main a w) = before ++ Http k rq (Returned code resp) :: after
         /\ http_events after = [] /\ writes after = [].
Proof.
  intros a w k rq code resp Hin Hput Hbad.
  destruct (write_in_loop a w k rq _ Hin Hput)
    as [tok [owner [repo_name [g [lines [st0 [pre [tail H]]]]]]]].
  cbv zeta in H.
  destruct H as [Hdry [Hloop [Hev [Hw [Hc [Hht [Hwt [Hct Hexit]]]]]]]].
  destruct (commit_loop_refused a w g owner repo_name tok (List.length lines)
              lines 1 st0 k rq code resp Hdry Hloop Hbad)
    as [Hle [Hout [Hlen [Hcount [evs1 [evs2 [Hsplit [Hh2 Hw2]]]]]]]].
  split.
  { rewrite Hexit. unfold exit_status.
    destruct Hout as [-> | ->]; reflexivity. }
  rewrite Hev. split.
  { rewrite !writes_app, Hw, Hwt, app_nil_r. simpl. rewrite Hlen. lia. }
  split.
  { rewrite !confirmed_commits_app, Hc, Hct, Hcount. lia. }
  exists (pre ++ evs1), (evs2 ++ tail).
  rewrite Hsplit, http_events_app, writes_app, Hh2, Hw2, Hht, Hwt.
  rewrite <- !app_assoc. simpl. repeat split; reflexivity.
Qed.

(** ** The loop when every write is confirmed *)

Lemma confirms_read_answer :
  forall code resp,
    confirms (Returned code resp) = true ->
    not_success code = false
    /\ forall sha, exists sha' csha url,
         read_answer resp sha = Ok (sha', csha, url).
Proof.
  intros code resp H. unfold confirms in H.
  apply andb_true_iff in H. destruct H as [Hcode Hread].
  split; [destruct (not_success code); [discriminate | reflexivity] |].
  intros sha. unfold read_answer in *.
  destruct resp as [| b | z | f | s | items | bindings]; simpl in *;
    try discriminate.
  destruct (or_empty_dict
              match dict_lookup bindings (lit "content") with
              | Some x => x
              | None => JNull
              end) as [| b | z | f | s | items | content];
    simpl in *; try discriminate.
  destruct (or_empty_dict
              match dict_lookup bindings (lit "commit") with
              | Some x => x
              | None => JNull
              end) as [| b | z | f | s | items | commit];
    simpl in *; try discriminate.
  eexists. eexists. eexists. reflexivity.
Qed.

Lemma pause_returns :
  forall w g idx total,
    (forall k v, sleep w k v = Ok tt) ->
    outcome (pause w g idx total) = Ok tt.
Proof.
  intros w g idx total Hsleep. unfold pause. cbv zeta.
  destruct (Nat.ltb idx total); [| reflexivity].
  unfold bind, emit, lift. rewrite Hsleep. reflexivity.
Qed.

Lemma commit_loop_confirmed :
  forall a w g owner repo_name tok total lines idx st,
    dry_run a = false ->
    encodable (path a) = true ->
    encodable (current_text st) = true ->
    forallb encodable lines = true ->
    (forall k rq,
        (idx <= k < idx + List.length lines)%nat ->
        rq_method rq = PUT ->
        confirms (http w k rq) = true) ->
    (forall k v, sleep w k v = Ok tt) ->
    let r := commit_loop a w g owner repo_name tok total idx lines st in
    (exists st',
        outcome r = Ok st'
        /\ current_text st' = buffer_after (current_text st) lines
        /\ committed st' = (committed st + List.length lines)%nat)
    /\ map p_content (writes (events r)) = buffers (current_text st) lines
    /\ map p_message (writes (events r))
       = messages (commit_prefix a) total idx lines
    /\ confirmed_commits (events r) = List.length lines.
Proof.
  intros a w g owner repo_name tok total lines.
  induction lines as [| line rest IH];
    intros idx st Hdry Hpath Htext Hlines Hok Hsleep r; subst r.
  - simpl. repeat split; auto. exists st. repeat split; auto.
  - simpl in Hlines. apply andb_true_iff in Hlines.
    destruct Hlines as [Hline Hrest].
    assert (Hnext : encodable (append_line (current_text st) line) = true)
      by (rewrite encodable_append_line, Htext, Hline; reflexivity).
    assert (Hsend : sendable a st line = true)
      by (unfold sendable; rewrite Hpath, Hnext; reflexivity).
    rewrite commit_loop_cons. run_pairs.
    rewrite commit_line_live by assumption.
    set (rq0 := line_request a owner repo_name tok total idx line st).
    assert (Hw0 : forall ans evs,
               writes (Http idx rq0 ans :: evs)
               = put_payload (branch a)
                   (commit_message (commit_prefix a) idx total line)
                   (append_line (current_text st) line)
                   (file_sha st) (committer_name a) (committer_email a)
                 :: writes evs)
      by reflexivity.
    assert (Hc0 : confirms (http w idx rq0) = true)
      by (apply Hok; [simpl; lia | reflexivity]).
    destruct (http w idx rq0) as [code resp | e]; [| discriminate].
    destruct (confirms_read_answer _ _ Hc0) as [Hcode Hread].
    rewrite Hcode.
    destruct (Hread (file_sha st)) as [sha' [csha [url Hans]]]. rewrite Hans.
    run_pairs. rewrite (pause_returns _ _ _ _ Hsleep).
    destruct (pause_run w g idx total) as [_ [Hwp Hcp]].
    set (st1 := {| current_text := append_line (current_text st) line;
                   file_sha := sha'; committed := S (committed st) |}).
    destruct (IH (S idx) st1 Hdry Hpath Hnext Hrest)
      as [[st' [Hout [Hbuffer Hcount]]] [Hbuf [Hmsg Hcc]]].
    { intros k rq Hk. apply Hok. simpl. lia. }
    { exact Hsleep. }
    split.
    { exists st'. split; [exact Hout |]. split.
      - rewrite Hbuffer. reflexivity.
      - rewrite Hcount. simpl. lia. }
    rewrite writes_app, confirmed_commits_app, Hw0. simpl.
    rewrite Hwp, Hcp. simpl.
    rewrite Hbuf, Hmsg, Hcc. repeat split; reflexivity.
Qed.

(** From an empty buffer, or one that ends with a line feed, the buffer after
    each line is the buffer before the loop and the lines so far, each with
    its line feed. *)
Lemma ensure_newline_terminated :
  forall t : str,
    (t = [] \/ endswith_LF t = true) -> ensure_newline t = t.
Proof.
  intros t [-> | H]; [reflexivity |].
  unfold ensure_newline. destruct t; [reflexivity |]. rewrite H. reflexivity.
Qed.

Lemma buffers_terminated :
  forall lines t,
    (t = [] \/ endswith_LF t = true) ->
    buffers t lines
    = map (fun k => t ++ terminated (firstn k lines)) (seq 1 (List.length lines)).
Proof.
  induction lines as [| line rest IH]; intros t Ht; [reflexivity |].
  simpl buffers. simpl List.length. simpl seq. simpl map.
  unfold append_line at 1 2. rewrite (ensure_newline_terminated t Ht).
  f_equal.
  - unfold terminated. simpl. rewrite app_nil_r. reflexivity.
  - rewrite IH.
    + rewrite <- (seq_shift (List.length rest) 1), map_map.
      apply map_ext. intros k.
      unfold terminated. simpl. rewrite <- !app_assoc. reflexivity.
    + right. rewrite app_assoc. apply endswith_LF_app_LF.
Qed.

(** ** [main], stage by stage *)

Lemma main_by_stage : forall a w, main a w = main_stages a w.
Proof.
  intros a w. unfold main, main_stages.
  destruct (resolve_token a w) as [[| c tok'] |]; try reflexivity.
  destruct (contains SLASH (repo a)); [| reflexivity]. simpl negb. cbv iota.
  destruct (split_once SLASH (repo a)) as [owner rest]. simpl fst. simpl snd.
  destruct (build_delay_getter (delay a)) as [g | e].
  2: { unfold try_except, lift, bind, emit, raise.
       destruct (is_Exception e); reflexivity. }
  unfold try_except, lift. cbn [bind app]. cbv zeta.
  destruct (read_raw a w) as [evr [raw | e]]; rewrite ?outcome_pair, ?events_pair;
    [| reflexivity].
  cbn [bind].
  destruct (select_lines raw (skip_empty a) (start_index a)) as [| line lines].
  - unfold bind, emit, raise. rewrite app_nil_r. reflexivity.
  - destruct (initial_state a w owner _ (c :: tok')) as [evi [st0 | e]];
      rewrite ?outcome_pair, ?events_pair.
    + unfold bind, emit. simpl.
      destruct (commit_all a w g owner _ (c :: tok') (line :: lines) st0)
        as [evl res].
      rewrite outcome_pair, events_pair. rewrite <- ?app_assoc. reflexivity.
    + unfold bind. rewrite ?app_nil_r. reflexivity.
Qed.

Lemma given_resolve_token :
  forall a w,
    given (resolve_token a w) = true ->
    exists c tok', resolve_token a w = Some (c :: tok').
Proof.
  intros a w H. destruct (resolve_token a w) as [[| c tok'] |];
    try discriminate. eauto.
Qed.

Lemma not_given_resolve_token :
  forall a w,
    given (resolve_token a w) = false ->
    resolve_token a w = None \/ resolve_token a w = Some [].
Proof.
  intros a w H. destruct (resolve_token a w) as [[| c tok'] |];
    try discriminate; auto.
Qed.

(** The run of [main] when nothing stops it before the loop. *)
Lemma main_reaching_loop :
  forall a w g raw st0,
    given (resolve_token a w) = true ->
    contains SLASH (repo a) = true ->
    fetchable a = true ->
    build_delay_getter (delay a) = Ok g ->
    outcome (read_raw a w) = Ok raw ->
    select_lines raw (skip_empty a) (start_index a) <> [] ->
    (forall rq, rq_method rq = GET ->
                state_of_fetch (fetch_result w rq) = Ok st0) ->
    exists tok owner repo_name pre,
      reaches_loop a w tok owner repo_name g
        (select_lines raw (skip_empty a) (start_index a)) st0 pre
      /\ main a w
         = (pre ++ events (commit_all a w g owner repo_name tok
                             (select_lines raw (skip_empty a) (start_index a))
                             st0),
            outcome (commit_all a w g owner repo_name tok
                       (select_lines raw (skip_empty a) (start_index a)) st0)).
Proof.
  intros a w g raw st0 Htok Hslash Henc Hdelay Hread Hlines Hfetch.
  destruct (given_resolve_token a w Htok) as [c [tok' Hres]].
  rewrite main_by_stage. unfold main_stages.
  rewrite Hres, Hslash, Hdelay. cbv zeta. rewrite Hread.
  set (owner := fst (split_once SLASH (repo a))).
  set (repo_name := match snd (split_once SLASH (repo a)) with
                    | Some r => r
                    | None => []
                    end).
  destruct (select_lines raw (skip_empty a) (start_index a))
    as [| line lines] eqn:Hsel; [contradiction |].
  destruct (initial_state_run a w owner repo_name (c :: tok') Henc)
    as [log [Hinit Hlog]].
  set (rq := get_request owner repo_name (path a) (branch a) (c :: tok')) in *.
  rewrite (Hfetch rq eq_refl) in Hinit.
  rewrite Hinit, outcome_pair, events_pair.
  exists (c :: tok'), owner, repo_name.
  exists (events (read_raw a w)
          ++ Http 0 rq (http w 0 rq) :: log ++ [Stderr (DelayMode g)]).
  split.
  - unfold reaches_loop. fold owner. fold repo_name. fold rq.
    repeat (split; [reflexivity || discriminate || assumption |]).
    exists raw, (log ++ [Stderr (DelayMode g)]).
    rewrite Hsel.
    repeat (split; [reflexivity || discriminate || assumption |]).
    split; [apply Hfetch; reflexivity |]. split; [| reflexivity].
    rewrite forallb_app, Hlog. reflexivity.
  - f_equal. rewrite <- !app_assoc. simpl. rewrite <- !app_assoc. reflexivity.
Qed.

(** The run of [main] when there is no line to commit. *)
Lemma main_nothing_to_commit :
  forall a w g raw,
    given (resolve_token a w) = true ->
    contains SLASH (repo a) = true ->
    build_delay_getter (delay a) = Ok g ->
    outcome (read_raw a w) = Ok raw ->
    select_lines raw (skip_empty a) (start_index a) = [] ->
    main a w = (events (read_raw a w) ++ [Stderr NoLines], Raise (SystemExit 0)).
Proof.
  intros a w g raw Htok Hslash Hdelay Hread Hlines.
  destruct (given_resolve_token a w Htok) as [c [tok' Hres]].
  rewrite main_by_stage. unfold main_stages.
  rewrite Hres, Hslash, Hdelay. cbv zeta. rewrite Hread, Hlines. reflexivity.
Qed.

Lemma absent_state :
  forall w rq resp,
    http w 0 rq = Returned 404 resp ->
    state_of_fetch (fetch_result w rq)
    = Ok {| current_text := []; file_sha := JNull; committed := 0 |}.
Proof.
  intros w rq resp H. unfold fetch_result. rewrite H. reflexivity.
Qed.

Lemma dry_run_log_messages :
  forall prefix total lines idx,
    dry_run_messages (dry_run_log prefix total idx lines)
    = messages prefix total idx lines.
Proof.
  intros prefix total lines.
  induction lines as [| line rest IH]; intros idx; simpl;
    [reflexivity | rewrite IH; reflexivity].
Qed.

(** ** One write per line *)

(** C1, as the script has it. Take a run with a token, a repository of the
    form owner/name, a valid delay, and a path, a branch and an input that
    UTF-8 can encode; the input has [N] lines, there is no [--skip-empty], the
    start index is 0, and the fetch is answered "not found". If the run is
    live and every write is confirmed and every pause returns, it sends
    exactly [N] writes, in the order of the lines, and the content of the
    [k]-th is the first [k] lines, each followed by a line feed; [N] commits
    are reported. If it is a dry run, it sends no write and logs [N] messages,
    one per line in order. *)
Theorem one_write_per_line :
  forall (a : Args) (w : World) (g : delay_getter) (raw : str),
    given (resolve_token a w) = true ->
    contains SLASH (repo a) = true ->
    fetchable a = true ->
    build_delay_getter (delay a) = Ok g ->
    outcome (read_raw a w) = Ok raw ->
    encodable raw = true ->
    skip_empty a = false ->
    start_index a = 0%Z ->
    (forall rq, rq_method rq = GET -> exists resp, http w 0 rq = Returned 404 resp) ->
    let lines := splitlines raw in
    let N := List.length lines in
    (dry_run a = false ->
     (forall k rq, (1 <= k <= N)%nat -> rq_method rq = PUT ->
                   confirms (http w k rq) = true) ->
     (forall k v, sleep w k v = Ok tt) ->
     List.length (writes (events (main a w))) = N
     /\ map p_content (writes (events (main a w)))
        = map (fun k => terminated (firstn k lines)) (seq 1 N)
     /\ map p_message (writes (events (main a w)))
        = messages (commit_prefix a) N 1 lines
     /\ confirmed_commits (events (main a w)) = N)
    /\ (dry_run a = true ->
        writes (events (main a w)) = []
        /\ List.length (dry_run_messages (events (main a w))) = N
        /\ dry_run_messages (events (main a w))
           = messages (commit_prefix a) N 1 lines).
Proof.
  intros a w g raw Htok Hslash Henc Hdelay Hread Hraw Hskip Hstart Habsent
    lines N.
  assert (Hsel : select_lines raw (skip_empty a) (start_index a) = lines)
    by (unfold select_lines, split_and_filter; rewrite Hskip, Hstart;
        reflexivity).
  assert (Hencl : forallb encodable lines = true)
    by (apply splitlines_encodable; exact Hraw).
  assert (Hpath : encodable (path a) = true)
    by (unfold fetchable in Henc; apply andb_true_iff in Henc; apply Henc).
  clearbody lines. subst N.
  destruct lines as [| line rest] eqn:Hlines.
  - (* no line: nothing is sent *)
    rewrite (main_nothing_to_commit a w g raw Htok Hslash Hdelay Hread Hsel).
    rewrite events_pair.
    destruct (stderr_only _ (read_raw_stderr a w)) as [_ [Hw [Hc [_ [_ Hd]]]]].
    rewrite writes_app, confirmed_commits_app, dry_run_messages_app, Hw, Hc, Hd.
    simpl. repeat split; reflexivity.
  - rewrite <- Hlines in *.
    set (N := List.length lines).
    set (st0 := {| current_text := []; file_sha := JNull; committed := 0 |}).
    destruct (main_reaching_loop a w g raw st0 Htok Hslash Henc Hdelay Hread)
      as [tok [owner [repo_name [pre [Hreach Hmain]]]]].
    { rewrite Hsel, Hlines. discriminate. }
    { intros rq Hget. destruct (Habsent rq Hget) as [resp Hresp].
      exact (absent_state w rq resp Hresp). }
    rewrite Hsel in *.
    destruct (reaches_loop_pre _ _ _ _ _ _ _ _ _ Hreach)
      as [_ [Hwp [Hcp [_ [_ Hdp]]]]].
    destruct (commit_all_observed a w g owner repo_name tok lines st0)
      as [tail [Hev [_ [Hwt [Hct [_ [_ [Hdt _]]]]]]]].
    rewrite Hmain, events_pair, Hev.
    rewrite !writes_app, !confirmed_commits_app, !dry_run_messages_app.
    rewrite Hwp, Hcp, Hdp, Hwt, Hct, Hdt, !app_nil_r. simpl app.
    split.
    + intros Hdry Hok Hsleep.
      destruct (commit_loop_confirmed a w g owner repo_name tok N lines 1 st0
                  Hdry Hpath eq_refl Hencl)
        as [_ [Hbuf [Hmsg Hcc]]].
      { intros k rq Hk. apply Hok. unfold N. lia. }
      { exact Hsleep. }
      fold N. rewrite Hmsg, Hcc.
      simpl current_text in Hbuf.
      rewrite (buffers_terminated lines []) in Hbuf by (left; reflexivity).
      fold N in Hbuf. simpl app in Hbuf. rewrite Hbuf.
      repeat split; try reflexivity; try (unfold N; lia).
      rewrite <- (length_map p_content), Hbuf.
      rewrite length_map, length_seq. reflexivity.
    + intros Hdry. fold N.
      rewrite (commit_loop_dry_run a w g owner repo_name tok N lines 1 st0 Hdry).
      rewrite events_pair.
      destruct (dry_run_log_observed (commit_prefix a) N lines 1)
        as [Hw [_ [_ [_ Hlen]]]].
      rewrite Hw. split; [reflexivity |]. split; [exact Hlen |].
      apply dry_run_log_messages.
Qed.

(** ** Dry runs *)

(** C8. In a dry run no write is sent, no commit is reported, no delay is
    asked of the getter and no pause is made, whatever the input and the
    world. The only request is the fetch. From any state the loop runs to its
    end, logs one message per line and the closing notice and nothing else, and
    leaves the version token as it found it. *)
Theorem dry_run_sends_nothing :
  forall (a : Args) (w : World),
    dry_run a = true ->
    writes (events (main a w)) = []
    /\ confirmed_commits (events (main a w)) = 0%nat
    /\ samples (events (main a w)) = []
    /\ pauses (events (main a w)) = []
    /\ (forall k rq ans,
           In (Http k rq ans) (events (main a w)) -> rq_method rq = GET)
    /\ (forall g owner repo_name tok lines st,
           exists st',
             commit_all a w g owner repo_name tok lines st
             = (dry_run_log (commit_prefix a) (List.length lines) 1 lines
                  ++ [Stdout DryRunFinished],
                Ok st')
             /\ file_sha st' = file_sha st
             /\ current_text st' = buffer_after (current_text st) lines).
Proof.
  intros a w Hdry.
  assert (Hall : forall g owner repo_name tok lines st,
             exists st',
               commit_all a w g owner repo_name tok lines st
               = (dry_run_log (commit_prefix a) (List.length lines) 1 lines
                    ++ [Stdout DryRunFinished],
                  Ok st')
               /\ file_sha st' = file_sha st
               /\ current_text st' = buffer_after (current_text st) lines).
  { intros. rewrite commit_all_run.
    rewrite commit_loop_dry_run by exact Hdry.
    rewrite outcome_pair, events_pair, Hdry.
    eexists. split; [reflexivity |]. split; reflexivity. }
  destruct (main_cases a w)
    as [[tok [owner [repo_name [g [lines [st0 [pre [Hreach Hmain]]]]]]]]
       | [e [_ [Hw [Hc [Hs [Hp [_ Hget]]]]]]]].
  - destruct (reaches_loop_pre _ _ _ _ _ _ _ _ _ Hreach)
      as [Hh [Hw [Hc [Hs [Hp _]]]]].
    destruct (Hall g owner repo_name tok lines st0) as [st' [Hrun _]].
    rewrite Hmain, Hrun, events_pair.
    destruct (dry_run_log_observed (commit_prefix a) (List.length lines) lines 1)
      as [Hw' [Hs' [Hp' [Hc' _]]]].
    rewrite !events_pair.
    rewrite !writes_app, !confirmed_commits_app, !samples_app, !pauses_app.
    rewrite Hw, Hc, Hs, Hp, Hw', Hc', Hs', Hp'. simpl.
    repeat (split; [reflexivity |]). split; [| exact Hall].
    intros k rq ans Hin. apply In_http_events in Hin.
    rewrite !http_events_app, Hh, dry_run_log_http in Hin. simpl in Hin.
    destruct Hin as [Heq | []]. inversion Heq; subst. reflexivity.
  - repeat (split; [assumption |]). split; [| exact Hall].
    intros k rq ans Hin. destruct (Hget k rq ans Hin) as [Hm _]. exact Hm.
Qed.

(** ** The version token of the first write *)

Lemma commit_loop_first_write :
  forall a w g owner repo_name tok total idx lines st p rest,
    writes (events (commit_loop a w g owner repo_name tok total idx lines st))
    = p :: rest ->
    p_sha p = if truthy (file_sha st) then Some (file_sha st) else None.
Proof.
  intros a w g owner repo_name tok total idx lines st p rest H.
  destruct (dry_run a) eqn:Hdry.
  - rewrite commit_loop_dry_run, events_pair in H by exact Hdry.
    destruct (dry_run_log_observed (commit_prefix a) total lines idx) as [Hw _].
    rewrite Hw in H. discriminate.
  - destruct lines as [| line more]; [discriminate |].
    rewrite commit_loop_cons, events_pair, writes_app in H.
    destruct (sendable a st line) eqn:Henc.
    2: { rewrite commit_line_unencodable in H by assumption.
         discriminate. }
    rewrite commit_line_live in H by assumption.
    set (rq0 := line_request a owner repo_name tok total idx line st) in *.
    destruct (http w idx rq0) as [code resp | e];
      [destruct (not_success code);
       [| destruct (read_answer resp (file_sha st)) as [[[s1 s2] s3] | e]] |];
      rewrite events_pair in H; simpl in H; inversion H; reflexivity.
Qed.

(** C6, as the script has it. When the run sends a write, its fetch was
    answered, and the first write goes by that answer: without version token
    when the file was reported absent; when the file was found, with the token
    of the fetch if that token is true in Python's sense (a string that is not
    empty), and without token otherwise. *)
Theorem first_write_token :
  forall (a : Args) (w : World) (p : payload) (rest : list payload),
    writes (events (main a w)) = p :: rest ->
    exists rq,
      rq_method rq = GET
      /\ In (Http 0 rq (http w 0 rq)) (events (main a w))
      /\ ((exists sha, fetch_result w rq = Ok (None, sha) /\ p_sha p = None)
          \/ (exists content sha,
                 fetch_result w rq = Ok (Some content, sha)
                 /\ p_sha p = if truthy sha then Some sha else None)).
Proof.
  intros a w p rest Hwrites.
  destruct (main_cases a w)
    as [[tok [owner [repo_name [g [lines [st0 [pre [Hreach Hmain]]]]]]]]
       | [e [_ [Hw _]]]].
  2: { rewrite Hw in Hwrites. discriminate. }
  destruct (reaches_loop_pre _ _ _ _ _ _ _ _ _ Hreach) as [Hh [Hw _]].
  destruct (commit_all_observed a w g owner repo_name tok lines st0)
    as [tail [Hev [_ [Hwt _]]]].
  set (rq := get_request owner repo_name (path a) (branch a) tok) in *.
  exists rq. split; [reflexivity |]. split.
  { rewrite Hmain, events_pair. apply in_or_app. left.
    apply In_http_events. rewrite Hh. left. reflexivity. }
  rewrite Hmain, events_pair, Hev, !writes_app, Hw, Hwt, app_nil_r in Hwrites.
  simpl in Hwrites.
  apply commit_loop_first_write in Hwrites.
  destruct Hreach as [_ [_ [_ [_ [_ [_ [_ [raw [log [_ [_ [_ [Hstate _]]]]]]]]]]]]].
  fold rq in Hstate. unfold state_of_fetch in Hstate.
  destruct (fetch_result w rq) as [[[content |] sha] | e]; [| | discriminate].
  - right. exists content, sha. split; [reflexivity |].
    inversion Hstate; subst st0. exact Hwrites.
  - left. exists sha. split; [reflexivity |].
    inversion Hstate; subst st0. exact Hwrites.
Qed.

(** ** The running buffer, along a run *)

(** What one line sends and leaves: a write, if any, holds the buffer after
    the line and the message of the line, and the line returns with this
    buffer. *)
Lemma commit_line_written :
  forall a w g owner repo_name tok total idx line st p,
    In p (writes (events (commit_line a w g owner repo_name tok total idx line
                            st))) ->
    p_content p = append_line (current_text st) line
    /\ p_message p = commit_message (commit_prefix a) idx total line.
Proof.
  intros a w g owner repo_name tok total idx line st p Hin.
  destruct (dry_run a) eqn:Hdry.
  { rewrite commit_line_dry_run in Hin by exact Hdry. contradiction. }
  destruct (sendable a st line) eqn:Henc.
  2: { rewrite commit_line_unencodable in Hin by assumption. contradiction. }
  rewrite commit_line_live in Hin by assumption.
  set (rq0 := line_request a owner repo_name tok total idx line st) in *.
  assert (Hp : forall ans evs,
             writes evs = [] ->
             In p (writes (Http idx rq0 ans :: evs)) ->
             p_content p = append_line (current_text st) line
             /\ p_message p = commit_message (commit_prefix a) idx total line).
  { intros ans evs Hnil H. simpl in H. rewrite Hnil in H.
    destruct H as [<- | []]. split; reflexivity. }
  destruct (http w idx rq0) as [code resp | e];
    [destruct (not_success code);
     [| destruct (read_answer resp (file_sha st)) as [[[s1 s2] s3] | e]] |];
    rewrite events_pair in Hin.
  - destruct (report_commit_error_run code resp) as [_ [Hw _]].
    exact (Hp _ _ Hw Hin).
  - destruct (pause_run w g idx total) as [_ [Hw _]].
    apply (Hp (Returned code resp)
             (Stdout (Committed (S (committed st)) total s2 s3)
                :: events (pause w g idx total))); [exact Hw | exact Hin].
  - exact (Hp _ [] eq_refl Hin).
  - exact (Hp _ [] eq_refl Hin).
Qed.

Lemma commit_line_returned :
  forall a w g owner repo_name tok total idx line st st',
    outcome (commit_line a w g owner repo_name tok total idx line st) = Ok st' ->
    current_text st' = append_line (current_text st) line.
Proof.
  intros a w g owner repo_name tok total idx line st st' Hout.
  destruct (dry_run a) eqn:Hdry.
  { rewrite commit_line_dry_run, outcome_pair in Hout by exact Hdry.
    inversion Hout. reflexivity. }
  destruct (sendable a st line) eqn:Henc.
  2: { rewrite commit_line_unencodable in Hout by assumption. discriminate. }
  rewrite commit_line_live in Hout by assumption.
  destruct (http w idx _) as [code resp | e];
    [destruct (not_success code);
     [| destruct (read_answer resp (file_sha st)) as [[[s1 s2] s3] | e]] |];
    rewrite outcome_pair in Hout; try discriminate.
  - destruct (report_commit_error_run code resp)
      as [_ [_ [_ [_ [_ [Ho | Ho]]]]]]; rewrite Ho in Hout; discriminate.
  - destruct (outcome (pause w g idx total)) as [[] | e];
      [inversion Hout; reflexivity | discriminate].
Qed.

Lemma commit_loop_writes_end :
  forall a w g owner repo_name tok total lines idx st p,
    In p (writes (events (commit_loop a w g owner repo_name tok total idx lines st))) ->
    endswith_LF (p_content p) = true.
Proof.
  intros a w g owner repo_name tok total lines.
  induction lines as [| line rest IH]; intros idx st p Hin;
    [contradiction |].
  rewrite commit_loop_cons, events_pair, writes_app in Hin.
  apply in_app_or in Hin. destruct Hin as [Hin | Hin].
  - destruct (commit_line_written _ _ _ _ _ _ _ _ _ _ _ Hin) as [-> _].
    apply append_line_ends.
  - destruct (outcome (commit_line a w g owner repo_name tok total idx line st))
      as [st' | e]; [| contradiction].
    exact (IH _ _ _ Hin).
Qed.

(** C7, as the script has it. At every iteration, from any buffer, the
    buffer just before the line is appended is the buffer as it was when that
    is empty or ends with a line feed, however many line feeds it ends with,
    and the buffer with one line feed added otherwise: a line feed is added
    when there is none, and none is ever removed. So this buffer is empty or
    ends with a line feed, and is empty only if the buffer was. The line and a
    line feed are appended to it: the result ends with a line feed, it is what
    the iteration sends, if it sends a write, and the buffer it leaves when it
    returns. Every content the run sends ends with a line feed. *)
Theorem buffer_ends_with_line_feed :
  forall (a : Args) (w : World),
    (forall g owner repo_name tok total idx line st,
        let before := ensure_newline (current_text st) in
        let r := commit_line a w g owner repo_name tok total idx line st in
        (endswith_LF (current_text st) = true -> before = current_text st)
        /\ (current_text st <> [] -> endswith_LF (current_text st) = false ->
            before = current_text st ++ [LF])
        /\ (before = [] \/ endswith_LF before = true)
        /\ (before = [] <-> current_text st = [])
        /\ endswith_LF (before ++ line ++ [LF]) = true
        /\ (forall p, In p (writes (events r)) ->
                      p_content p = before ++ line ++ [LF])
        /\ (forall st', outcome r = Ok st' ->
                        current_text st' = before ++ line ++ [LF]))
    /\ forall p,
         In p (writes (events (main a w))) -> endswith_LF (p_content p) = true.
Proof.
  intros a w. split.
  - intros g owner repo_name tok total idx line st before r. subst before r.
    split.
    { intros H. apply ensure_newline_terminated. right. exact H. }
    split.
    { intros Hne Hend. unfold ensure_newline.
      destruct (current_text st) as [| c t]; [contradiction |].
      rewrite Hend. reflexivity. }
    split; [apply ensure_newline_ends |]. split.
    { unfold ensure_newline. destruct (current_text st) as [| c t];
        [tauto |].
      destruct (endswith_LF (c :: t)); split; intros H; discriminate. }
    split; [apply append_line_ends |]. split.
    + intros p Hin.
      exact (proj1 (commit_line_written _ _ _ _ _ _ _ _ _ _ _ Hin)).
    + intros st' Hout. exact (commit_line_returned _ _ _ _ _ _ _ _ _ _ _ Hout).
  - intros p Hin.
    destruct (main_cases a w)
      as [[tok [owner [repo_name [g [lines [st0 [pre [Hreach Hmain]]]]]]]]
         | [e [_ [Hw _]]]].
    2: { rewrite Hw in Hin. contradiction. }
    destruct (reaches_loop_pre _ _ _ _ _ _ _ _ _ Hreach) as [_ [Hw _]].
    destruct (commit_all_observed a w g owner repo_name tok lines st0)
      as [tail [Hev [_ [Hwt _]]]].
    rewrite Hmain, events_pair, Hev, !writes_app, Hw, Hwt, app_nil_r in Hin.
    simpl in Hin. exact (commit_loop_writes_end _ _ _ _ _ _ _ _ _ _ _ Hin).
Qed.

(** The buffer keeps the line feeds it has: a content fetched with two line
    feeds at its end goes into the append with both, and they stay in what is
    sent. *)
Lemma buffer_keeps_repeated_line_feeds :
  ensure_newline (lit "x" ++ [LF; LF]) <> []
  /\ ~ ends_with_one_LF (ensure_newline (lit "x" ++ [LF; LF]))
  /\ map p_content
       (writes (events (main example_args
                          (world_of (found (JStr (lit "x" ++ [LF; LF]))
                                       (JStr (lit "abc")))
                                    (fun _ => created (lit "def"))))))
     = [lit "x" ++ [LF; LF] ++ lit "a" ++ [LF];
        lit "x" ++ [LF; LF] ++ lit "a" ++ [LF] ++ lit "b" ++ [LF]].
Proof.
  split; [discriminate |]. split; [| reflexivity].
  intros [p [Hp Hend]]. simpl in Hp.
  change ([120; LF] ++ [LF] = p ++ [LF]) in Hp.
  apply app_inj_tail in Hp. destruct Hp as [<- _]. discriminate.
Qed.

(** ** Exit status *)

Lemma stderr_raises_nothing :
  forall log ev,
    forallb is_stderr log = true -> In ev log -> raised_by ev = None.
Proof.
  induction log as [| e log IH]; intros ev Hlog Hin; [contradiction |].
  simpl in Hlog. apply andb_true_iff in Hlog. destruct Hlog as [He Hlog].
  destruct Hin as [<- | Hin]; [destruct e; try discriminate; reflexivity |].
  exact (IH ev Hlog Hin).
Qed.

Lemma report_commit_error_stderr :
  forall code resp,
    forallb is_stderr (events (report_commit_error code resp)) = true.
Proof.
  intros code resp. unfold report_commit_error.
  destruct resp as [| b | z | f | s | items | bindings]; try reflexivity.
  simpl. destruct (dict_lookup bindings (lit "errors")); reflexivity.
Qed.

Lemma pause_raised :
  forall w g idx total ev e,
    In ev (events (pause w g idx total)) ->
    raised_by ev = Some e ->
    outcome (pause w g idx total) = Raise e.
Proof.
  intros w g idx total ev e Hin Hraised. unfold pause in *. cbv zeta in *.
  destruct (Nat.ltb idx total); [| contradiction].
  unfold bind, emit, lift, events, outcome in *.
  match goal with
  | |- context [sleep w idx ?v] => destruct (sleep w idx v) as [[] | e'] eqn:Hs
  end; simpl in *;
    destruct Hin as [<- | [<- | [<- | []]]]; simpl in Hraised;
    try discriminate.
  inversion Hraised. reflexivity.
Qed.

(** The requests of the loop are writes, and a call of the world that raises
    ends the loop with what it raised. *)
Lemma commit_loop_calls :
  forall a w g owner repo_name tok total lines idx st,
    let r := commit_loop a w g owner repo_name tok total idx lines st in
    (forall k rq ans,
        In (k, rq, ans) (http_events (events r)) -> rq_method rq = PUT)
    /\ (forall ev e,
           In ev (events r) -> raised_by ev = Some e -> outcome r = Raise e).
Proof.
  intros a w g owner repo_name tok total lines.
  induction lines as [| line rest IH]; intros idx st r; subst r.
  - split; intros; contradiction.
  - destruct (dry_run a) eqn:Hdry.
    { rewrite commit_loop_dry_run by exact Hdry. rewrite events_pair.
      split.
      - intros k rq ans H. rewrite dry_run_log_http in H. contradiction.
      - intros ev e Hin Hraised. exfalso.
        clear - Hin Hraised. revert idx Hin.
        generalize (line :: rest). intros ls.
        induction ls as [| l ls IHls]; intros idx Hin; [contradiction |].
        destruct Hin as [<- | Hin]; [discriminate | exact (IHls _ Hin)]. }
    rewrite commit_loop_cons, events_pair, outcome_pair.
    destruct (sendable a st line) eqn:Henc.
    2: { rewrite commit_line_unencodable by assumption.
         split; intros; contradiction. }
    rewrite commit_line_live by assumption.
    set (rq0 := line_request a owner repo_name tok total idx line st).
    assert (Hput : rq_method rq0 = PUT) by reflexivity.
    destruct (http w idx rq0) as [code resp | e0].
    + destruct (not_success code).
      * pose proof (report_commit_error_stderr code resp) as Hlog.
        destruct (report_commit_error_run code resp)
          as [Hh [_ [_ [_ [_ Hout]]]]].
        rewrite events_pair, outcome_pair.
        assert (Hraise : exists e',
                   outcome (report_commit_error code resp) = Raise e')
          by (destruct Hout as [-> | ->]; eexists; reflexivity).
        destruct Hraise as [e' He']. rewrite He', app_nil_r. split.
        -- intros k rq ans H. simpl in H. rewrite Hh in H.
           destruct H as [H | []]. inversion H; subst. exact Hput.
        -- intros ev e [<- | Hin] Hraised; [discriminate |].
           rewrite (stderr_raises_nothing _ _ Hlog Hin) in Hraised.
           discriminate.
      * destruct (read_answer resp (file_sha st)) as [[[s1 s2] s3] | e1];
          rewrite events_pair, outcome_pair.
        -- destruct (pause_run w g idx total) as [Hh _].
           pose proof (pause_raised w g idx total) as Hpause.
           destruct (outcome (pause w g idx total)) as [[] | e2] eqn:Hp.
           ++ destruct (IH (S idx)
                          {| current_text := append_line (current_text st) line;
                             file_sha := s1; committed := S (committed st) |})
                as [IHput IHraise].
              split.
              ** intros k rq ans H. rewrite http_events_app in H. simpl in H.
                 rewrite Hh in H. simpl in H.
                 destruct H as [H | H];
                   [inversion H; subst; exact Hput | exact (IHput _ _ _ H)].
              ** intros ev e Hin Hraised. apply in_app_or in Hin.
                 destruct Hin as [[<- | [<- | Hin]] | Hin];
                   try discriminate.
                 --- pose proof (Hpause ev e Hin Hraised). discriminate.
                 --- exact (IHraise ev e Hin Hraised).
           ++ rewrite app_nil_r. split.
              ** intros k rq ans H. simpl in H. rewrite Hh in H.
                 destruct H as [H | []]. inversion H; subst. exact Hput.
              ** intros ev e [<- | [<- | Hin]] Hraised; try discriminate.
                 pose proof (Hpause ev e Hin Hraised) as Heq.
                 inversion Heq. reflexivity.
        -- rewrite app_nil_r. split.
           ++ intros k rq ans [H | []]. inversion H; subst. exact Hput.
           ++ intros ev e [<- | []] Hraised. discriminate.
    + rewrite events_pair, outcome_pair, app_nil_r. split.
      * intros k rq ans [H | []]. inversion H; subst. exact Hput.
      * intros ev e [<- | []] Hraised. inversion Hraised. reflexivity.
Qed.

Lemma parse_duration_raises :
  forall s e, parse_duration s = Raise e -> is_Exception e = true.
Proof.
  intros s e H. unfold parse_duration in H.
  destruct (_DURATION_RE s) as [[g1 g2] |]; [| inversion H; reflexivity].
  destruct (py_float g1); [| inversion H; reflexivity].
  unfold factor_of in H.
  repeat match type of H with
         | context [if ?c then _ else _] => destruct c
         end; inversion H; reflexivity.
Qed.

Lemma build_delay_getter_raises :
  forall spec e, build_delay_getter spec = Raise e -> is_Exception e = true.
Proof.
  intros spec e H. unfold build_delay_getter in H.
  destruct (contains HYPHEN spec).
  - destruct (split_once HYPHEN spec) as [l r].
    destruct (parse_duration l) as [x | e1] eqn:H1.
    + destruct (parse_duration match r with Some r' => r' | None => [] end)
        as [y | e2] eqn:H2.
      * destruct (fleb x y); discriminate.
      * inversion H; subst. exact (parse_duration_raises _ _ H2).
    + inversion H; subst. exact (parse_duration_raises _ _ H1).
  - destruct (parse_duration spec) as [x | e1] eqn:H1; [discriminate |].
    inversion H; subst. exact (parse_duration_raises _ _ H1).
Qed.

(** The run of [main] when the reading of the input raises, and when the
    path or the branch cannot be encoded. *)
Lemma main_input_raises :
  forall a w g e,
    given (resolve_token a w) = true ->
    contains SLASH (repo a) = true ->
    build_delay_getter (delay a) = Ok g ->
    outcome (read_raw a w) = Raise e ->
    main a w = (events (read_raw a w), Raise e).
Proof.
  intros a w g e Htok Hslash Hdelay Hread.
  destruct (given_resolve_token a w Htok) as [c [tok' Hres]].
  rewrite main_by_stage. unfold main_stages.
  rewrite Hres, Hslash, Hdelay. cbv zeta. rewrite Hread. reflexivity.
Qed.

Lemma main_unfetchable :
  forall a w g raw,
    given (resolve_token a w) = true ->
    contains SLASH (repo a) = true ->
    build_delay_getter (delay a) = Ok g ->
    outcome (read_raw a w) = Ok raw ->
    select_lines raw (skip_empty a) (start_index a) <> [] ->
    fetchable a = false ->
    main a w
    = (events (read_raw a w) ++ [Stderr (FetchFailed UnicodeEncodeError)],
       Raise (SystemExit 1)).
Proof.
  intros a w g raw Htok Hslash Hdelay Hread Hlines Henc.
  destruct (given_resolve_token a w Htok) as [c [tok' Hres]].
  rewrite main_by_stage. unfold main_stages.
  rewrite Hres, Hslash, Hdelay. cbv zeta. rewrite Hread.
  destruct (select_lines raw (skip_empty a) (start_index a));
    [contradiction |].
  rewrite initial_state_unencodable by exact Henc. reflexivity.
Qed.

(** C4, as the script has it. The exit status is 2 for a missing token, for
    a repository without a slash and for a delay that does not parse; 1 for a
    fetch that fails, be it that the path or the branch cannot be encoded and
    no request is sent, and for a write that is refused; 0 when there is no
    line to commit and when the run completes, as every dry run does that
    reaches the loop, and every live run whose texts can be encoded, whose
    writes are all confirmed and whose pauses all return. An interruption of a
    write or of a pause, the calls the loop makes, is reported and gives the
    exit status 130. An interruption of the fetch or of the reading of the
    input, which are outside the handler, gives no exit status: the signal
    ends the process, and the return code is -2. *)
Theorem exit_status_by_failure :
  forall (a : Args) (w : World),
    (given (resolve_token a w) = false -> exit_status (main a w) = 2%Z)
    /\ (given (resolve_token a w) = true ->
        contains SLASH (repo a) = false ->
        exit_status (main a w) = 2%Z)
    /\ (given (resolve_token a w) = true ->
        contains SLASH (repo a) = true ->
        forall e, build_delay_getter (delay a) = Raise e ->
        exit_status (main a w) = 2%Z)
    /\ (forall rq e,
           In (Http 0 rq (http w 0 rq)) (events (main a w)) ->
           rq_method rq = GET ->
           fetch_result w rq = Raise e -> is_Exception e = true ->
           exit_status (main a w) = 1%Z)
    /\ (given (resolve_token a w) = true ->
        contains SLASH (repo a) = true ->
        forall g raw,
          build_delay_getter (delay a) = Ok g ->
          outcome (read_raw a w) = Ok raw ->
          select_lines raw (skip_empty a) (start_index a) <> [] ->
          fetchable a = false ->
          exit_status (main a w) = 1%Z
          /\ http_events (events (main a w)) = [])
    /\ (forall k rq code resp,
           In (Http k rq (Returned code resp)) (events (main a w)) ->
           rq_method rq = PUT -> not_success code = true ->
           exit_status (main a w) = 1%Z)
    /\ (forall ev,
           In ev (events (main a w)) ->
           raised_by ev = Some KeyboardInterrupt ->
           exit_status (main a w) = (if in_loop ev then 130 else -2)%Z
           /\ (in_loop ev = true ->
               In (Stderr Interrupted) (events (main a w))))
    /\ (given (resolve_token a w) = true ->
        contains SLASH (repo a) = true ->
        forall g,
          build_delay_getter (delay a) = Ok g ->
          outcome (read_raw a w) = Raise KeyboardInterrupt ->
          exit_status (main a w) = (-2)%Z
          /\ http_events (events (main a w)) = [])
    /\ (given (resolve_token a w) = true ->
        contains SLASH (repo a) = true ->
        forall g raw,
          build_delay_getter (delay a) = Ok g ->
          outcome (read_raw a w) = Ok raw ->
          select_lines raw (skip_empty a) (start_index a) = [] ->
          exit_status (main a w) = 0%Z)
    /\ (given (resolve_token a w) = true ->
        contains SLASH (repo a) = true ->
        fetchable a = true ->
        forall g raw st0,
          build_delay_getter (delay a) = Ok g ->
          outcome (read_raw a w) = Ok raw ->
          (forall rq, rq_method rq = GET ->
                      state_of_fetch (fetch_result w rq) = Ok st0) ->
          (dry_run a = true
           \/ (encodable (current_text st0) = true
               /\ forallb encodable
                    (select_lines raw (skip_empty a) (start_index a)) = true
               /\ (forall k rq, rq_method rq = PUT ->
                                confirms (http w k rq) = true)
               /\ (forall k v, sleep w k v = Ok tt))) ->
          exit_status (main a w) = 0%Z).
Proof.
  intros a w.
  split.
  { intros Htok. rewrite main_by_stage. unfold main_stages.
    destruct (not_given_resolve_token a w Htok) as [-> | ->]; reflexivity. }
  split.
  { intros Htok Hslash. rewrite main_by_stage. unfold main_stages.
    destruct (given_resolve_token a w Htok) as [c [tok' ->]].
    rewrite Hslash. reflexivity. }
  split.
  { intros Htok Hslash e Hdelay. rewrite main_by_stage. unfold main_stages.
    destruct (given_resolve_token a w Htok) as [c [tok' ->]].
    rewrite Hslash, Hdelay, (build_delay_getter_raises _ _ Hdelay).
    reflexivity. }
  split.
  { intros rq e Hin Hget Hfetch Hexc.
    destruct (main_cases a w)
      as [[tok [owner [repo_name [g [lines [st0 [pre [Hreach Hmain]]]]]]]]
         | [e' [Hout [_ [_ [_ [_ [_ Hstop]]]]]]]].
    - exfalso.
      destruct (reaches_loop_pre _ _ _ _ _ _ _ _ _ Hreach) as [Hh _].
      destruct (commit_all_observed a w g owner repo_name tok lines st0)
        as [tail [Hev [Hht _]]].
      destruct (commit_loop_calls a w g owner repo_name tok (List.length lines)
                  lines 1 st0) as [Hput _].
      rewrite Hmain, events_pair, Hev in Hin. apply In_http_events in Hin.
      rewrite !http_events_app, Hh, Hht, app_nil_r in Hin. simpl in Hin.
      destruct Hin as [Heq | Hin].
      + inversion Heq; subst rq.
        destruct Hreach as [_ [_ [_ [_ [_ [_ [_ [raw [log [_ [_ [_ [Hst _]]]]]]]]]]]]].
        rewrite Hfetch in Hst. discriminate.
      + rewrite (Hput _ _ _ Hin) in Hget. discriminate.
    - destruct (Hstop _ _ _ Hin) as [_ [_ Hst]].
      rewrite Hfetch in Hst. simpl in Hst. rewrite Hexc in Hst.
      inversion Hst; subst e'. unfold exit_status. rewrite Hout. reflexivity. }
  split.
  { intros Htok Hslash g raw Hdelay Hread Hlines Henc.
    rewrite (main_unfetchable a w g raw Htok Hslash Hdelay Hread Hlines Henc).
    split; [reflexivity |].
    rewrite events_pair, http_events_app.
    destruct (stderr_only _ (read_raw_stderr a w)) as [-> _]. reflexivity. }
  split.
  { intros k rq code resp Hin Hput Hbad.
    destruct (write_in_loop a w k rq _ Hin Hput)
      as [tok [owner [repo_name [g [lines [st0 [pre [tail H]]]]]]]].
    cbv zeta in H. destruct H as [Hdry [Hloop [_ [_ [_ [_ [_ [_ Hexit]]]]]]]].
    destruct (commit_loop_refused a w g owner repo_name tok (List.length lines)
                lines 1 st0 k rq code resp Hdry Hloop Hbad)
      as [_ [Hout _]].
    rewrite Hexit. unfold exit_status.
    destruct Hout as [-> | ->]; reflexivity. }
  split.
  { intros ev Hin Hraised.
    destruct (main_cases a w)
      as [[tok [owner [repo_name [g [lines [st0 [pre [Hreach Hmain]]]]]]]]
         | [e' [Hout [_ [_ [_ [Hp [_ Hstop]]]]]]]].
    - destruct (commit_all_observed a w g owner repo_name tok lines st0)
        as [tail [Hev [Hht [_ [_ [_ [Hpt [_ Hexit]]]]]]]].
      destruct (commit_loop_calls a w g owner repo_name tok (List.length lines)
                  lines 1 st0) as [Hwrite Hraise].
      assert (Hstatus : exit_status (main a w)
                        = exit_status (commit_all a w g owner repo_name tok
                                         lines st0))
        by (rewrite Hmain; reflexivity).
      rewrite Hstatus, Hexit.
      pose proof (commit_all_run a w g owner repo_name tok lines st0) as Hrun.
      cbv zeta in Hrun.
      rewrite Hmain, events_pair. rewrite Hmain, events_pair, Hev in Hin.
      apply in_app_or in Hin. destruct Hin as [Hin | Hin].
      + exfalso.
        destruct Hreach
          as [_ [_ [_ [_ [_ [_ [_ [raw [log [_ [_ [_ [Hst [Hlog ->]]]]]]]]]]]]]].
        apply in_app_or in Hin. destruct Hin as [Hin | [<- | Hin]].
        * rewrite (stderr_raises_nothing _ _ (read_raw_stderr a w) Hin)
            in Hraised. discriminate.
        * unfold fetch_result in Hst. simpl in Hraised.
          destruct (http w 0 _); [discriminate |].
          inversion Hraised; subst. discriminate.
        * rewrite (stderr_raises_nothing _ _ Hlog Hin) in Hraised.
          discriminate.
      + apply in_app_or in Hin. destruct Hin as [Hin | Hin].
        * rewrite (Hraise ev _ Hin Hraised) in *.
          assert (Hloop : in_loop ev = true).
          { destruct ev; try discriminate; [| reflexivity].
            apply In_http_events in Hin. simpl.
            rewrite (Hwrite _ _ _ Hin). reflexivity. }
          rewrite Hloop. split; [reflexivity |]. intros _.
          rewrite Hrun. apply in_or_app. right.
          rewrite events_pair. apply in_or_app. right. left. reflexivity.
        * exfalso. clear - Hin Hraised Hht Hpt.
          destruct ev; try discriminate.
          -- apply In_http_events in Hin. rewrite Hht in Hin. contradiction.
          -- assert (Hs : In seconds (pauses tail)).
             { clear - Hin. induction tail as [| x t IH]; [contradiction |].
               destruct Hin as [-> | Hin]; [left; reflexivity |].
               destruct x; simpl; auto. }
             rewrite Hpt in Hs. contradiction.
    - destruct ev; try discriminate.
      + destruct (Hstop _ _ _ Hin) as [Hget [Hans Hst]].
        simpl in Hraised. unfold fetch_result in Hst. rewrite <- Hans in Hst.
        destruct answer; [discriminate |]. inversion Hraised; subst.
        simpl in Hst. inversion Hst; subst.
        unfold exit_status. rewrite Hout. simpl. rewrite Hget.
        split; [reflexivity | discriminate].
      + exfalso. assert (Hs : In seconds (pauses (events (main a w)))).
        { clear - Hin. induction (events (main a w)) as [| x t IH];
            [contradiction |].
          destruct Hin as [-> | Hin]; [left; reflexivity |].
          destruct x; simpl; auto. }
        rewrite Hp in Hs. contradiction. }
  split.
  { intros Htok Hslash g Hdelay Hread.
    rewrite (main_input_raises a w g _ Htok Hslash Hdelay Hread).
    split; [reflexivity |]. rewrite events_pair.
    destruct (stderr_only _ (read_raw_stderr a w)) as [-> _]. reflexivity. }
  split.
  { intros Htok Hslash g raw Hdelay Hread Hnone.
    rewrite (main_nothing_to_commit a w g raw Htok Hslash Hdelay Hread Hnone).
    reflexivity. }
  intros Htok Hslash Henc g raw st0 Hdelay Hread Hfetch Hgood.
  destruct (select_lines raw (skip_empty a) (start_index a)) eqn:Hsel.
  { rewrite (main_nothing_to_commit a w g raw Htok Hslash Hdelay Hread Hsel).
    reflexivity. }
  destruct (main_reaching_loop a w g raw st0 Htok Hslash Henc Hdelay Hread)
    as [tok [owner [repo_name [pre [_ Hmain]]]]].
  { rewrite Hsel. discriminate. }
  { exact Hfetch. }
  rewrite Hsel in Hmain.
  unfold exit_status. rewrite Hmain, outcome_pair, commit_all_run.
  destruct Hgood as [Hdry | [Htext [Hlines [Hok Hsleep]]]].
  - rewrite commit_loop_dry_run by exact Hdry. reflexivity.
  - destruct (dry_run a) eqn:Hdry.
    { rewrite commit_loop_dry_run by exact Hdry. reflexivity. }
    assert (Hpath : encodable (path a) = true)
      by (unfold fetchable in Henc; apply andb_true_iff in Henc; apply Henc).
    destruct (commit_loop_confirmed a w g owner repo_name tok
                (List.length (s :: l)) (s :: l) 1 st0 Hdry Hpath Htext Hlines)
      as [[st' [Hout _]] _].
    { intros k rq _. apply Hok. }
    { exact Hsleep. }
    rewrite Hout. reflexivity.
Qed.

(* ================================================================== *)
(** ** Classes of characters *)

Lemma decimal_in_range :
  forall zeros c d,
    decimal_in zeros c = Some d ->
    exists z i, In z zeros /\ In i [0; 1; 2; 3; 4; 5; 6; 7; 8; 9] /\ c = z + i.
Proof.
  induction zeros as [| z zs IH]; intros c d H; [discriminate |].
  simpl in H. destruct (in_range z (z + 9) c) eqn:Hr.
  - unfold in_range in Hr. apply andb_true_iff in Hr.
    destruct Hr as [Hlo Hhi]. apply N.leb_le in Hlo, Hhi.
    exists z, (c - z). split; [left; reflexivity |]. split; [| lia].
    assert (Hi : c - z <= 9) by lia.
    clear - Hi. simpl.
    destruct (c - z) as [| p]; [auto |].
    do 9 (destruct p as [p | p |]; try lia; auto 12).
  - destruct (IH c d H) as [z' [i [Hz [Hi Hc]]]].
    exists z', i. split; [right; exact Hz | auto].
Qed.

Lemma digits_apart :
  forall c, isdecimal c = true -> apart_from_digits c = true.
Proof.
  intros c H. unfold isdecimal, decimal_value in H.
  destruct (decimal_in decimal_zeros c) as [d |] eqn:Hd; [| discriminate].
  destruct (decimal_in_range _ _ _ Hd) as [z [i [Hz [Hi ->]]]].
  assert (Hall : forallb (fun z =>
                    forallb (fun i => apart_from_digits (z + i))
                      [0; 1; 2; 3; 4; 5; 6; 7; 8; 9]) decimal_zeros = true)
    by (vm_compute; reflexivity).
  rewrite forallb_forall in Hall. specialize (Hall z Hz).
  rewrite forallb_forall in Hall. exact (Hall i Hi).
Qed.

Lemma isdecimal_not_space : forall c, isdecimal c = true -> isspace c = false.
Proof.
  intros c H. apply digits_apart in H. unfold apart_from_digits in H.
  destruct (isspace c); [discriminate | reflexivity].
Qed.

Lemma isdecimal_not_dot : forall c, isdecimal c = true -> char_eqb c DOT = false.
Proof.
  intros c H. apply digits_apart in H. unfold apart_from_digits in H.
  destruct (isspace c), (char_eqb c DOT); try discriminate; reflexivity.
Qed.

Lemma isdecimal_not_hyphen :
  forall c, isdecimal c = true -> char_eqb c HYPHEN = false.
Proof.
  intros c H. apply digits_apart in H. unfold apart_from_digits in H.
  destruct (isspace c), (char_eqb c DOT), (char_eqb c HYPHEN);
    try discriminate; reflexivity.
Qed.

Lemma isdecimal_not_unit :
  forall c, isdecimal c = true -> is_unit_char c = false.
Proof.
  intros c H. apply digits_apart in H. unfold apart_from_digits in H.
  destruct (isspace c), (char_eqb c DOT), (char_eqb c HYPHEN), (is_unit_char c);
    try discriminate; reflexivity.
Qed.

(** White space is no point, no hyphen and no letter of a unit. *)
Lemma isspace_cases :
  forall c,
    isspace c = true ->
    In c [9; 10; 11; 12; 13; 28; 29; 30; 31; 32; 133; 160; 5760; 8192; 8193;
          8194; 8195; 8196; 8197; 8198; 8199; 8200; 8201; 8202; 8232; 8233;
          8239; 8287; 12288].
Proof.
  intros c H. unfold isspace, in_range in H.
  repeat (apply orb_true_iff in H; destruct H as [H | H]);
    try (apply andb_true_iff in H; destruct H as [H1 H2];
         apply N.leb_le in H1, H2);
    try apply N.eqb_eq in H; simpl.
  - assert (c = 9 \/ c = 10 \/ c = 11 \/ c = 12 \/ c = 13) by lia.
    intuition auto 40.
  - assert (c = 28 \/ c = 29 \/ c = 30 \/ c = 31 \/ c = 32) by lia.
    intuition auto 40.
  - subst. auto 40.
  - subst. auto 40.
  - subst. auto 40.
  - assert (c = 8192 \/ c = 8193 \/ c = 8194 \/ c = 8195 \/ c = 8196
            \/ c = 8197 \/ c = 8198 \/ c = 8199 \/ c = 8200 \/ c = 8201
            \/ c = 8202) by lia.
    intuition auto 40.
  - subst. auto 40.
  - subst. auto 40.
  - subst. auto 40.
  - subst. auto 40.
  - subst. auto 40.
Qed.

Lemma isspace_apart :
  forall c,
    isspace c = true ->
    char_eqb c DOT = false /\ char_eqb c HYPHEN = false
    /\ is_unit_char c = false /\ isdecimal c = false.
Proof.
  intros c H. apply isspace_cases in H.
  repeat (destruct H as [<- | H]; [vm_compute; auto |]). contradiction.
Qed.

(* ================================================================== *)
(** ** The language of [_DURATION_RE] *)

Section BacktrackingFacts.
Context {A : Type}.

Lemma re_star_sound :
  forall p s (k : str -> option A) r,
    re_star p s k = Some r ->
    exists pre rest,
      s = pre ++ rest /\ forallb p pre = true /\ k rest = Some r.
Proof.
  intros p s k r. induction s as [| c s IH]; intros H.
  - exists [], []. auto.
  - simpl in H. destruct (p c) eqn:Hc.
    + destruct (re_star p s k) as [r' |] eqn:Hs.
      * inversion H; subst r'.
        destruct (IH eq_refl) as [pre [rest [-> [Hpre Hk]]]].
        exists (c :: pre), rest. simpl. rewrite Hc, Hpre. auto.
      * exists [], (c :: s). auto.
    + exists [], (c :: s). auto.
Qed.

Lemma re_star_longest :
  forall p pre rest (k : str -> option A) r,
    forallb p pre = true -> stops p rest -> k rest = Some r ->
    re_star p (pre ++ rest) k = Some r.
Proof.
  intros p pre rest k r Hpre Hstop Hk.
  induction pre as [| c pre IH]; simpl in *.
  - destruct rest as [| c rest]; [exact Hk |].
    simpl in *. rewrite Hstop. exact Hk.
  - apply andb_true_iff in Hpre. destruct Hpre as [Hc Hpre].
    rewrite Hc, (IH Hpre). reflexivity.
Qed.

Lemma re_star_in_sound :
  forall p s g (k : str -> str -> option A) r,
    re_star_in p g s k = Some r ->
    exists pre rest,
      s = pre ++ rest /\ forallb p pre = true /\ k (g ++ pre) rest = Some r.
Proof.
  intros p s. induction s as [| c s IH]; intros g k r H.
  - exists [], []. rewrite ?app_nil_r. simpl. auto.
  - simpl in H. destruct (p c) eqn:Hc.
    + destruct (re_star_in p (g ++ [c]) s k) as [r' |] eqn:Hs.
      * inversion H; subst r'.
        destruct (IH _ _ _ Hs) as [pre [rest [-> [Hpre Hk]]]].
        exists (c :: pre), rest. simpl. rewrite Hc, Hpre.
        rewrite <- app_assoc in Hk. auto.
      * exists [], (c :: s). rewrite ?app_nil_r. simpl. auto.
    + exists [], (c :: s). rewrite ?app_nil_r. simpl. auto.
Qed.

Lemma re_star_in_longest :
  forall p pre rest g (k : str -> str -> option A) r,
    forallb p pre = true -> stops p rest -> k (g ++ pre) rest = Some r ->
    re_star_in p g (pre ++ rest) k = Some r.
Proof.
  intros p pre. induction pre as [| c pre IH]; intros rest g k r Hpre Hstop Hk;
    simpl in *.
  - rewrite app_nil_r in Hk. destruct rest as [| c rest]; [exact Hk |].
    simpl in *. rewrite Hstop. exact Hk.
  - apply andb_true_iff in Hpre. destruct Hpre as [Hc Hpre].
    rewrite Hc. rewrite (IH rest (g ++ [c]) k r Hpre Hstop).
    + reflexivity.
    + rewrite <- app_assoc. exact Hk.
Qed.

Lemma re_plus_in_sound :
  forall p s g (k : str -> str -> option A) r,
    re_plus_in p g s k = Some r ->
    exists pre rest,
      s = pre ++ rest /\ pre <> [] /\ forallb p pre = true
      /\ k (g ++ pre) rest = Some r.
Proof.
  intros p s g k r H. destruct s as [| c s]; [discriminate |].
  simpl in H. destruct (p c) eqn:Hc; [| discriminate].
  destruct (re_star_in_sound _ _ _ _ _ H) as [pre [rest [-> [Hpre Hk]]]].
  exists (c :: pre), rest. simpl. rewrite Hc, Hpre.
  rewrite <- app_assoc in Hk. repeat split; auto. discriminate.
Qed.

Lemma re_plus_in_longest :
  forall p pre rest g (k : str -> str -> option A) r,
    pre <> [] -> forallb p pre = true -> stops p rest ->
    k (g ++ pre) rest = Some r ->
    re_plus_in p g (pre ++ rest) k = Some r.
Proof.
  intros p pre rest g k r Hne Hpre Hstop Hk.
  destruct pre as [| c pre]; [contradiction |].
  simpl in *. apply andb_true_iff in Hpre. destruct Hpre as [Hc Hpre].
  rewrite Hc. apply re_star_in_longest; auto.
  rewrite <- app_assoc. exact Hk.
Qed.

Lemma re_literal_sound :
  forall eq pat s g (k : str -> str -> option A) r,
    re_literal eq pat g s k = Some r ->
    exists u rest,
      s = u ++ rest /\ Forall2 (fun x c => eq x c = true) pat u
      /\ k (g ++ u) rest = Some r.
Proof.
  intros eq pat. induction pat as [| x pat IH]; intros s g k r H.
  - exists [], s. rewrite ?app_nil_r. simpl. auto.
  - simpl in H. destruct s as [| c s]; [discriminate |].
    destruct (eq x c) eqn:Hx; [| discriminate].
    destruct (IH _ _ _ _ H) as [u [rest [-> [Hu Hk]]]].
    exists (c :: u), rest. rewrite <- app_assoc in Hk. auto.
Qed.

Lemma re_literal_matches :
  forall eq pat u rest g (k : str -> str -> option A),
    Forall2 (fun x c => eq x c = true) pat u ->
    re_literal eq pat g (u ++ rest) k = k (g ++ u) rest.
Proof.
  intros eq pat u rest g k H. revert g.
  induction H as [| x c pat u Hx Hrest IH]; intros g.
  - simpl. rewrite app_nil_r. reflexivity.
  - simpl. rewrite Hx, IH, <- app_assoc. reflexivity.
Qed.
End BacktrackingFacts.

Lemma re_fraction_sound :
  forall (A : Type) g s (k : str -> str -> option A) r,
    re_fraction g s k = Some r ->
    k g s = Some r
    \/ exists fp rest,
         s = DOT :: fp ++ rest /\ digits fp /\ k (g ++ DOT :: fp) rest = Some r.
Proof.
  intros A g s k r H. destruct s as [| c s]; [left; exact H |].
  simpl in H. destruct (char_eqb c DOT) eqn:Hc; [| left; exact H].
  apply N.eqb_eq in Hc. subst c.
  destruct (re_plus_in isdecimal (g ++ [DOT]) s k) as [r' |] eqn:Hp;
    [| left; exact H].
  inversion H; subst r'.
  destruct (re_plus_in_sound _ _ _ _ _ Hp) as [fp [rest [-> [Hne [Hfp Hk]]]]].
  right. exists fp, rest. rewrite <- app_assoc in Hk.
  repeat split; auto.
Qed.

Lemma re_alternatives_sound :
  forall (A : Type) eq pats s (k : option str -> str -> option A) r,
    re_alternatives eq pats s k = Some r ->
    k None s = Some r
    \/ exists name u rest,
         In name pats /\ spells eq name u /\ s = u ++ rest
         /\ k (Some u) rest = Some r.
Proof.
  intros A eq pats s k r. induction pats as [| pat pats IH]; intros H.
  - left. exact H.
  - simpl in H.
    destruct (re_literal eq pat [] s (fun g rest => k (Some g) rest))
      as [r' |] eqn:Hl.
    + inversion H; subst r'.
      destruct (re_literal_sound _ _ _ _ _ _ Hl) as [u [rest [-> [Hu Hk]]]].
      right. exists pat, u, rest. simpl in Hk. repeat split; auto.
      left; reflexivity.
    + destruct (IH H) as [Hk | [name [u [rest [Hin Hrest]]]]]; [left; exact Hk |].
      right. exists name, u, rest. split; [right; exact Hin | exact Hrest].
Qed.

Lemma re_end_spaces : forall s, re_end s = true -> spaces s.
Proof.
  intros [| c [| c' s]] H; try discriminate; [reflexivity |].
  simpl in H. apply N.eqb_eq in H. subst c. reflexivity.
Qed.

(** What the pattern matches is a duration text, and the groups are its
    number and its unit. *)
Lemma DURATION_RE_sound :
  forall s g1 g2,
    _DURATION_RE s = Some (g1, g2) -> duration_text ignorecase_eq s g1 g2.
Proof.
  intros s g1 g2 H. unfold _DURATION_RE in H.
  destruct (re_star_sound _ _ _ _ H) as [ws1 [s1 [-> [Hws1 H1]]]].
  destruct (re_plus_in_sound _ _ _ _ _ H1) as [ip [s2 [-> [Hne [Hip H2]]]]].
  simpl in H2.
  assert (Htail : forall g s3,
             re_star isspace s3
               (fun s4 =>
                  re_alternatives ignorecase_eq unit_names s4
                    (fun g2 s5 =>
                       re_star isspace s5
                         (fun s6 => if re_end s6 then Some (g, g2) else None)))
             = Some (g1, g2) ->
             g = g1
             /\ exists ws2 u ws3,
                  s3 = ws2 ++ u ++ ws3 /\ spaces ws2 /\ spaces ws3
                  /\ unit_text ignorecase_eq g2 u).
  { intros g s3 H3.
    destruct (re_star_sound _ _ _ _ H3) as [ws2 [s4 [-> [Hws2 H4]]]].
    assert (Hlast : forall o s5,
               re_star isspace s5
                 (fun s6 => if re_end s6 then Some (g, o) else None)
               = Some (g1, g2) ->
               g = g1 /\ o = g2 /\ spaces s5).
    { intros o s5 H5.
      destruct (re_star_sound _ _ _ _ H5) as [ws3 [s6 [-> [Hws3 H6]]]].
      destruct (re_end s6) eqn:Hend; [| discriminate].
      inversion H6; subst. repeat split; auto.
      unfold spaces. rewrite forallb_app, Hws3. exact (re_end_spaces _ Hend). }
    destruct (re_alternatives_sound _ _ _ _ _ _ H4)
      as [H5 | [name [u [s5 [Hin [Hu [-> H5]]]]]]].
    - destruct (Hlast _ _ H5) as [Hg [Ho Hsp]]. split; [exact Hg |].
      exists ws2, [], s4. subst g2. repeat split; auto. constructor.
    - destruct (Hlast _ _ H5) as [Hg [Ho Hsp]]. split; [exact Hg |].
      exists ws2, u, s5. subst g2. repeat split; auto.
      econstructor; eassumption. }
  destruct (re_fraction_sound _ _ _ _ _ H2)
    as [H3 | [fp [s3 [-> [Hfp H3]]]]].
  - destruct (Htail _ _ H3) as [<- [ws2 [u [ws3 [-> [Hws2 [Hws3 Hu]]]]]]].
    exists ws1, ws2, u, ws3. repeat split; auto.
    apply whole_number. split; assumption.
  - destruct (Htail _ _ H3) as [<- [ws2 [u [ws3 [-> [Hws2 [Hws3 Hu]]]]]]].
    exists ws1, ws2, u, ws3. split.
    + simpl. rewrite <- !app_assoc. reflexivity.
    + repeat split; auto. apply with_fraction; [split |]; assumption.
Qed.

Lemma ignorecase_cases :
  forall x c,
    ignorecase_eq x c = true ->
    c = x \/ c + 32 = x \/ (x = 115 /\ c = LONG_S).
Proof.
  intros x c H. unfold ignorecase_eq, char_eqb in H.
  apply orb_true_iff in H. destruct H as [H | H].
  - apply orb_true_iff in H. destruct H as [H | H]; apply N.eqb_eq in H; auto.
  - apply andb_true_iff in H. destruct H as [H1 H2].
    apply N.eqb_eq in H1, H2. auto.
Qed.

Lemma ascii_case_ignorecase :
  forall x c, ascii_case_eq x c = true -> ignorecase_eq x c = true.
Proof.
  intros x c H. unfold ignorecase_eq. unfold ascii_case_eq in H.
  rewrite H. reflexivity.
Qed.

Lemma unit_letter_chars :
  forall x c,
    In x unit_letters -> ignorecase_eq x c = true ->
    In c [109; 77; 115; 83; LONG_S; 104; 72].
Proof.
  intros x c Hx H. apply ignorecase_cases in H. simpl in Hx.
  destruct Hx as [<- | [<- | [<- | []]]];
    destruct H as [-> | [H | [H ->]]]; simpl; auto 10;
    try discriminate;
    try (assert (c = 77) by lia; subst; auto 10);
    try (assert (c = 83) by lia; subst; auto 10);
    try (assert (c = 72) by lia; subst; auto 10).
Qed.

Lemma unit_letter_apart :
  forall x c,
    In x unit_letters -> ignorecase_eq x c = true ->
    isspace c = false /\ isdecimal c = false /\ char_eqb c DOT = false
    /\ char_eqb c HYPHEN = false
    /\ forall y, In y unit_letters -> y <> x -> ignorecase_eq y c = false.
Proof.
  intros x c Hx H. pose proof (unit_letter_chars x c Hx H) as Hc.
  simpl in Hx, Hc.
  repeat (destruct Hc as [<- | Hc];
          [ repeat (split; [vm_compute; reflexivity |]);
            intros y Hy Hne; simpl in Hy;
            destruct Hx as [<- | [<- | [<- | []]]];
            try (vm_compute in H; discriminate);
            destruct Hy as [<- | [<- | [<- | []]]];
            try contradiction; vm_compute; reflexivity
          | ]).
  contradiction.
Qed.

Lemma unit_names_letters :
  forall name, In name unit_names -> Forall (fun x => In x unit_letters) name.
Proof.
  intros name H. simpl in H.
  destruct H as [<- | [<- | [<- | [<- | []]]]]; simpl;
    repeat (apply Forall_cons; [simpl; auto |]); apply Forall_nil.
Qed.

(** The head of what follows the number is white space or a letter of a
    unit. *)
Lemma after_number :
  forall ws2 g2 u ws3,
    spaces ws2 -> unit_text ignorecase_eq g2 u -> spaces ws3 ->
    stops isdecimal (ws2 ++ u ++ ws3)
    /\ stops (fun c => char_eqb c DOT) (ws2 ++ u ++ ws3).
Proof.
  intros ws2 g2 u ws3 Hws2 Hu Hws3.
  assert (Hsp : forall ws rest,
             spaces ws ->
             (stops isdecimal rest /\ stops (fun c => char_eqb c DOT) rest) ->
             stops isdecimal (ws ++ rest)
             /\ stops (fun c => char_eqb c DOT) (ws ++ rest)).
  { intros [| c ws] rest Hws Hrest; [exact Hrest |].
    unfold spaces in Hws. simpl in Hws. apply andb_true_iff in Hws.
    destruct Hws as [Hc _]. destruct (isspace_apart c Hc) as [Hd [_ [_ Hdec]]].
    simpl. auto. }
  apply Hsp; [exact Hws2 |].
  destruct Hu as [| name u Hname Hspell].
  - simpl. rewrite <- (app_nil_r ws3). apply Hsp; [exact Hws3 | simpl; auto].
  - pose proof (unit_names_letters name Hname) as Hletters.
    destruct Hspell as [| x c name' u' Hxc Hrest].
    + simpl. rewrite <- (app_nil_r ws3). apply Hsp; [exact Hws3 | simpl; auto].
    + inversion Hletters; subst.
      destruct (unit_letter_apart x c H1 Hxc) as [_ [Hdec [Hdot _]]].
      simpl. auto.
Qed.

Lemma re_last_spaces :
  forall (g : str) (o : option str) ws3,
    spaces ws3 ->
    re_star isspace ws3 (fun s6 => if re_end s6 then Some (g, o) else None)
    = Some (g, o).
Proof.
  intros g o ws3 Hws3. rewrite <- (app_nil_r ws3).
  apply re_star_longest; [exact Hws3 | exact I | reflexivity].
Qed.

Lemma re_tail_complete :
  forall g ws2 g2 u ws3,
    spaces ws2 -> unit_text ignorecase_eq g2 u -> spaces ws3 ->
    re_tail g (ws2 ++ u ++ ws3) = Some (g, g2).
Proof.
  intros g ws2 g2 u ws3 Hws2 Hu Hws3. unfold re_tail.
  destruct Hu as [| name u Hname Hspell].
  - simpl app. rewrite <- (app_nil_r (ws2 ++ ws3)).
    apply re_star_longest.
    + unfold spaces in *. rewrite forallb_app, Hws2, Hws3. reflexivity.
    + exact I.
    + reflexivity.
  - assert (Hs_m : forall c, ignorecase_eq 115 c = true ->
                             ignorecase_eq 109 c = false).
    { intros c Hc.
      destruct (unit_letter_apart 115 c) as [_ [_ [_ [_ H]]]];
        [simpl; auto | exact Hc |].
      apply H; [simpl; auto | discriminate]. }
    assert (Hm_s : forall c, ignorecase_eq 109 c = true ->
                             ignorecase_eq 115 c = false).
    { intros c Hc.
      destruct (unit_letter_apart 109 c) as [_ [_ [_ [_ H]]]];
        [simpl; auto | exact Hc |].
      apply H; [simpl; auto | discriminate]. }
    assert (Hh : forall c, ignorecase_eq 104 c = true ->
                           ignorecase_eq 109 c = false
                           /\ ignorecase_eq 115 c = false).
    { intros c Hc.
      destruct (unit_letter_apart 104 c) as [_ [_ [_ [_ H]]]];
        [simpl; auto | exact Hc |].
      split; apply H; simpl; auto; discriminate. }
    assert (Hsp_s : forall rest, spaces rest ->
               match rest with
               | [] => True
               | c :: _ => ignorecase_eq 115 c = false
               end).
    { intros [| c rest] Hrest; [exact I |].
      unfold spaces in Hrest. simpl in Hrest. apply andb_true_iff in Hrest.
      destruct Hrest as [Hc _].
      destruct (isspace_apart c Hc) as [_ [_ [Hunit _]]].
      unfold is_unit_char in Hunit.
      destruct (ignorecase_eq 109 c), (ignorecase_eq 115 c);
        try discriminate; reflexivity. }
    simpl in Hname.
    destruct Hname as [<- | [<- | [<- | [<- | []]]]];
      inversion Hspell as [| x c name' u' Hc Hrest]; subst;
      try (inversion Hrest as [| x2 c2 name'' u'' Hc2 Hrest2]; subst;
           try inversion Hrest2; subst).
    all: apply re_star_longest;
      [ exact Hws2
      | simpl; eapply unit_letter_apart; [| eassumption]; simpl; auto
      | ].
    all: unfold unit_names;
      change (lit "ms") with [109; 115]; change (lit "s") with [115];
      change (lit "m") with [109]; change (lit "h") with [104];
      cbn [re_alternatives re_literal app].
    + (* ms *)
      rewrite Hc, Hc2. cbn [app].
      rewrite re_last_spaces by exact Hws3. reflexivity.
    + (* s *)
      rewrite (Hs_m _ Hc), Hc. cbn [app].
      rewrite re_last_spaces by exact Hws3. reflexivity.
    + (* m *)
      rewrite Hc, (Hm_s _ Hc). cbn [app].
      pose proof (Hsp_s ws3 Hws3) as Hnext.
      destruct ws3 as [| c' ws3].
      * reflexivity.
      * rewrite Hnext.
        rewrite re_last_spaces by exact Hws3.
        reflexivity.
    + (* h *)
      destruct (Hh _ Hc) as [H1 H2].
      rewrite H1, H2, Hc. cbn [app].
      rewrite re_last_spaces by exact Hws3. reflexivity.
Qed.

Lemma digits_head :
  forall ip rest,
    digits ip ->
    stops isspace (ip ++ rest).
Proof.
  intros ip rest [Hne Hip]. destruct ip as [| c ip]; [contradiction |].
  simpl in *. apply andb_true_iff in Hip. destruct Hip as [Hc _].
  exact (isdecimal_not_space c Hc).
Qed.

Lemma re_fraction_skips :
  forall (A : Type) g s (k : str -> str -> option A),
    stops (fun c => char_eqb c DOT) s -> re_fraction g s k = k g s.
Proof.
  intros A g s k H. destruct s as [| c s]; [reflexivity |].
  simpl in *. rewrite H. reflexivity.
Qed.

(** Every duration text is matched, with its number and its unit as the
    groups. *)
Lemma DURATION_RE_complete :
  forall s g1 g2,
    duration_text ignorecase_eq s g1 g2 -> _DURATION_RE s = Some (g1, g2).
Proof.
  intros s g1 g2 [ws1 [ws2 [u [ws3 [-> [Hws1 [Hws2 [Hws3 [Hnum Hu]]]]]]]]].
  unfold _DURATION_RE. fold re_tail.
  destruct (after_number ws2 g2 u ws3 Hws2 Hu Hws3) as [Hnodigit Hnodot].
  pose proof (re_tail_complete) as Htail.
  destruct Hnum as [ip Hip | ip fp Hip Hfp].
  - apply re_star_longest; [exact Hws1 | exact (digits_head _ _ Hip) |].
    destruct Hip as [Hne Hip].
    apply re_plus_in_longest; [exact Hne | exact Hip | exact Hnodigit |].
    simpl app. rewrite re_fraction_skips by exact Hnodot.
    apply (Htail ip ws2 g2 u ws3 Hws2 Hu Hws3).
  - rewrite <- app_assoc. simpl app.
    apply re_star_longest; [exact Hws1 | exact (digits_head _ _ Hip) |].
    destruct Hip as [Hne Hip]. destruct Hfp as [Hnef Hfp].
    apply re_plus_in_longest; [exact Hne | exact Hip | reflexivity |].
    simpl app. unfold re_fraction.
    change (char_eqb DOT DOT) with true. cbv iota.
    rewrite (re_plus_in_longest isdecimal fp (ws2 ++ u ++ ws3) (ip ++ [DOT])
               _ (ip ++ DOT :: fp, g2) Hnef Hfp Hnodigit).
    + reflexivity.
    + rewrite <- app_assoc. simpl app.
      apply (Htail (ip ++ DOT :: fp) ws2 g2 u ws3 Hws2 Hu Hws3).
Qed.

(** The pattern matches exactly the duration texts. *)
Lemma DURATION_RE_language :
  forall s g1 g2,
    _DURATION_RE s = Some (g1, g2) <-> duration_text ignorecase_eq s g1 g2.
Proof.
  intros. split; [apply DURATION_RE_sound | apply DURATION_RE_complete].
Qed.

(** ** The number of a duration *)

Lemma read_digits_all :
  forall ip rest acc count,
    forallb isdecimal ip = true -> stops isdecimal rest ->
    exists n, read_digits acc count (ip ++ rest)
              = (n, (count + List.length ip)%nat, rest).
Proof.
  induction ip as [| c ip IH]; intros rest acc count Hip Hrest.
  - exists acc. cbn [app List.length]. rewrite Nat.add_0_r.
    destruct rest as [| c rest]; [reflexivity |].
    cbn [read_digits stops] in *. unfold isdecimal in Hrest.
    destruct (decimal_value c); [discriminate | reflexivity].
  - cbn [forallb] in Hip. apply andb_true_iff in Hip. destruct Hip as [Hc Hip].
    cbn [app read_digits List.length]. unfold isdecimal in Hc.
    destruct (decimal_value c) as [d |]; [| discriminate].
    destruct (IH rest (10 * acc + d) (S count) Hip Hrest) as [n Hn].
    exists n. rewrite Hn. f_equal. f_equal. lia.
Qed.

(** [float] reads every number the pattern lets through. *)
Lemma py_float_number :
  forall g1, number_text g1 -> exists value, py_float g1 = Some value.
Proof.
  intros g1 [ip [Hne Hip] | ip fp [Hne Hip] [Hnef Hfp]]; unfold py_float.
  - destruct (read_digits_all ip [] 0 0 Hip I) as [n Hn].
    rewrite app_nil_r in Hn. rewrite Hn.
    destruct ip; [contradiction |]. simpl. eexists. reflexivity.
  - destruct (read_digits_all ip (DOT :: fp) 0 0 Hip eq_refl) as [n Hn].
    rewrite Hn. change (char_eqb DOT DOT) with true. cbv iota.
    destruct (read_digits_all fp [] n 0 Hfp I) as [n' Hn'].
    rewrite app_nil_r in Hn'. rewrite Hn'.
    destruct ip; [contradiction |]. simpl. eexists. reflexivity.
Qed.

(** ** The value of a duration *)

Lemma unit_text_ignorecase :
  forall g2 u, unit_text ascii_case_eq g2 u -> unit_text ignorecase_eq g2 u.
Proof.
  intros g2 u [| name u' Hname Hspell]; [constructor |].
  apply (some_unit _ name); [exact Hname |].
  unfold spells in *.
  apply (Forall2_impl _ ascii_case_ignorecase). exact Hspell.
Qed.

Lemma lower_spelling :
  forall name u,
    In name unit_names -> spells ascii_case_eq name u -> lower u = name.
Proof.
  intros name u Hname Hspell. pose proof (unit_names_letters name Hname) as Hl.
  clear Hname. unfold spells in Hspell.
  induction Hspell as [| x c name u Hxc Hrest IH]; [reflexivity |].
  inversion Hl as [| x' name' Hx Hl']; subst.
  simpl. rewrite (IH Hl'). f_equal.
  unfold ascii_case_eq, char_eqb in Hxc. apply orb_true_iff in Hxc.
  simpl in Hx. unfold lower_char, in_range.
  destruct Hx as [<- | [<- | [<- | []]]];
    destruct Hxc as [Hc | Hc]; apply N.eqb_eq in Hc;
    try (subst c; reflexivity);
    match goal with
    | H : c + 32 = ?x |- _ =>
        assert (Hv : c = x - 32) by lia; simpl in Hv; subst c; reflexivity
    end.
Qed.

Lemma parse_duration_of_text :
  forall s g1 g2 value,
    duration_text ascii_case_eq s g1 g2 ->
    py_float g1 = Some value ->
    parse_duration s
    = match factor_of (lower (match g2 with Some u => u | None => lit "s" end)) with
      | Ok factor => Ok (fmul value factor)
      | Raise e => Raise e
      end.
Proof.
  intros s g1 g2 value [ws1 [ws2 [u [ws3 [Hs [H1 [H2 [H3 [Hn Hu]]]]]]]]] Hv.
  unfold parse_duration.
  rewrite (DURATION_RE_complete s g1 g2).
  - rewrite Hv. reflexivity.
  - exists ws1, ws2, u, ws3. repeat split; auto.
    apply unit_text_ignorecase. exact Hu.
Qed.

(** C2, as the script has it. A text made of white space, a number (digits,
    then possibly a point and digits), white space, possibly a unit among ms,
    s, m and h in either case, and white space, parses to the float of the
    number times 0.001 for ms, 1 for s and for no unit, 60 for m and 3600 for
    h; the white space between the number and the unit is allowed. The float
    of the number always exists. A text that is not of this form, even with
    the long s counted as a letter s, raises [InvalidDuration]: so do "abc",
    "-5s" and the empty text. *)
Theorem parse_duration_value :
  (forall ws1 g1 ws2 ws3 value,
      spaces ws1 -> spaces ws2 -> spaces ws3 ->
      number_text g1 -> py_float g1 = Some value ->
      parse_duration (ws1 ++ g1 ++ ws2 ++ ws3) = Ok (fmul value f1)
      /\ (forall u, spells ascii_case_eq (lit "ms") u ->
                    parse_duration (ws1 ++ g1 ++ ws2 ++ u ++ ws3)
                    = Ok (fmul value f0_001))
      /\ (forall u, spells ascii_case_eq (lit "s") u ->
                    parse_duration (ws1 ++ g1 ++ ws2 ++ u ++ ws3)
                    = Ok (fmul value f1))
      /\ (forall u, spells ascii_case_eq (lit "m") u ->
                    parse_duration (ws1 ++ g1 ++ ws2 ++ u ++ ws3)
                    = Ok (fmul value f60))
      /\ (forall u, spells ascii_case_eq (lit "h") u ->
                    parse_duration (ws1 ++ g1 ++ ws2 ++ u ++ ws3)
                    = Ok (fmul value f3600)))
  /\ (forall g1, number_text g1 -> exists value, py_float g1 = Some value)
  /\ (forall s,
         ~ (exists g1 g2, duration_text ignorecase_eq s g1 g2) ->
         parse_duration s = Raise (InvalidDuration s))
  /\ parse_duration (lit "abc") = Raise (InvalidDuration (lit "abc"))
  /\ parse_duration (lit "-5s") = Raise (InvalidDuration (lit "-5s"))
  /\ parse_duration [] = Raise (InvalidDuration []).
Proof.
  split.
  { intros ws1 g1 ws2 ws3 value H1 H2 H3 Hn Hv.
    assert (Hunit : forall name u factor,
               In name unit_names -> spells ascii_case_eq name u ->
               factor_of name = Ok factor ->
               parse_duration (ws1 ++ g1 ++ ws2 ++ u ++ ws3)
               = Ok (fmul value factor)).
    { intros name u factor Hname Hspell Hfactor.
      rewrite (parse_duration_of_text _ g1 (Some u) value).
      - rewrite (lower_spelling name u Hname Hspell), Hfactor. reflexivity.
      - exists ws1, ws2, u, ws3. repeat split; auto.
        apply (some_unit _ name); assumption.
      - exact Hv. }
    split.
    { rewrite (parse_duration_of_text _ g1 None value).
      - reflexivity.
      - exists ws1, ws2, [], ws3. repeat split; auto. constructor.
      - exact Hv. }
    repeat split; intros u Hu.
    - apply (Hunit (lit "ms")); simpl; auto.
    - apply (Hunit (lit "s")); simpl; auto.
    - apply (Hunit (lit "m")); simpl; auto.
    - apply (Hunit (lit "h")); simpl; auto 10. }
  split; [exact py_float_number |].
  split.
  { intros s Hnot. unfold parse_duration.
    destruct (_DURATION_RE s) as [[g1 g2] |] eqn:Hre; [| reflexivity].
    exfalso. apply Hnot. exists g1, g2. apply DURATION_RE_sound. exact Hre. }
  repeat split; reflexivity.
Qed.

(** The grammar in the words of the specification leaves out a text the
    script parses: "5 s", with a space between the number and the unit, is 5
    seconds. *)
Lemma inner_space_is_parsed :
  ~ (exists g1 g2, duration_grammar (lit "5 s") g1 g2)
  /\ parse_duration (lit "5 s") = Ok (S754_finite false 5629499534213120 (-50))
  /\ py_float (lit "5") = Some (S754_finite false 5629499534213120 (-50)).
Proof.
  split; [| split; reflexivity].
  intros [g1 [g2 [ws1 [u [ws2 [Hs [Hws1 [Hws2 [Hnum Hu]]]]]]]]].
  assert (Hre : _DURATION_RE (lit "5 s") = Some (g1, g2)).
  { apply DURATION_RE_complete. exists ws1, [], u, ws2.
    repeat split; auto. apply unit_text_ignorecase. exact Hu. }
  vm_compute in Hre. inversion Hre; subst g1 g2. clear Hre.
  inversion Hu; subst. vm_compute in Hs.
  destruct ws1 as [| c ws1].
  - simpl in Hs. inversion Hs.
  - simpl in Hs. inversion Hs; subst c.
    unfold spaces in Hws1. simpl in Hws1. discriminate.
Qed.

(** A unit written with the long s is matched by the pattern and then not
    found in the dictionary of factors. *)
Lemma long_s_unit_raises_KeyError :
  parse_duration [53; LONG_S] = Raise (KeyError [LONG_S])
  /\ _DURATION_RE [53; LONG_S] = Some ([53], Some [LONG_S]).
Proof. split; reflexivity. Qed.

(* ================================================================== *)
(** ** Floats: sign and order *)

Lemma shr_1_nonneg :
  forall mrs, (0 <= shr_m mrs)%Z -> (0 <= shr_m (shr_1 mrs))%Z.
Proof.
  intros [m r s] H. simpl in *.
  destruct m as [| [p | p |] | [p | p |]]; simpl; lia.
Qed.

Lemma iter_shr_1_nonneg :
  forall p mrs,
    (0 <= shr_m mrs)%Z -> (0 <= shr_m (iter_pos shr_1 p mrs))%Z.
Proof.
  induction p as [p IH | p IH |]; intros mrs H; simpl.
  - apply IH, IH, shr_1_nonneg, H.
  - apply IH, IH, H.
  - apply shr_1_nonneg, H.
Qed.

Lemma shr_fexp_nonneg :
  forall m e l,
    (0 <= m)%Z -> (0 <= shr_m (fst (shr_fexp prec emax m e l)))%Z.
Proof.
  intros m e l H. unfold shr_fexp, shr.
  assert (H0 : (0 <= shr_m (shr_record_of_loc m l))%Z)
    by (destruct l as [| []]; exact H).
  destruct (fexp prec emax (Zdigits2 m + e) - e)%Z; simpl; auto.
  apply iter_shr_1_nonneg. exact H0.
Qed.

Lemma round_nearest_even_nonneg :
  forall m l, (0 <= m)%Z -> (0 <= round_nearest_even m l)%Z.
Proof.
  intros m l H. unfold round_nearest_even.
  destruct l as [| []]; try destruct (Z.even m); lia.
Qed.

(** Rounding a number that is not negative, with the sign plus, gives no NaN
    and no minus sign. *)
Lemma binary_round_aux_nonneg :
  forall m e l,
    (0 <= m)%Z -> nonneg (binary_round_aux prec emax false m e l) = true.
Proof.
  intros m e l H. unfold binary_round_aux.
  pose proof (shr_fexp_nonneg m e l H) as H1.
  destruct (shr_fexp prec emax m e l) as [mrs' e'].
  simpl fst in H1.
  pose proof (shr_fexp_nonneg _ e' loc_Exact
                (round_nearest_even_nonneg _ (loc_of_shr_record mrs') H1)) as H2.
  destruct (shr_fexp prec emax _ e' loc_Exact) as [mrs'' e''].
  simpl fst in H2.
  destruct (shr_m mrs'') as [| p | p]; [reflexivity | | lia].
  destruct (e'' <=? emax - prec)%Z; reflexivity.
Qed.

Lemma float_of_ratio_nonneg :
  forall n d, (0 <= n)%Z -> (0 < d)%Z -> nonneg (float_of_ratio n d) = true.
Proof.
  intros n d Hn Hd. unfold float_of_ratio.
  destruct n as [| p | p]; [reflexivity | | lia].
  unfold SFdiv_core_binary.
  set (s := (_ - _ - _)%Z).
  set (m' := match s with
             | Z0 => Z.pos p
             | Z.pos _ => Z.shiftl (Z.pos p) s
             | Z.neg _ => 0%Z
             end).
  assert (Hm' : (0 <= m')%Z).
  { subst m'. destruct s; try lia. apply Z.shiftl_nonneg. lia. }
  pose proof (Z.div_pos m' d Hm' Hd) as Hq.
  unfold Z.div in Hq. destruct (Z.div_eucl m' d) as [q r].
  apply binary_round_aux_nonneg. exact Hq.
Qed.

Lemma py_float_nonneg :
  forall s value, py_float s = Some value -> nonneg value = true.
Proof.
  intros s value H. unfold py_float in H.
  destruct (read_digits 0 0 s) as [[ni ci] r].
  destruct r as [| c r'].
  - destruct ci; [discriminate |]. inversion H.
    apply float_of_ratio_nonneg; lia.
  - destruct (char_eqb c DOT); [| discriminate].
    destruct (read_digits ni 0 r') as [[n cf] r''].
    destruct r''; [| discriminate].
    destruct (ci + cf)%nat; [discriminate |]. inversion H.
    apply float_of_ratio_nonneg; [lia |].
    apply Z.pow_pos_nonneg; lia.
Qed.

Lemma fmul_factor_nonneg :
  forall value factor,
    nonneg value = true ->
    In factor [f0_001; f1; f60; f3600] ->
    nonneg (fmul value factor) = true.
Proof.
  intros value factor Hv Hf.
  assert (Hfin : exists m e, factor = S754_finite false m e).
  { simpl in Hf. destruct Hf as [<- | [<- | [<- | [<- | []]]]];
      eexists; eexists; reflexivity. }
  destruct Hfin as [m [e ->]].
  destruct value as [[|] | [|] | | [|] mv ev]; try discriminate; try reflexivity.
  unfold fmul, SFmul. simpl xorb. apply binary_round_aux_nonneg. lia.
Qed.

(** A duration is never negative and never a NaN. *)
Lemma parse_duration_nonneg :
  forall s v, parse_duration s = Ok v -> nonneg v = true.
Proof.
  intros s v H. unfold parse_duration in H.
  destruct (_DURATION_RE s) as [[g1 g2] |]; [| discriminate].
  destruct (py_float g1) as [value |] eqn:Hv; [| discriminate].
  apply py_float_nonneg in Hv.
  destruct (factor_of _) as [factor |] eqn:Hf; [| discriminate].
  inversion H. apply fmul_factor_nonneg; [exact Hv |].
  unfold factor_of in Hf.
  repeat match type of Hf with
         | context [if ?c then _ else _] => destruct c
         end; inversion Hf; simpl; auto.
Qed.

Lemma compare_nonneg :
  forall a b,
    nonneg a = true -> nonneg b = true ->
    exists c, SFcompare a b = Some c /\ SFcompare b a = Some (CompOpp c)
              /\ (c = Eq -> a = b).
Proof.
  intros [[|] | [|] | | [|] ma ea] [[|] | [|] | | [|] mb eb] Ha Hb;
    try discriminate; simpl;
    try (eexists; repeat split; try reflexivity; intros; discriminate);
    try (eexists; repeat split; reflexivity).
  rewrite (Z.compare_antisym ea eb).
  change (Pos.compare_cont Eq mb ma) with (Pos.compare mb ma).
  change (Pos.compare_cont Eq ma mb) with (Pos.compare ma mb).
  rewrite (Pos.compare_antisym ma mb).
  destruct (Z.compare_spec ea eb) as [He | He | He]; simpl;
    try (eexists; repeat split; try reflexivity; intros; discriminate).
  destruct (Pos.compare_spec ma mb) as [Hm | Hm | Hm]; simpl;
    eexists; repeat split; try reflexivity; intros; try discriminate.
  subst. reflexivity.
Qed.

Lemma fleb_refl : forall a b, fleb a b = true -> fleb a a = true.
Proof.
  intros a b H. unfold fleb, SFleb in *.
  destruct a as [sa | sa | | sa ma ea]; simpl in *.
  - reflexivity.
  - destruct sa; reflexivity.
  - discriminate.
  - rewrite Z.compare_refl, Pos.compare_cont_refl. destruct sa; reflexivity.
Qed.

(** The minimum and the maximum of two durations, and the clamp at zero. *)
Lemma order_of_bounds :
  forall a b,
    nonneg a = true -> nonneg b = true ->
    (if fleb a b then (a, b) else (b, a)) = (py_min a b, py_max a b)
    /\ fleb (py_min a b) (py_max a b) = true
    /\ nonneg (py_min a b) = true /\ nonneg (py_max a b) = true.
Proof.
  intros a b Ha Hb.
  destruct (compare_nonneg a b Ha Hb) as [c [Hab [Hba Heq]]].
  unfold py_min, py_max, fleb, fltb, SFleb, SFltb. rewrite Hab, Hba.
  destruct c; simpl; rewrite ?Hab, ?Hba; simpl.
  - rewrite (Heq eq_refl) in *. rewrite Hab. auto.
  - auto.
  - auto.
Qed.

Lemma clamp_nonneg :
  forall x, nonneg x = true -> py_max fzero x = x.
Proof.
  intros [[|] | [|] | | [|] m e] H; try discriminate; reflexivity.
Qed.

(** ** Texts without hyphen *)

Lemma contains_app :
  forall c s t, contains c (s ++ t) = contains c s || contains c t.
Proof.
  intros c s t. induction s as [| x s IH]; [reflexivity |].
  simpl. rewrite IH, orb_assoc. reflexivity.
Qed.

Lemma contains_none :
  forall (p : char -> bool) sep s,
    (forall c, p c = true -> char_eqb c sep = false) ->
    forallb p s = true -> contains sep s = false.
Proof.
  intros p sep s Hp. induction s as [| x s IH]; intros H; [reflexivity |].
  simpl in *. apply andb_true_iff in H. destruct H as [Hx Hs].
  rewrite (Hp x Hx), (IH Hs). reflexivity.
Qed.

Lemma split_once_at :
  forall sep l r,
    contains sep l = false ->
    split_once sep (l ++ sep :: r) = (l, Some r)
    /\ contains sep (l ++ sep :: r) = true.
Proof.
  intros sep l r. induction l as [| x l IH]; intros H; simpl.
  - unfold char_eqb. rewrite N.eqb_refl. auto.
  - simpl in H. apply orb_false_iff in H. destruct H as [Hx Hl].
    destruct (IH Hl) as [Hsplit Hcont]. rewrite Hx, Hsplit, Hcont. auto.
Qed.

Lemma duration_has_no_hyphen :
  forall s v, parse_duration s = Ok v -> contains HYPHEN s = false.
Proof.
  intros s v H. unfold parse_duration in H.
  destruct (_DURATION_RE s) as [[g1 g2] |] eqn:Hre; [| discriminate].
  apply DURATION_RE_sound in Hre.
  destruct Hre as [ws1 [ws2 [u [ws3 [-> [H1 [H2 [H3 [Hn Hu]]]]]]]]].
  clear H.
  assert (Hsp : forall ws, spaces ws -> contains HYPHEN ws = false).
  { intros ws Hws. apply (contains_none isspace); [| exact Hws].
    intros c Hc. apply (isspace_apart c Hc). }
  assert (Hdg : forall ds, digits ds -> contains HYPHEN ds = false).
  { intros ds [_ Hds]. apply (contains_none isdecimal); [| exact Hds].
    exact isdecimal_not_hyphen. }
  rewrite !contains_app, (Hsp _ H1), (Hsp _ H2), (Hsp _ H3).
  assert (Hg1 : contains HYPHEN g1 = false).
  { destruct Hn as [ip Hip | ip fp Hip Hfp].
    - exact (Hdg _ Hip).
    - rewrite contains_app. simpl. rewrite (Hdg _ Hip), (Hdg _ Hfp).
      reflexivity. }
  assert (Hun : contains HYPHEN u = false).
  { destruct Hu as [| name u Hname Hspell]; [reflexivity |].
    pose proof (unit_names_letters name Hname) as Hl. clear Hname.
    induction Hspell as [| x c name u Hxc Hrest IH]; [reflexivity |].
    inversion Hl as [| x' name' Hx Hl']; subst. simpl.
    destruct (unit_letter_apart x c Hx Hxc) as [_ [_ [_ [Hh _]]]].
    rewrite Hh, (IH Hl'). reflexivity. }
  rewrite Hg1, Hun. reflexivity.
Qed.

(** ** Floats: rounding and order *)

Section BinaryRounding.

Local Open Scope Z_scope.

(** *** Digits *)

Lemma fexp_eq : forall e, fexp prec emax e = Z.max (e - 53) (-1074).
Proof. reflexivity. Qed.

Lemma digits2_pos_size : forall p, digits2_pos p = Pos.size p.
Proof. induction p; simpl; congruence. Qed.

Lemma Zdigits2_log2 : forall m, 0 < m -> Zdigits2 m = Z.log2 m + 1.
Proof.
  intros [| p | p] H; try lia. simpl. rewrite digits2_pos_size.
  destruct p; simpl; lia.
Qed.

Lemma Zdigits2_bounds :
  forall m, 0 < m -> 2 ^ (Zdigits2 m - 1) <= m < 2 ^ Zdigits2 m.
Proof.
  intros m H. rewrite (Zdigits2_log2 m H).
  replace (Z.log2 m + 1 - 1) with (Z.log2 m) by lia.
  replace (Z.log2 m + 1) with (Z.succ (Z.log2 m)) by lia.
  apply Z.log2_spec. exact H.
Qed.

Lemma Zdigits2_pos : forall m, 0 < m -> 1 <= Zdigits2 m.
Proof.
  intros m H. rewrite (Zdigits2_log2 m H).
  pose proof (Z.log2_nonneg m). lia.
Qed.

Lemma Zdigits2_unique :
  forall m k, 2 ^ (k - 1) <= m < 2 ^ k -> 0 < m -> Zdigits2 m = k.
Proof.
  intros m k H Hm. rewrite (Zdigits2_log2 m Hm).
  assert (0 < k).
  { destruct (Z.lt_trichotomy k 0) as [Hk | [Hk | Hk]]; [| | exact Hk].
    - rewrite (Z.pow_neg_r 2 k Hk) in H. lia.
    - subst k. simpl in H. lia. }
  assert (Z.log2 m = k - 1); [| lia].
  apply Z.log2_unique; [lia |]. replace (Z.succ (k - 1)) with k by lia. exact H.
Qed.

(** *** Shifting right *)

Lemma iter_pos_nat :
  forall (A : Type) (f : A -> A) p x,
    iter_pos f p x = Nat.iter (Pos.to_nat p) f x.
Proof.
  intros A f. induction p as [p IH | p IH |]; intros x; simpl iter_pos.
  - rewrite !IH, Pos2Nat.inj_xI.
    replace (S (2 * Pos.to_nat p))%nat
      with (Pos.to_nat p + (Pos.to_nat p + 1))%nat by lia.
    rewrite !Nat.iter_add. reflexivity.
  - rewrite !IH, Pos2Nat.inj_xO.
    replace (2 * Pos.to_nat p)%nat
      with (Pos.to_nat p + Pos.to_nat p)%nat by lia.
    rewrite Nat.iter_add. reflexivity.
  - reflexivity.
Qed.

Lemma shr_1_m :
  forall mrs, 0 <= shr_m mrs -> shr_m (shr_1 mrs) = shr_m mrs / 2.
Proof.
  intros [m r s] H. simpl in *.
  destruct m as [| [p | p |] | p]; try lia; cbn [shr_1 shr_m].
  - reflexivity.
  - apply Z.div_unique with (r := 1); lia.
  - apply Z.div_unique with (r := 0); lia.
  - reflexivity.
Qed.

Lemma shr_1_r :
  forall mrs, 0 <= shr_m mrs -> shr_r (shr_1 mrs) = Z.odd (shr_m mrs).
Proof.
  intros [m r s] H. simpl in *.
  destruct m as [| [p | p |] | p]; try lia; reflexivity.
Qed.

Lemma shr_1_s :
  forall mrs, shr_s (shr_1 mrs) = shr_r mrs || shr_s mrs.
Proof.
  intros [m r s].
  destruct m as [| [p | p |] | [p | p |]]; reflexivity.
Qed.

Lemma iter_shr_1_m :
  forall k mrs,
    0 <= shr_m mrs ->
    shr_m (Nat.iter k shr_1 mrs) = shr_m mrs / 2 ^ Z.of_nat k.
Proof.
  induction k as [| k IH]; intros mrs H.
  - simpl. rewrite Z.div_1_r. reflexivity.
  - rewrite Nat2Z.inj_succ, Z.pow_succ_r by lia. simpl Nat.iter.
    assert (Hp : 0 < 2 ^ Z.of_nat k) by (apply Z.pow_pos_nonneg; lia).
    assert (H' : 0 <= shr_m (Nat.iter k shr_1 mrs)).
    { rewrite IH by exact H. apply Z.div_pos; [exact H | exact Hp]. }
    rewrite shr_1_m by exact H'. rewrite IH by exact H.
    rewrite Z.div_div by lia. rewrite Z.mul_comm. reflexivity.
Qed.

Lemma shr_1_eq :
  forall mrs,
    0 <= shr_m mrs ->
    shr_1 mrs
    = Build_shr_record (shr_m mrs / 2) (Z.odd (shr_m mrs))
        (shr_r mrs || shr_s mrs).
Proof.
  intros mrs H.
  pose proof (shr_1_m mrs H) as Hm.
  pose proof (shr_1_r mrs H) as Hr.
  pose proof (shr_1_s mrs) as Hs.
  destruct (shr_1 mrs) as [m' r' s']. simpl in Hm, Hr, Hs. congruence.
Qed.

(** After [k + 1] steps from an exact record: the quotient, the last bit
    shifted out, and whether a lower bit was set. *)
Lemma iter_shr_1_exact :
  forall k m,
    0 <= m ->
    Nat.iter (S k) shr_1 (Build_shr_record m false false)
    = Build_shr_record (m / 2 ^ Z.of_nat (S k))
        (Z.odd (m / 2 ^ Z.of_nat k))
        (negb (m mod 2 ^ Z.of_nat k =? 0)).
Proof.
  induction k as [| k IH]; intros m H.
  - rewrite Nat.iter_succ. unfold Nat.iter at 1. cbn [nat_rect].
    rewrite shr_1_eq by exact H. cbn [shr_m shr_r shr_s].
    change (2 ^ Z.of_nat 0) with 1. change (2 ^ Z.of_nat 1) with 2.
    rewrite Z.div_1_r, Z.mod_1_r. reflexivity.
  - rewrite Nat.iter_succ. rewrite IH by exact H.
    assert (Hp : 0 < 2 ^ Z.of_nat (S k)) by (apply Z.pow_pos_nonneg; lia).
    assert (Hp' : 0 < 2 ^ Z.of_nat k) by (apply Z.pow_pos_nonneg; lia).
    rewrite shr_1_eq by (cbn [shr_m]; apply Z.div_pos; assumption).
    cbn [shr_m shr_r shr_s].
    f_equal.
    + rewrite Z.div_div by lia.
      rewrite (Nat2Z.inj_succ (S k)), (Z.pow_succ_r 2 (Z.of_nat (S k))) by lia.
      rewrite Z.mul_comm. reflexivity.
    + rewrite (Nat2Z.inj_succ k), (Z.pow_succ_r 2 (Z.of_nat k)) by lia.
      rewrite (Z.mul_comm 2), Z.rem_mul_r by lia.
      set (low := m mod 2 ^ Z.of_nat k).
      set (q := m / 2 ^ Z.of_nat k).
      assert (Hlow : 0 <= low < 2 ^ Z.of_nat k) by (apply Z.mod_pos_bound; lia).
      rewrite (Zmod_odd q).
      destruct (Z.odd q); destruct (Z.eqb_spec low 0) as [E | E];
        match goal with
        | |- context [?a =? 0] => destruct (Z.eqb_spec a 0)
        end; simpl; try reflexivity; lia.
Qed.

(** *** Rounding *)

Lemma shr_nonpos :
  forall mrs e n, n <= 0 -> shr mrs e n = (mrs, e).
Proof. intros mrs e [| p | p] H; try reflexivity; lia. Qed.

Lemma shr_pos :
  forall mrs e n,
    0 < n -> shr mrs e n = (Nat.iter (Z.to_nat n) shr_1 mrs, e + n).
Proof.
  intros mrs e [| p | p] H; try lia. unfold shr.
  rewrite iter_pos_nat. reflexivity.
Qed.

Lemma rne_zero_shift : forall m, rne m 0 = m.
Proof.
  intros m. unfold rne, round_up. change (2 ^ 0) with 1.
  rewrite Z.div_1_r, Z.mod_1_r. simpl. lia.
Qed.

Lemma round_nearest_even_exact :
  forall k m,
    0 <= m ->
    let st := Nat.iter (S k) shr_1 (Build_shr_record m false false) in
    round_nearest_even (shr_m st) (loc_of_shr_record st)
    = rne m (Z.of_nat (S k)).
Proof.
  intros k m H st. subst st. rewrite iter_shr_1_exact by exact H.
  unfold rne, round_up. cbn [shr_m].
  assert (Hh : 0 < 2 ^ Z.of_nat k) by (apply Z.pow_pos_nonneg; lia).
  rewrite (Nat2Z.inj_succ k), (Z.pow_succ_r 2 (Z.of_nat k)) by lia.
  set (h := 2 ^ Z.of_nat k) in *.
  rewrite (Z.mul_comm 2 h), Z.rem_mul_r by lia.
  rewrite <- (Z.div_div m h 2) by lia.
  set (q' := m / h). set (low := m mod h).
  assert (Hlow : 0 <= low < h) by (apply Z.mod_pos_bound; lia).
  rewrite (Zmod_odd q').
  assert (Hev : Z.even (q' / 2) = negb (Z.odd (q' / 2)))
    by (rewrite <- Z.negb_odd; reflexivity).
  destruct (Z.odd q'); destruct (Z.eqb_spec low 0) as [E | E];
    cbn [negb loc_of_shr_record round_nearest_even]; rewrite ?Hev;
    repeat match goal with
           | |- context [?a <? ?b] => destruct (Z.ltb_spec a b)
           | |- context [?a =? ?b] => destruct (Z.eqb_spec a b)
           end; cbn [orb andb negb]; try lia;
    destruct (Z.odd (q' / 2)); cbn [negb]; lia.
Qed.

Lemma round_nearest_even_cases :
  forall m l, round_nearest_even m l = m \/ round_nearest_even m l = m + 1.
Proof.
  intros m [| []]; simpl; auto. destruct (Z.even m); auto.
Qed.

Lemma second_shift :
  forall M E,
    0 <= M <= 2 ^ 53 -> -1074 <= E ->
    (let '(mrs, e) := shr_fexp prec emax M E loc_Exact in
     match shr_m mrs with
     | Z0 => S754_zero false
     | Zpos m =>
         if e <=? emax - prec then S754_finite false m e
         else S754_infinity false
     | Zneg _ => S754_nan
     end) = pack M E.
Proof.
  intros M E HM HE. unfold shr_fexp. rewrite fexp_eq.
  destruct (Z.eq_dec M 0) as [-> | HM0].
  { simpl Zdigits2. rewrite shr_nonpos by lia. reflexivity. }
  destruct (Z.eq_dec M (2 ^ 53)) as [-> | HM1].
  { change (Zdigits2 (2 ^ 53)) with 54.
    replace (Z.max (54 + E - 53) (-1074) - E) with 1 by lia.
    rewrite shr_pos by lia. reflexivity. }
  assert (Hd : Zdigits2 M <= 53).
  { destruct (Z_le_gt_dec (Zdigits2 M) 53) as [Hle | Hgt]; [exact Hle |].
    pose proof (Zdigits2_bounds M ltac:(lia)) as [Hlo _].
    assert (2 ^ 53 <= 2 ^ (Zdigits2 M - 1)) by (apply Z.pow_le_mono_r; lia).
    lia. }
  rewrite shr_nonpos by lia. cbn [shr_m shr_record_of_loc].
  unfold pack. destruct M as [| p | p]; try lia.
  destruct (Z.ltb_spec (Z.pos p) (2 ^ 53)); [reflexivity | lia].
Qed.

Lemma rexp_eq : forall m e, rexp m e = Z.max (Zdigits2 m + e - 53) (-1074).
Proof. reflexivity. Qed.

Lemma quotient_bound :
  forall m e,
    0 <= m -> e <= rexp m e -> 0 <= m / 2 ^ (rexp m e - e) < 2 ^ 53.
Proof.
  intros m e Hm He. rewrite rexp_eq in *.
  set (n := Z.max (Zdigits2 m + e - 53) (-1074) - e) in *.
  assert (Hn : 0 <= n) by lia.
  assert (Hp : 0 < 2 ^ n) by (apply Z.pow_pos_nonneg; lia).
  split; [apply Z.div_pos; lia |].
  destruct (Z.eq_dec m 0) as [-> | Hm0].
  { rewrite Z.div_0_l by lia. reflexivity. }
  pose proof (Zdigits2_bounds m ltac:(lia)) as [_ Hhi].
  pose proof (Zdigits2_pos m ltac:(lia)) as Hd.
  apply Z.div_lt_upper_bound; [exact Hp |].
  rewrite <- Z.pow_add_r by lia.
  apply Z.lt_le_trans with (1 := Hhi).
  apply Z.pow_le_mono_r; lia.
Qed.

Lemma loc_of_shr_record_of_loc :
  forall m l, loc_of_shr_record (shr_record_of_loc m l) = l.
Proof. intros m [| []]; reflexivity. Qed.

Lemma shr_m_record_of_loc : forall m l, shr_m (shr_record_of_loc m l) = m.
Proof. intros m [| []]; reflexivity. Qed.

(** The shape of a rounding: the mantissa shifted to the exponent of the
    result and rounded there, up or down; to nearest when the number is
    exact. *)
Lemma binary_round_aux_shape :
  forall m e l,
    0 <= m -> e <= rexp m e ->
    exists M,
      (M = m / 2 ^ (rexp m e - e) \/ M = m / 2 ^ (rexp m e - e) + 1)
      /\ (l = loc_Exact -> M = rne m (rexp m e - e))
      /\ binary_round_aux prec emax false m e l = pack M (rexp m e).
Proof.
  intros m e l Hm He.
  pose proof (quotient_bound m e Hm He) as Hq.
  assert (HE : -1074 <= rexp m e) by (rewrite rexp_eq; lia).
  unfold binary_round_aux, shr_fexp at 1. fold (rexp m e).
  destruct (Z.eq_dec (rexp m e - e) 0) as [Hn | Hn].
  - rewrite Hn in *. rewrite shr_nonpos by lia.
    rewrite loc_of_shr_record_of_loc, shr_m_record_of_loc.
    change (2 ^ 0) with 1 in *. rewrite Z.div_1_r in *.
    exists (round_nearest_even m l). split.
    { apply round_nearest_even_cases. } split.
    { intros ->. rewrite rne_zero_shift. reflexivity. }
    replace e with (rexp m e) at 1 by lia.
    apply second_shift; [| exact HE].
    destruct (round_nearest_even_cases m l) as [-> | ->]; lia.
  - rewrite shr_pos by lia.
    set (st := Nat.iter _ _ _).
    assert (Hst : shr_m st = m / 2 ^ (rexp m e - e)).
    { subst st. rewrite iter_shr_1_m
        by (rewrite shr_m_record_of_loc; exact Hm).
      rewrite shr_m_record_of_loc, Z2Nat.id by lia. reflexivity. }
    exists (round_nearest_even (shr_m st) (loc_of_shr_record st)). split.
    { rewrite <- Hst. apply round_nearest_even_cases. } split.
    { intros ->. subst st.
      destruct (Z.to_nat (rexp m e - e)) as [| k] eqn:Hk; [lia |].
      cbn [shr_record_of_loc].
      rewrite (round_nearest_even_exact k m Hm), <- Hk, Z2Nat.id by lia.
      reflexivity. }
    replace (e + (rexp m e - e)) with (rexp m e) by lia.
    apply second_shift; [| exact HE].
    destruct (round_nearest_even_cases (shr_m st) (loc_of_shr_record st))
      as [-> | ->]; lia.
Qed.

(** *** Validity and value *)

Lemma bounded_iff :
  forall p E,
    bounded prec emax p E = true
    <-> (Zdigits2 (Z.pos p) <= 53
         /\ (Zdigits2 (Z.pos p) = 53 \/ E = -1074)
         /\ -1074 <= E <= 971).
Proof.
  intros p E. unfold bounded, canonical_mantissa.
  rewrite andb_true_iff, Z.eqb_eq, Z.leb_le, fexp_eq.
  change (emax - prec) with 971. simpl Zdigits2. lia.
Qed.

Lemma mantissa_lt : forall M, 0 < M -> M < 2 ^ 53 -> Zdigits2 M <= 53.
Proof.
  intros M H0 H.
  destruct (Z_le_gt_dec (Zdigits2 M) 53) as [Hle | Hgt]; [exact Hle |].
  pose proof (Zdigits2_bounds M H0) as [Hlo _].
  assert (2 ^ 53 <= 2 ^ (Zdigits2 M - 1)) by (apply Z.pow_le_mono_r; lia).
  lia.
Qed.

Lemma mantissa_normal :
  forall M, 2 ^ 52 <= M -> M < 2 ^ 53 -> Zdigits2 M = 53.
Proof.
  intros M H0 H. apply Zdigits2_unique; [| lia].
  change (53 - 1) with 52. lia.
Qed.

(** Above the smallest exponent the quotient has all its 53 bits. *)
Lemma quotient_normal :
  forall m e,
    0 < m -> e <= rexp m e -> -1074 < rexp m e ->
    2 ^ 52 <= m / 2 ^ (rexp m e - e).
Proof.
  intros m e Hm He HE. rewrite rexp_eq in *.
  pose proof (Zdigits2_bounds m Hm) as [Hlo _].
  assert (Hn : Z.max (Zdigits2 m + e - 53) (-1074) - e = Zdigits2 m - 53)
    by lia.
  rewrite Hn. assert (0 <= Zdigits2 m - 53) by lia.
  apply Z.div_le_lower_bound; [apply Z.pow_pos_nonneg; lia |].
  rewrite <- Z.pow_add_r by lia.
  replace (Zdigits2 m - 53 + 52) with (Zdigits2 m - 1) by lia. exact Hlo.
Qed.

Lemma pack_valid :
  forall M E,
    0 <= M <= 2 ^ 53 -> -1074 <= E -> (-1074 < E -> 2 ^ 52 <= M) ->
    valid (pack M E) = true /\ nonneg (pack M E) = true.
Proof.
  intros M E HM HE Hn. unfold pack.
  destruct M as [| p | p]; [split; reflexivity | | lia].
  destruct (Z.ltb_spec (Z.pos p) (2 ^ 53)) as [Hlt | Hge].
  - destruct (Z.leb_spec E 971); [| split; reflexivity].
    split; [| reflexivity]. apply bounded_iff.
    split; [apply mantissa_lt; lia |]. split; [| lia].
    destruct (Z.eq_dec E (-1074)) as [-> | HE']; [right; reflexivity |].
    left. apply mantissa_normal; [apply Hn; lia | exact Hlt].
  - destruct (Z.leb_spec (E + 1) 971); [| split; reflexivity].
    split; [| reflexivity]. apply bounded_iff.
    change (Zdigits2 4503599627370496) with 53. lia.
Qed.

Lemma scaled_double :
  forall m e, -2148 <= e -> scaled (2 * m) e = scaled m (e + 1).
Proof.
  intros m e He. unfold scaled.
  replace (e + 1 + 2148) with (Z.succ (e + 2148)) by lia.
  rewrite Z.pow_succ_r by lia. lia.
Qed.

Lemma pack_value :
  forall M E,
    0 <= M <= 2 ^ 53 -> -2148 <= E ->
    finite (pack M E) = true -> float_value (pack M E) = scaled M E.
Proof.
  intros M E HM HE Hf. unfold pack in *.
  destruct M as [| p | p]; [reflexivity | | lia].
  destruct (Z.ltb_spec (Z.pos p) (2 ^ 53)) as [Hlt | Hge].
  - destruct (Z.leb_spec E 971); [reflexivity | discriminate].
  - destruct (Z.leb_spec (E + 1) 971); [| discriminate].
    assert (Z.pos p = 2 * 4503599627370496) as -> by lia.
    rewrite scaled_double by lia. reflexivity.
Qed.

Lemma pow2_pos : forall k, 0 <= k -> 0 < 2 ^ k.
Proof. intros k H. apply Z.pow_pos_nonneg; lia. Qed.

Lemma scaled_mono_m :
  forall m1 m2 e, -2148 <= e -> m1 <= m2 -> scaled m1 e <= scaled m2 e.
Proof.
  intros m1 m2 e He H. unfold scaled.
  apply Z.mul_le_mono_nonneg_r; [| exact H].
  apply Z.lt_le_incl, pow2_pos. lia.
Qed.

Lemma scaled_shift :
  forall m e k, -2148 <= e -> 0 <= k -> scaled (m * 2 ^ k) e = scaled m (e + k).
Proof.
  intros m e k He Hk. unfold scaled.
  replace (e + k + 2148) with (k + (e + 2148)) by lia.
  rewrite (Z.pow_add_r 2 k (e + 2148)) by lia. ring.
Qed.

(** What is finite stays below [2^1024]. *)
Lemma pack_finite :
  forall M E,
    0 <= M <= 2 ^ 53 -> -1074 <= E -> (-1074 < E -> 2 ^ 52 <= M) ->
    scaled M E < 2 ^ 3172 -> finite (pack M E) = true.
Proof.
  intros M E HM HE Hn Hv. unfold pack.
  destruct M as [| p | p]; [reflexivity | | lia].
  assert (Hbig : 971 < E -> 2 ^ 3172 <= scaled (Z.pos p) E).
  { intros H. unfold scaled.
    change (2 ^ 3172) with (2 ^ 52 * 2 ^ 3120).
    assert (2 ^ 52 <= Z.pos p) by (apply Hn; lia).
    assert (2 ^ 3120 <= 2 ^ (E + 2148)) by (apply Z.pow_le_mono_r; lia).
    apply Z.mul_le_mono_nonneg; lia. }
  destruct (Z.ltb_spec (Z.pos p) (2 ^ 53)) as [Hlt | Hge].
  - destruct (Z.leb_spec E 971); [reflexivity | lia].
  - destruct (Z.leb_spec (E + 1) 971); [reflexivity |].
    exfalso. assert (Z.pos p = 2 ^ 53) as Hp by lia. rewrite Hp in Hv.
    unfold scaled in Hv. change (2 ^ 3172) with (2 ^ 53 * 2 ^ 3119) in Hv.
    assert (2 ^ 3119 <= 2 ^ (E + 2148)) by (apply Z.pow_le_mono_r; lia).
    nia.
Qed.

(** *** The rounding of an exact number *)

Lemma rne_cases :
  forall m n, rne m n = m / 2 ^ n \/ rne m n = m / 2 ^ n + 1.
Proof. intros m n. unfold rne. destruct (round_up _ _ _); lia. Qed.

Lemma rexp_ge : forall m e, -1074 <= rexp m e.
Proof. intros m e. rewrite rexp_eq. lia. Qed.

Lemma round_mantissa_bounds :
  forall m e,
    roundable m e ->
    0 <= round_mantissa m e <= 2 ^ 53
    /\ (-1074 < rexp m e -> 2 ^ 52 <= round_mantissa m e).
Proof.
  intros m e [Hm [He Hr]]. unfold round_mantissa.
  pose proof (quotient_bound m e Hm Hr) as Hq.
  split; [destruct (rne_cases m (rexp m e - e)) as [-> | ->]; lia |].
  intros HE.
  assert (Hm0 : 0 < m).
  { destruct (Z.eq_dec m 0) as [-> | ]; [| lia].
    rewrite rexp_eq in *. simpl Zdigits2 in *. lia. }
  pose proof (quotient_normal m e Hm0 Hr HE).
  destruct (rne_cases m (rexp m e - e)) as [-> | ->]; lia.
Qed.

Lemma round_exact_pack :
  forall m e,
    roundable m e -> round_exact m e = pack (round_mantissa m e) (rexp m e).
Proof.
  intros m e [Hm [He Hr]].
  destruct (binary_round_aux_shape m e loc_Exact Hm Hr) as [M [_ [HM Heq]]].
  unfold round_exact, round_mantissa. rewrite Heq, (HM eq_refl). reflexivity.
Qed.

Lemma round_exact_valid :
  forall m e,
    roundable m e ->
    valid (round_exact m e) = true /\ nonneg (round_exact m e) = true.
Proof.
  intros m e H. rewrite (round_exact_pack m e H).
  destruct (round_mantissa_bounds m e H) as [Hb Hn].
  apply pack_valid; [exact Hb | apply rexp_ge | exact Hn].
Qed.

Lemma round_exact_value :
  forall m e,
    roundable m e -> finite (round_exact m e) = true ->
    float_value (round_exact m e) = round_value m e.
Proof.
  intros m e H. rewrite (round_exact_pack m e H).
  destruct (round_mantissa_bounds m e H) as [Hb Hn].
  apply pack_value; [exact Hb |]. pose proof (rexp_ge m e). lia.
Qed.

Lemma round_exact_finite :
  forall m e,
    roundable m e -> round_value m e < 2 ^ 3172 ->
    finite (round_exact m e) = true.
Proof.
  intros m e H. rewrite (round_exact_pack m e H).
  destruct (round_mantissa_bounds m e H) as [Hb Hn].
  apply pack_finite; [exact Hb | apply rexp_ge | exact Hn].
Qed.

(** The number on the grid_split of the result: quotient and remainder. *)
Lemma grid_split :
  forall m e,
    roundable m e ->
    let n := rexp m e - e in
    let G := 2 ^ (rexp m e + 2148) in
    let g := 2 ^ (e + 2148) in
    scaled m e = (m / 2 ^ n) * G + (m mod 2 ^ n) * g
    /\ 0 <= m mod 2 ^ n < 2 ^ n
    /\ G = 2 ^ n * g /\ 0 < g /\ 0 < 2 ^ n /\ 0 <= m / 2 ^ n.
Proof.
  intros m e [Hm [He Hr]] n G g.
  assert (Hn : 0 <= n) by (subst n; lia).
  assert (Hp : 0 < 2 ^ n) by (apply pow2_pos; exact Hn).
  assert (Hg : 0 < g) by (apply pow2_pos; lia).
  assert (HG : G = 2 ^ n * g).
  { subst G g. rewrite <- Z.pow_add_r by lia. f_equal. subst n. lia. }
  pose proof (Z.mod_pos_bound m (2 ^ n) Hp) as Hmod.
  pose proof (Z.div_mod m (2 ^ n) ltac:(lia)) as Hdm.
  repeat split; try lia.
  - unfold scaled. fold g. rewrite HG. rewrite Hdm at 1. ring.
  - apply Z.div_pos; lia.
Qed.

Lemma round_value_floor_ceil :
  forall m e,
    roundable m e ->
    let q := m / 2 ^ (rexp m e - e) in
    scaled q (rexp m e) <= scaled m e < scaled (q + 1) (rexp m e)
    /\ scaled q (rexp m e) <= round_value m e <= scaled (q + 1) (rexp m e).
Proof.
  intros m e H q.
  destruct (grid_split m e H) as [Hv [Hmod [HG [Hg [Hp Hq]]]]].
  fold q in Hv, Hq. unfold round_value, round_mantissa.
  set (n := rexp m e - e) in *. set (r := m mod 2 ^ n) in *.
  set (G := 2 ^ (rexp m e + 2148)) in *. set (g := 2 ^ (e + 2148)) in *.
  assert (HV : forall M, scaled M (rexp m e) = M * G) by reflexivity.
  rewrite !HV, Hv.
  assert (0 <= r * g < G) by nia.
  split; [nia |].
  destruct (rne_cases m n) as [-> | ->]; fold q; nia.
Qed.

Lemma bounded_roundable :
  forall p e,
    bounded prec emax p e = true ->
    roundable (Z.pos p) e /\ rexp (Z.pos p) e = e /\ Z.pos p < 2 ^ 53.
Proof.
  intros p e H. apply bounded_iff in H. destruct H as [Hd [Hc He]].
  assert (Hr : rexp (Z.pos p) e = e) by (rewrite rexp_eq; lia).
  split; [unfold roundable; lia |]. split; [exact Hr |].
  pose proof (Zdigits2_bounds (Z.pos p) ltac:(lia)) as [_ Hhi].
  apply Z.lt_le_trans with (1 := Hhi). apply Z.pow_le_mono_r; lia.
Qed.

(** A number of binary64 is rounded to itself. *)
Lemma round_exact_id :
  forall p e,
    bounded prec emax p e = true ->
    round_exact (Z.pos p) e = S754_finite false p e
    /\ round_value (Z.pos p) e = scaled (Z.pos p) e.
Proof.
  intros p e H. pose proof H as Hb. apply bounded_iff in Hb.
  destruct (bounded_roundable p e H) as [Hpre [Hr Hlt]].
  assert (HRm : round_mantissa (Z.pos p) e = Z.pos p).
  { unfold round_mantissa. rewrite Hr, Z.sub_diag. apply rne_zero_shift. }
  split.
  - rewrite (round_exact_pack _ _ Hpre), HRm, Hr. unfold pack.
    destruct (Z.ltb_spec (Z.pos p) (2 ^ 53)); [| lia].
    destruct (Z.leb_spec e 971); [reflexivity | lia].
  - unfold round_value. rewrite HRm, Hr. reflexivity.
Qed.

Lemma scaled_bounds :
  forall m e,
    0 < m -> -2148 <= e ->
    2 ^ (Zdigits2 m + e + 2147) <= scaled m e < 2 ^ (Zdigits2 m + e + 2148).
Proof.
  intros m e Hm He. unfold scaled.
  pose proof (Zdigits2_bounds m Hm) as [Hlo Hhi].
  pose proof (Zdigits2_pos m Hm) as Hd.
  assert (Hg : 0 < 2 ^ (e + 2148)) by (apply pow2_pos; lia).
  replace (Zdigits2 m + e + 2147) with ((Zdigits2 m - 1) + (e + 2148)) by lia.
  replace (Zdigits2 m + e + 2148) with (Zdigits2 m + (e + 2148)) by lia.
  rewrite (Z.pow_add_r 2 (Zdigits2 m - 1) (e + 2148)) by lia.
  rewrite (Z.pow_add_r 2 (Zdigits2 m) (e + 2148)) by lia. nia.
Qed.

(** The greater number has the greater order of magnitude. *)
Lemma magnitude_mono :
  forall m1 e1 m2 e2,
    0 < m1 -> 0 < m2 -> -2148 <= e1 -> -2148 <= e2 ->
    scaled m1 e1 <= scaled m2 e2 ->
    Zdigits2 m1 + e1 <= Zdigits2 m2 + e2.
Proof.
  intros m1 e1 m2 e2 H1 H2 He1 He2 Hv.
  pose proof (scaled_bounds m1 e1 H1 He1) as [Hlo _].
  pose proof (scaled_bounds m2 e2 H2 He2) as [_ Hhi].
  assert (Hlt : 2 ^ (Zdigits2 m1 + e1 + 2147) < 2 ^ (Zdigits2 m2 + e2 + 2148))
    by lia.
  pose proof (Zdigits2_pos m2 H2).
  apply Z.pow_lt_mono_r_iff in Hlt; lia.
Qed.

Lemma round_up_spec :
  forall q r pw,
    round_up q r pw = true <-> (pw < 2 * r \/ (2 * r = pw /\ Z.odd q = true)).
Proof.
  intros q r pw. unfold round_up.
  rewrite orb_true_iff, andb_true_iff, Z.ltb_lt, Z.eqb_eq. tauto.
Qed.

Lemma round_value_zero : forall e, roundable 0 e -> round_value 0 e = 0.
Proof.
  intros e [_ [He Hr]]. unfold round_value, round_mantissa, rne.
  assert (Hp : 0 < 2 ^ (rexp 0 e - e)) by (apply pow2_pos; lia).
  rewrite Z.div_0_l, Z.mod_0_l by lia.
  destruct (round_up 0 0 _) eqn:Hup; [| reflexivity].
  apply round_up_spec in Hup. simpl Z.odd in Hup. lia.
Qed.

Lemma round_value_nonneg : forall m e, roundable m e -> 0 <= round_value m e.
Proof.
  intros m e H. destruct (round_mantissa_bounds m e H) as [Hb _].
  unfold round_value, scaled.
  apply Z.mul_nonneg_nonneg; [lia |]. apply Z.pow_nonneg. lia.
Qed.

Lemma scaled_pos : forall m e, 0 < m -> -2148 <= e -> 0 < scaled m e.
Proof.
  intros m e Hm He. unfold scaled. apply Z.mul_pos_pos; [exact Hm |].
  apply pow2_pos. lia.
Qed.

Lemma scaled_zero : forall e, scaled 0 e = 0.
Proof. reflexivity. Qed.

(** Rounding keeps the order. *)
Lemma round_value_mono :
  forall m1 e1 m2 e2,
    roundable m1 e1 -> roundable m2 e2 -> scaled m1 e1 <= scaled m2 e2 ->
    round_value m1 e1 <= round_value m2 e2.
Proof.
  intros m1 e1 m2 e2 H1 H2 Hv.
  destruct (Z.eq_dec m1 0) as [-> | Hm1].
  { rewrite (round_value_zero e1 H1). apply round_value_nonneg. exact H2. }
  pose proof H1 as [Hm1' [He1 Hr1]]. pose proof H2 as [Hm2' [He2 Hr2]].
  assert (Hp1 : 0 < m1) by lia.
  pose proof (scaled_pos m1 e1 Hp1 He1) as Hv1.
  assert (Hp2 : 0 < m2).
  { destruct (Z.eq_dec m2 0) as [-> | ]; [rewrite scaled_zero in Hv |]; lia. }
  pose proof (magnitude_mono m1 e1 m2 e2 Hp1 Hp2 He1 He2 Hv) as Hmag.
  assert (HE : rexp m1 e1 <= rexp m2 e2) by (rewrite !rexp_eq; lia).
  destruct (round_value_floor_ceil m1 e1 H1) as [[Hf1 Hc1] [Hlo1 Hhi1]].
  destruct (round_value_floor_ceil m2 e2 H2) as [[Hf2 Hc2] [Hlo2 Hhi2]].
  destruct (Z.eq_dec (rexp m1 e1) (rexp m2 e2)) as [Heq | Hne].
  - (* the same grid_split *)
    destruct (grid_split m1 e1 H1) as [Hg1 [Hmod1 [HG1 [Hgp1 [Hpw1 Hq1]]]]].
    destruct (grid_split m2 e2 H2) as [Hg2 [Hmod2 [HG2 [Hgp2 [Hpw2 Hq2]]]]].
    unfold round_value, round_mantissa, rne in *. rewrite <- Heq in *.
    set (n1 := rexp m1 e1 - e1) in *. set (n2 := rexp m1 e1 - e2) in *.
    set (q1 := m1 / 2 ^ n1) in *. set (q2 := m2 / 2 ^ n2) in *.
    set (r1 := m1 mod 2 ^ n1) in *. set (r2 := m2 mod 2 ^ n2) in *.
    set (G := 2 ^ (rexp m1 e1 + 2148)) in *.
    set (g1 := 2 ^ (e1 + 2148)) in *. set (g2 := 2 ^ (e2 + 2148)) in *.
    assert (HVG : forall M, scaled M (rexp m1 e1) = M * G) by reflexivity.
    rewrite !HVG in *. rewrite Hg1, Hg2 in Hv.
    assert (HGp : 0 < G) by nia.
    assert (Hq : q1 <= q2) by nia.
    apply Z.mul_le_mono_nonneg_r; [lia |].
    destruct (round_up q1 r1 (2 ^ n1)) eqn:Hup1;
      destruct (round_up q2 r2 (2 ^ n2)) eqn:Hup2; try lia.
    destruct (Z.eq_dec q1 q2) as [Hqq | Hqq]; [| lia].
    exfalso. apply round_up_spec in Hup1.
    assert (Hn2 : ~ (2 ^ n2 < 2 * r2 \/ 2 * r2 = 2 ^ n2 /\ Z.odd q2 = true)).
    { intros C. apply round_up_spec in C. congruence. }
    apply Hn2. rewrite <- Hqq.
    assert (Hr : r1 * g1 <= r2 * g2) by nia.
    destruct Hup1 as [Hgt | [Hhalf Hodd]].
    + left. nia.
    + destruct (Z_lt_le_dec (2 ^ n2) (2 * r2)) as [Hlt | Hle];
        [left; exact Hlt | right]. split; [nia | exact Hodd].
  - (* a coarser grid_split for the greater number *)
    assert (HElt : rexp m1 e1 < rexp m2 e2) by lia.
    assert (Hmaglt : Zdigits2 m1 + e1 < Zdigits2 m2 + e2)
      by (rewrite !rexp_eq in HElt; lia).
    assert (HE2 : rexp m2 e2 = Zdigits2 m2 + e2 - 53)
      by (rewrite !rexp_eq in *; lia).
    pose proof (quotient_normal m2 e2 Hp2 Hr2
                  ltac:(pose proof (rexp_ge m1 e1); lia)) as Hn2.
    apply Z.le_trans with (1 := Hhi1).
    apply Z.le_trans with (2 := Hlo2).
    set (q1 := m1 / 2 ^ (rexp m1 e1 - e1)) in *.
    set (q2 := m2 / 2 ^ (rexp m2 e2 - e2)) in *.
    (* the power of two between the two numbers *)
    apply Z.le_trans with (2 ^ (Zdigits2 m2 + e2 + 2147)).
    + destruct (Z_le_gt_dec (rexp m1 e1) (Zdigits2 m1 + e1)) as [Hin | Hout].
      * (* the next power of two is on the grid_split of the smaller number *)
        apply Z.le_trans with (2 ^ (Zdigits2 m1 + e1 + 2148));
          [| apply Z.pow_le_mono_r; lia].
        pose proof (scaled_bounds m1 e1 Hp1 He1) as [_ Hup].
        pose proof (rexp_ge m1 e1) as HEge.
        assert (Hsplit : 2 ^ (Zdigits2 m1 + e1 + 2148)
                         = 2 ^ (Zdigits2 m1 + e1 - rexp m1 e1)
                           * 2 ^ (rexp m1 e1 + 2148)).
        { rewrite <- Z.pow_add_r by lia. f_equal. lia. }
        rewrite Hsplit in *. unfold scaled in *.
        set (G := 2 ^ (rexp m1 e1 + 2148)) in *.
        set (t := 2 ^ (Zdigits2 m1 + e1 - rexp m1 e1)) in *.
        assert (0 < G) by (apply pow2_pos; lia).
        assert (q1 < t) by nia. nia.
      * (* the smaller number is below its grid_split *)
        assert (Hq0 : q1 = 0).
        { subst q1. apply Z.div_small. split; [lia |].
          pose proof (Zdigits2_bounds m1 Hp1) as [_ Hhi].
          apply Z.lt_le_trans with (1 := Hhi).
          apply Z.pow_le_mono_r; lia. }
        rewrite Hq0. unfold scaled. rewrite Z.mul_1_l.
        apply Z.pow_le_mono_r; lia.
    + unfold scaled. rewrite HE2.
      replace (Zdigits2 m2 + e2 + 2147)
        with (52 + (Zdigits2 m2 + e2 - 53 + 2148)) by lia.
      rewrite (Z.pow_add_r 2 52) by lia.
      apply Z.mul_le_mono_nonneg_r; [| exact Hn2].
      apply Z.pow_nonneg. lia.
Qed.

(** *** Order and value *)

Lemma regular_cases :
  forall x,
    regular x = true ->
    x = fzero
    \/ exists p e, x = S754_finite false p e /\ bounded prec emax p e = true.
Proof.
  intros x H. unfold regular in H.
  apply andb_true_iff in H. destruct H as [H Hn].
  apply andb_true_iff in H. destruct H as [Hv Hf].
  destruct x as [[|] | [|] | | [|] p e]; try discriminate.
  - left. reflexivity.
  - right. exists p, e. split; [reflexivity | exact Hv].
Qed.

Lemma canonical_lt :
  forall p1 e1 p2 e2,
    bounded prec emax p1 e1 = true -> bounded prec emax p2 e2 = true ->
    e1 < e2 -> scaled (Z.pos p1) e1 < scaled (Z.pos p2) e2.
Proof.
  intros p1 e1 p2 e2 H1 H2 He.
  destruct (bounded_roundable p1 e1 H1) as [_ [_ Hlt1]].
  apply bounded_iff in H1, H2.
  destruct H1 as [Hd1 [Hc1 Hr1]]. destruct H2 as [Hd2 [Hc2 Hr2]].
  assert (Hd : Zdigits2 (Z.pos p2) = 53) by lia.
  pose proof (Zdigits2_bounds (Z.pos p2) ltac:(lia)) as [Hlo2 _].
  rewrite Hd in Hlo2. change (53 - 1) with 52 in Hlo2.
  unfold scaled.
  assert (Hg1 : 0 < 2 ^ (e1 + 2148)) by (apply pow2_pos; lia).
  assert (Hstep : 2 * 2 ^ (e1 + 2148) <= 2 ^ (e2 + 2148)).
  { rewrite <- Z.pow_succ_r by lia. apply Z.pow_le_mono_r; lia. }
  change (2 ^ 53) with (2 * 2 ^ 52) in Hlt1. nia.
Qed.

Lemma compare_value :
  forall x y,
    regular x = true -> regular y = true ->
    SFcompare x y = Some (float_value x ?= float_value y).
Proof.
  intros x y Hx Hy.
  destruct (regular_cases x Hx) as [-> | [p1 [e1 [-> H1]]]];
    destruct (regular_cases y Hy) as [-> | [p2 [e2 [-> H2]]]].
  - reflexivity.
  - simpl. destruct (bounded_roundable p2 e2 H2) as [[_ [He _]] _].
    pose proof (scaled_pos (Z.pos p2) e2 ltac:(lia) He) as Hv.
    destruct (scaled (Z.pos p2) e2); try reflexivity; lia.
  - simpl. destruct (bounded_roundable p1 e1 H1) as [[_ [He _]] _].
    pose proof (scaled_pos (Z.pos p1) e1 ltac:(lia) He) as Hv.
    destruct (scaled (Z.pos p1) e1); try reflexivity; lia.
  - simpl. f_equal.
    destruct (Z.compare_spec e1 e2) as [He | He | He].
    + subst e2. change (Pos.compare_cont Eq p1 p2) with (Z.pos p1 ?= Z.pos p2).
      destruct (bounded_roundable p1 e1 H1) as [[_ [He _]] _].
      assert (Hg : 0 < 2 ^ (e1 + 2148)) by (apply pow2_pos; lia).
      unfold scaled. symmetry.
      destruct (Z.compare_spec (Z.pos p1) (Z.pos p2)) as [Hp | Hp | Hp].
      * rewrite Hp. apply Z.compare_refl.
      * apply Z.compare_lt_iff. nia.
      * apply Z.compare_gt_iff. nia.
    + symmetry. apply Z.compare_lt_iff. apply canonical_lt; assumption.
    + symmetry. apply Z.compare_gt_iff. apply canonical_lt; assumption.
Qed.

Lemma fleb_value :
  forall x y,
    regular x = true -> regular y = true ->
    (fleb x y = true <-> float_value x <= float_value y).
Proof.
  intros x y Hx Hy. unfold fleb, SFleb. rewrite (compare_value x y Hx Hy).
  destruct (Z.compare_spec (float_value x) (float_value y)); split; intros;
    try lia;
    try reflexivity; discriminate.
Qed.

Lemma fltb_value :
  forall x y,
    regular x = true -> regular y = true ->
    (fltb x y = true <-> float_value x < float_value y).
Proof.
  intros x y Hx Hy. unfold fltb, SFltb. rewrite (compare_value x y Hx Hy).
  destruct (Z.compare_spec (float_value x) (float_value y)); split; intros;
    try lia;
    try reflexivity; discriminate.
Qed.

(** A regular float is the rounding of itself. *)
Lemma regular_rep :
  forall x,
    regular x = true ->
    exists m e,
      roundable m e /\ -1074 <= e /\ scaled m e = float_value x
      /\ round_exact m e = x /\ round_value m e = float_value x.
Proof.
  intros x Hx.
  destruct (regular_cases x Hx) as [-> | [p [e [-> Hb]]]].
  - exists 0, (-1074). repeat split; try reflexivity; lia.
  - destruct (bounded_roundable p e Hb) as [Hpre [Hr Hlt]].
    destruct (round_exact_id p e Hb) as [HRF HRv].
    apply bounded_iff in Hb.
    exists (Z.pos p), e. repeat split; try assumption; try lia; apply Hpre.
Qed.

(** The rounding of a number is regular when it stays below [2^1024]. *)
Lemma round_exact_regular :
  forall m e,
    roundable m e -> round_value m e < 2 ^ 3172 ->
    regular (round_exact m e) = true
    /\ float_value (round_exact m e) = round_value m e.
Proof.
  intros m e H Hlt.
  destruct (round_exact_valid m e H) as [Hv Hn].
  pose proof (round_exact_finite m e H Hlt) as Hf.
  split; [unfold regular; rewrite Hv, Hf, Hn; reflexivity |].
  apply round_exact_value; assumption.
Qed.

Lemma regular_below : forall x, regular x = true -> float_value x < 2 ^ 3172.
Proof.
  intros x Hx.
  destruct (regular_cases x Hx) as [-> | [p [e [-> Hb]]]]; [reflexivity |].
  destruct (bounded_roundable p e Hb) as [_ [_ Hlt]].
  apply bounded_iff in Hb. simpl float_value. unfold scaled.
  assert (Hg : 0 < 2 ^ (e + 2148)) by (apply pow2_pos; lia).
  assert (Hle : 2 ^ (e + 2148) <= 2 ^ 3119) by (apply Z.pow_le_mono_r; lia).
  change (2 ^ 3172) with (2 ^ 53 * 2 ^ 3119). nia.
Qed.

(** *** The operations *)

Lemma iter_xO :
  forall p d, Z.pos (Pos.iter xO p d) = Z.pos p * 2 ^ Z.pos d.
Proof.
  intros p d. induction d as [| d IH] using Pos.peano_ind.
  - simpl. lia.
  - rewrite Pos.iter_succ, Pos2Z.inj_xO, IH, Pos2Z.inj_succ.
    rewrite Z.pow_succ_r by lia. ring.
Qed.

Lemma shl_align_spec :
  forall mx ex ez,
    ez <= ex ->
    Z.pos (fst (shl_align mx ex ez)) = Z.pos mx * 2 ^ (ex - ez).
Proof.
  intros mx ex ez H. unfold shl_align.
  destruct (ez - ex) as [| d | d] eqn:Hd; try lia.
  - replace (ex - ez) with 0 by lia. simpl fst. lia.
  - simpl fst. rewrite iter_xO. f_equal. f_equal. lia.
Qed.

Lemma shl_align_snd :
  forall mx ex ez, snd (shl_align mx ex ez) = Z.min ex ez.
Proof.
  intros mx ex ez. unfold shl_align.
  destruct (ez - ex) as [| d | d] eqn:Hd; simpl snd; lia.
Qed.

Lemma shl_align_keep :
  forall mx ex ez, ex <= ez -> shl_align mx ex ez = (mx, ex).
Proof.
  intros mx ex ez H. unfold shl_align.
  destruct (ez - ex) as [| d | d] eqn:Hd; try reflexivity. lia.
Qed.

Lemma Zdigits2_shift :
  forall m k, 0 < m -> 0 <= k -> Zdigits2 (m * 2 ^ k) = Zdigits2 m + k.
Proof.
  intros m k Hm Hk.
  pose proof (Zdigits2_bounds m Hm) as [Hlo Hhi].
  pose proof (Zdigits2_pos m Hm) as Hd.
  assert (Hp : 0 < 2 ^ k) by (apply pow2_pos; exact Hk).
  apply Zdigits2_unique; [| nia].
  replace (Zdigits2 m + k - 1) with ((Zdigits2 m - 1) + k) by lia.
  rewrite (Z.pow_add_r 2 (Zdigits2 m - 1) k) by lia.
  rewrite (Z.pow_add_r 2 (Zdigits2 m) k) by lia. nia.
Qed.

Lemma binary_round_rounds :
  forall p e,
    -1074 <= e ->
    rounds (scaled (Z.pos p) e) (binary_round prec emax false p e).
Proof.
  intros p e He. unfold binary_round.
  change (Z.pos (digits2_pos p)) with (Zdigits2 (Z.pos p)).
  fold (rexp (Z.pos p) e).
  destruct (Z_lt_le_dec (rexp (Z.pos p) e) e) as [Hlt | Hge].
  - pose proof (shl_align_spec p e (rexp (Z.pos p) e) ltac:(lia)) as Hm.
    pose proof (shl_align_snd p e (rexp (Z.pos p) e)) as Hs.
    destruct (shl_align p e (rexp (Z.pos p) e)) as [mz ez].
    simpl fst in Hm. simpl snd in Hs.
    pose proof (rexp_ge (Z.pos p) e) as HE.
    assert (Hez : ez = rexp (Z.pos p) e) by lia.
    exists (Z.pos mz), ez. split; [| split; [lia | split; [| reflexivity]]].
    + unfold roundable. split; [lia |]. split; [lia |].
      rewrite (rexp_eq (Z.pos mz)), Hm, Zdigits2_shift by lia.
      rewrite rexp_eq in Hez, Hlt. lia.
    + rewrite Hm, Hez. rewrite scaled_shift by lia. f_equal. lia.
  - rewrite shl_align_keep by exact Hge.
    exists (Z.pos p), e. unfold roundable. repeat split; lia.
Qed.

Lemma round_exact_zero : round_exact 0 (-1074) = fzero.
Proof. reflexivity. Qed.

Lemma binary_normalize_rounds :
  forall D e,
    0 <= D -> -1074 <= e ->
    rounds (scaled D e) (binary_normalize prec emax D e false).
Proof.
  intros D e HD He. destruct D as [| p | p]; [| | lia].
  - exists 0, (-1074). unfold roundable. repeat split; try lia; reflexivity.
  - apply binary_round_rounds. exact He.
Qed.

Lemma regular_rounds : forall x, regular x = true -> rounds (float_value x) x.
Proof.
  intros x Hx. destruct (regular_rep x Hx) as [m [e [Hp [He [Hv [HR _]]]]]].
  exists m, e. repeat split; try assumption; try apply Hp. symmetry. exact HR.
Qed.

Lemma aligned :
  forall p1 e1 p2 e2,
    -1074 <= e1 -> -1074 <= e2 ->
    let ez := Z.min e1 e2 in
    scaled (Z.pos (fst (shl_align p1 e1 ez))) ez = scaled (Z.pos p1) e1
    /\ scaled (Z.pos (fst (shl_align p2 e2 ez))) ez = scaled (Z.pos p2) e2.
Proof.
  intros p1 e1 p2 e2 H1 H2 ez.
  rewrite !shl_align_spec by (subst ez; lia).
  rewrite !scaled_shift by (subst ez; lia).
  split; f_equal; lia.
Qed.

Lemma scaled_add : forall a b e, scaled (a + b) e = scaled a e + scaled b e.
Proof. intros. unfold scaled. ring. Qed.

Lemma scaled_sub : forall a b e, scaled (a - b) e = scaled a e - scaled b e.
Proof. intros. unfold scaled. ring. Qed.

Lemma scaled_nonneg_inv : forall m e, -2148 <= e -> 0 <= scaled m e -> 0 <= m.
Proof.
  intros m e He H. unfold scaled in H.
  assert (0 < 2 ^ (e + 2148)) by (apply pow2_pos; lia). nia.
Qed.

Lemma fsub_rounds :
  forall x y,
    regular x = true -> regular y = true -> float_value y <= float_value x ->
    rounds (float_value x - float_value y) (fsub x y).
Proof.
  intros x y Hx Hy Hle.
  destruct (regular_cases x Hx) as [-> | [p1 [e1 [-> H1]]]];
    destruct (regular_cases y Hy) as [-> | [p2 [e2 [-> H2]]]].
  - apply (regular_rounds fzero). reflexivity.
  - exfalso. apply bounded_iff in H2.
    pose proof (scaled_pos (Z.pos p2) e2 ltac:(lia) ltac:(lia)).
    simpl float_value in Hle. lia.
  - change (float_value fzero) with 0. rewrite Z.sub_0_r.
    apply (regular_rounds (S754_finite false p1 e1)). exact Hx.
  - pose proof H1 as B1. pose proof H2 as B2.
    apply bounded_iff in B1, B2.
    destruct (aligned p1 e1 p2 e2 ltac:(lia) ltac:(lia)) as [A1 A2].
    unfold fsub, SFsub. cbn [cond_Zopp]. simpl float_value in *.
    rewrite <- A1, <- A2, <- scaled_sub.
    apply binary_normalize_rounds; [| lia].
    apply scaled_nonneg_inv with (e := Z.min e1 e2); [lia |].
    rewrite scaled_sub, A1, A2. lia.
Qed.

Lemma fadd_rounds :
  forall x y,
    regular x = true -> regular y = true ->
    rounds (float_value x + float_value y) (fadd x y).
Proof.
  intros x y Hx Hy.
  destruct (regular_cases x Hx) as [-> | [p1 [e1 [-> H1]]]];
    destruct (regular_cases y Hy) as [-> | [p2 [e2 [-> H2]]]].
  - apply (regular_rounds fzero). reflexivity.
  - change (float_value fzero) with 0. rewrite Z.add_0_l.
    apply (regular_rounds (S754_finite false p2 e2)). exact Hy.
  - change (float_value fzero) with 0. rewrite Z.add_0_r.
    apply (regular_rounds (S754_finite false p1 e1)). exact Hx.
  - pose proof H1 as B1. pose proof H2 as B2.
    apply bounded_iff in B1, B2.
    destruct (aligned p1 e1 p2 e2 ltac:(lia) ltac:(lia)) as [A1 A2].
    unfold fadd, SFadd. cbn [cond_Zopp]. simpl float_value in *.
    rewrite <- A1, <- A2, <- scaled_add.
    apply binary_normalize_rounds; lia.
Qed.

(** The product of two regular floats is rounded from the product of the
    mantissas. *)
Lemma fmul_rounds :
  forall x y,
    regular x = true -> regular y = true ->
    exists m e,
      roundable m e
      /\ scaled m e * 2 ^ 2148 = float_value x * float_value y
      /\ fmul x y = round_exact m e.
Proof.
  intros x y Hx Hy.
  assert (Hz : exists m e,
             roundable m e /\ scaled m e * 2 ^ 2148 = 0
             /\ fzero = round_exact m e).
  { exists 0, (-1074). unfold roundable. repeat split; try lia; reflexivity. }
  destruct (regular_cases x Hx) as [-> | [p1 [e1 [-> H1]]]];
    destruct (regular_cases y Hy) as [-> | [p2 [e2 [-> H2]]]];
    try exact Hz.
  - change (float_value fzero) with 0. rewrite Z.mul_0_r. exact Hz.
  - pose proof H1 as B1. pose proof H2 as B2.
    apply bounded_iff in B1, B2.
    exists (Z.pos p1 * Z.pos p2), (e1 + e2). split; [| split].
    + unfold roundable. split; [lia |]. split; [lia |].
      rewrite rexp_eq.
      pose proof (Zdigits2_bounds (Z.pos p1) ltac:(lia)) as [L1 _].
      pose proof (Zdigits2_bounds (Z.pos p2) ltac:(lia)) as [L2 _].
      pose proof (Zdigits2_pos (Z.pos p1) ltac:(lia)) as D1.
      pose proof (Zdigits2_pos (Z.pos p2) ltac:(lia)) as D2.
      assert (Hd : Zdigits2 (Z.pos p1) + Zdigits2 (Z.pos p2) - 1
                   <= Zdigits2 (Z.pos p1 * Z.pos p2)).
      { pose proof (Zdigits2_bounds (Z.pos p1 * Z.pos p2) ltac:(lia))
          as [_ U].
        assert (Hlt : 2 ^ (Zdigits2 (Z.pos p1) - 1 + (Zdigits2 (Z.pos p2) - 1))
                      < 2 ^ Zdigits2 (Z.pos p1 * Z.pos p2)).
        { rewrite Z.pow_add_r by lia. nia. }
        apply Z.pow_lt_mono_r_iff in Hlt; try lia.
        pose proof (Zdigits2_pos (Z.pos p1 * Z.pos p2) ltac:(lia)). lia. }
      lia.
    + simpl float_value. unfold scaled.
      replace (e1 + e2 + 2148 + 2148) with ((e1 + 2148) + (e2 + 2148)) by lia.
      rewrite <- (Z.mul_assoc _ _ (2 ^ 2148)).
      rewrite <- (Z.pow_add_r 2 (e1 + e2 + 2148) 2148) by lia.
      replace (e1 + e2 + 2148 + 2148) with ((e1 + 2148) + (e2 + 2148)) by lia.
      rewrite (Z.pow_add_r 2 (e1 + 2148) (e2 + 2148)) by lia. ring.
    + reflexivity.
Qed.

(** *** The samples of [random.uniform] *)

Lemma float_value_nonneg : forall x, regular x = true -> 0 <= float_value x.
Proof.
  intros x Hx.
  destruct (regular_cases x Hx) as [-> | [p [e [-> Hb]]]]; [simpl; lia |].
  apply bounded_iff in Hb. simpl.
  apply Z.lt_le_incl, scaled_pos; lia.
Qed.

(** A number at most a regular float is rounded to a regular float, at most
    that float. *)
Lemma round_exact_le :
  forall m e y,
    roundable m e -> regular y = true -> scaled m e <= float_value y ->
    regular (round_exact m e) = true
    /\ float_value (round_exact m e) = round_value m e
    /\ round_value m e <= float_value y.
Proof.
  intros m e y Hp Hy Hle.
  destruct (regular_rep y Hy) as [my [ey [Hpy [_ [Hvy [_ HRy]]]]]].
  assert (Hr : round_value m e <= float_value y).
  { rewrite <- HRy. apply round_value_mono; [exact Hp | exact Hpy | lia]. }
  pose proof (regular_below y Hy) as Hb.
  destruct (round_exact_regular m e Hp ltac:(lia)) as [Hreg Hval].
  repeat split; assumption.
Qed.

Lemma round_exact_ge :
  forall m e y,
    roundable m e -> regular y = true -> float_value y <= scaled m e ->
    float_value y <= round_value m e.
Proof.
  intros m e y Hp Hy Hle.
  destruct (regular_rep y Hy) as [my [ey [Hpy [_ [Hvy [_ HRy]]]]]].
  rewrite <- HRy. apply round_value_mono; [exact Hpy | exact Hp | lia].
Qed.

(** The floats below [1.0] are at most [1 - 2^-53]. *)
Lemma below_one :
  forall r,
    regular r = true -> fltb r f1 = true ->
    float_value r <= 2 ^ 2148 - 2 ^ 2095.
Proof.
  intros r Hr Hlt.
  apply (fltb_value r f1 Hr eq_refl) in Hlt.
  change (float_value f1) with (2 ^ 2148) in Hlt.
  destruct (regular_cases r Hr) as [-> | [p [e [-> Hb]]]]; [simpl; lia |].
  destruct (bounded_roundable p e Hb) as [_ [_ Hp]].
  apply bounded_iff in Hb. simpl float_value in *. unfold scaled in *.
  assert (Hg : 0 < 2 ^ (e + 2148)) by (apply pow2_pos; lia).
  destruct (Z_lt_le_dec e (-53)) as [Hsmall | Hbig].
  - assert (2 ^ (e + 2148) <= 2 ^ 2094) by (apply Z.pow_le_mono_r; lia).
    change (2 ^ 2148) with (2 ^ 53 * 2 ^ 2095).
    change (2 ^ 2095) with (2 * 2 ^ 2094). nia.
  - assert (He0 : e < 0).
    { destruct (Z_lt_le_dec e 0) as [H0 | H0]; [exact H0 |].
      assert (2 ^ 2148 <= 2 ^ (e + 2148)) by (apply Z.pow_le_mono_r; lia).
      nia. }
    assert (Hs : 2 ^ 2148 = 2 ^ (- e) * 2 ^ (e + 2148)).
    { rewrite <- Z.pow_add_r by lia. f_equal. lia. }
    assert (Hge : 2 ^ 2095 <= 2 ^ (e + 2148)) by (apply Z.pow_le_mono_r; lia).
    rewrite Hs in Hlt |- *.
    assert (Z.pos p < 2 ^ (- e)) by nia. nia.
Qed.

(** The mantissas with the full 53 bits, and the smaller ones at the
    smallest exponent, are rounded to themselves. *)
Lemma round_value_normal :
  forall q E,
    2 ^ 52 <= q < 2 ^ 53 -> -1074 <= E ->
    roundable q E /\ round_value q E = scaled q E.
Proof.
  intros q E Hq HE.
  assert (Hd : Zdigits2 q = 53) by (apply mantissa_normal; lia).
  assert (Hr : rexp q E = E) by (rewrite rexp_eq; lia).
  split; [unfold roundable; lia |].
  unfold round_value, round_mantissa.
  rewrite Hr, Z.sub_diag, rne_zero_shift. reflexivity.
Qed.

(** When a difference was rounded up, its product with a number below one
    is rounded to at most the difference. *)
Lemma product_below :
  forall md ed mp ep,
    roundable md ed -> -1074 <= ed -> scaled md ed < round_value md ed ->
    roundable mp ep ->
    scaled mp ep * 2 ^ 2148 <= round_value md ed * (2 ^ 2148 - 2 ^ 2095) ->
    round_value mp ep <= scaled md ed.
Proof.
  intros md ed mp ep Hd Hed Hup Hp Hprod.
  pose proof Hd as [Hmd [_ Hrd]].
  destruct (round_value_floor_ceil md ed Hd) as [[Hf Hc] [Hlo Hhi]].
  set (E := rexp md ed) in *. set (q := md / 2 ^ (E - ed)) in *.
  (* the difference was rounded to the next mantissa *)
  assert (HRv : round_value md ed = scaled (q + 1) E).
  { unfold round_value, round_mantissa in *. fold E in Hup, Hlo, Hhi |- *.
    destruct (rne_cases md (E - ed)) as [Hc1 | Hc1]; rewrite Hc1 in *;
      fold q in Hup |- *; [lia | reflexivity]. }
  assert (Hn : ed < E).
  { destruct (Z.eq_dec E ed) as [Heq | ]; [| lia]. exfalso.
    unfold round_value, round_mantissa in Hup. fold E in Hup.
    rewrite Heq, Z.sub_diag, rne_zero_shift in Hup. lia. }
  assert (Hmd0 : 0 < md).
  { destruct (Z.eq_dec md 0) as [Hz | ]; [| lia]. exfalso.
    rewrite Hz in Hup.
    rewrite (round_value_zero ed) in Hup by (rewrite <- Hz; exact Hd).
    rewrite scaled_zero in Hup. lia. }
  pose proof (quotient_normal md ed Hmd0 Hrd ltac:(fold E; lia)) as Hq52.
  pose proof (quotient_bound md ed Hmd Hrd) as [_ Hq53].
  fold E in Hq52, Hq53. fold q in Hq52, Hq53.
  destruct (round_value_normal q E ltac:(lia) ltac:(lia)) as [Hpq HRq].
  rewrite HRv in Hprod.
  assert (HVq : forall M, scaled M E = M * 2 ^ (E + 2148)) by reflexivity.
  set (G := 2 ^ (E + 2148)) in *.
  assert (HG : 0 < G) by (apply pow2_pos; lia).
  (* the product is below the middle of the two mantissas *)
  assert (Hmid : 2 * scaled mp ep < (2 * q + 1) * G).
  { rewrite HVq in Hprod.
    change (2 ^ 2148) with (2 ^ 53 * 2 ^ 2095) in Hprod.
    set (S' := 2 ^ 2095) in *. assert (0 < S') by reflexivity.
    set (y := scaled mp ep) in *.
    assert (Hy : y * 2 ^ 53 <= (q + 1) * G * (2 ^ 53 - 1)) by nia.
    nia. }
  destruct (Z_le_gt_dec (scaled mp ep) (scaled q E)) as [Hle | Hgt].
  - apply Z.le_trans with (round_value q E); [| lia].
    apply round_value_mono; assumption.
  - pose proof Hp as [Hmp [Hep Hrp]].
    assert (Hmp0 : 0 < mp).
    { destruct (Z.eq_dec mp 0) as [Hz | ]; [| lia]. exfalso.
      rewrite Hz, scaled_zero in Hgt. rewrite HVq in Hgt. nia. }
    (* the product is on the grid_split of the difference *)
    assert (HEp : rexp mp ep = E).
    { pose proof (scaled_bounds mp ep Hmp0 Hep) as [Bl Bu].
      rewrite HVq in Hgt.
      assert (L : 2 ^ (52 + (E + 2148)) < 2 ^ (Zdigits2 mp + ep + 2148)).
      { rewrite (Z.pow_add_r 2 52) by lia. fold G. nia. }
      assert (U : 2 ^ (Zdigits2 mp + ep + 2147) < 2 ^ (53 + (E + 2148))).
      { rewrite (Z.pow_add_r 2 53) by lia. fold G. nia. }
      pose proof (Zdigits2_pos mp Hmp0).
      apply Z.pow_lt_mono_r_iff in L; [| lia | lia].
      apply Z.pow_lt_mono_r_iff in U; [| lia | lia].
      rewrite rexp_eq. lia. }
    destruct (grid_split mp ep Hp) as [Hg [Hmod [HGg [Hgp [Hpw Hq']]]]].
    rewrite HEp in Hg, Hmod, HGg, Hpw, Hq'. fold G in Hg, HGg.
    unfold round_value, round_mantissa, rne. rewrite HEp. fold G.
    set (n' := E - ep) in *. set (q' := mp / 2 ^ n') in *.
    set (r' := mp mod 2 ^ n') in *. set (g' := 2 ^ (ep + 2148)) in *.
    rewrite HVq in Hgt, Hf |- *. rewrite Hg in Hgt, Hmid.
    assert (Hrg : 0 <= r' * g' < G) by nia.
    assert (Hqq : q' = q) by nia.
    destruct (round_up q' r' (2 ^ n')) eqn:Hru.
    + exfalso. apply round_up_spec in Hru. rewrite Hqq in Hmid. nia.
    + rewrite Hqq, Z.add_0_r. fold G. lia.
Qed.

(** For regular bounds [lo <= hi] and a number [r] below one, the sample
    [lo + (hi - lo) * r] is within the bounds: the product of the rounded
    difference with [r] is at most the exact difference, so that the exact
    sum is between the bounds, and so is its rounding. *)
Theorem uniform_in_range :
  forall lo hi r,
    regular lo = true -> regular hi = true -> regular r = true ->
    fleb lo hi = true -> fltb r f1 = true ->
    fleb lo (uniform lo hi r) = true /\ fleb (uniform lo hi r) hi = true.
Proof.
  intros lo hi r Hlo Hhi Hr Hle Hr1.
  apply (fleb_value lo hi Hlo Hhi) in Hle.
  pose proof (below_one r Hr Hr1) as Hr1'.
  pose proof (float_value_nonneg r Hr) as Hr0.
  pose proof (float_value_nonneg lo Hlo) as Hlo0.
  unfold uniform.
  (* the difference *)
  destruct (fsub_rounds hi lo Hhi Hlo Hle)
    as [md [ed [Hpd [Hed [Hvd Hd]]]]].
  destruct (round_exact_le md ed hi Hpd Hhi ltac:(lia)) as [Hdreg [Hdval Hdle]].
  rewrite <- Hd in Hdreg, Hdval.
  pose proof (float_value_nonneg _ Hdreg) as Hd0.
  (* the product *)
  destruct (fmul_rounds (fsub hi lo) r Hdreg Hr)
    as [mp [ep [Hpp [Hvp Hp]]]].
  assert (Hple : scaled mp ep <= float_value (fsub hi lo)).
  { assert (scaled mp ep * 2 ^ 2148 <= float_value (fsub hi lo) * 2 ^ 2148)
      by nia.
    assert (0 < 2 ^ 2148) by reflexivity. nia. }
  destruct (round_exact_le mp ep _ Hpp Hdreg Hple) as [Hpreg [Hpval Hpled]].
  rewrite <- Hp in Hpreg, Hpval.
  pose proof (float_value_nonneg _ Hpreg) as Hp0.
  assert (Hcore : float_value (fmul (fsub hi lo) r)
                  <= float_value hi - float_value lo).
  { destruct (Z_le_gt_dec (float_value (fsub hi lo))
                (float_value hi - float_value lo)) as [Hdown | Hup].
    - lia.
    - rewrite Hpval, <- Hvd. apply product_below; try assumption.
      + rewrite <- Hdval, Hvd. lia.
      + rewrite Hvp, <- Hdval. apply Z.mul_le_mono_nonneg_l; lia. }
  (* the sum *)
  destruct (fadd_rounds lo _ Hlo Hpreg) as [ms [es [Hps [Hes [Hvs Hs]]]]].
  destruct (round_exact_le ms es hi Hps Hhi ltac:(lia)) as [Hsreg [Hsval Hsle]].
  pose proof (round_exact_ge ms es lo Hps Hlo ltac:(lia)) as Hsge.
  rewrite <- Hs in Hsreg, Hsval.
  split.
  - apply (fleb_value _ _ Hlo Hsreg). lia.
  - apply (fleb_value _ _ Hsreg Hhi). lia.
Qed.

(** *** Validity of the parsed numbers *)

Lemma binary_round_aux_valid :
  forall m e l,
    0 <= m -> e <= rexp m e ->
    valid (binary_round_aux prec emax false m e l) = true.
Proof.
  intros m e l Hm He.
  destruct (binary_round_aux_shape m e l Hm He) as [M [HM [_ ->]]].
  pose proof (quotient_bound m e Hm He) as Hq.
  apply pack_valid; [destruct HM; lia | apply rexp_ge |].
  intros HE.
  assert (Hm0 : 0 < m).
  { destruct (Z.eq_dec m 0) as [-> | ]; [| lia].
    rewrite rexp_eq in *. simpl Zdigits2 in *. lia. }
  pose proof (quotient_normal m e Hm0 He HE). destruct HM; lia.
Qed.

Lemma float_of_ratio_valid :
  forall n d, 0 <= n -> 0 < d -> valid (float_of_ratio n d) = true.
Proof.
  intros n d Hn Hd. unfold float_of_ratio.
  destruct n as [| p | p]; [reflexivity | | lia].
  unfold SFdiv_core_binary.
  rewrite !Z.add_0_r, Z.sub_diag, fexp_eq.
  set (d1 := Zdigits2 (Z.pos p)). set (d2 := Zdigits2 d).
  set (e' := Z.min (Z.max (d1 - d2 - 53) (-1074)) 0).
  set (s := 0 - e').
  set (m' := match s with
             | Z0 => Z.pos p
             | Z.pos _ => Z.shiftl (Z.pos p) s
             | Z.neg _ => 0
             end).
  assert (Hs : 0 <= s) by (subst s e'; lia).
  assert (Hm' : m' = Z.pos p * 2 ^ s).
  { subst m'. destruct s as [| s' | s'] eqn:Es; try lia.
    rewrite Z.shiftl_mul_pow2 by lia. reflexivity. }
  assert (Hps : 0 < 2 ^ s) by (apply pow2_pos; exact Hs).
  assert (Hq0 : 0 <= m' / d) by (apply Z.div_pos; nia).
  assert (Hq : -1074 < e' -> 2 ^ 52 <= m' / d).
  { intros He'.
    pose proof (Zdigits2_bounds (Z.pos p) ltac:(lia)) as [L1 _].
    pose proof (Zdigits2_bounds d Hd) as [_ U2].
    pose proof (Zdigits2_pos (Z.pos p) ltac:(lia)) as D1.
    pose proof (Zdigits2_pos d Hd) as D2.
    fold d1 in L1, D1. fold d2 in U2, D2.
    apply Z.div_le_lower_bound; [exact Hd |].
    rewrite Hm'.
    assert (Hle : 2 ^ (52 + d2) <= 2 ^ (d1 - 1 + s)).
    { apply Z.pow_le_mono_r; subst s e'; lia. }
    rewrite (Z.pow_add_r 2 52 d2) in Hle by lia.
    rewrite (Z.pow_add_r 2 (d1 - 1) s) in Hle by lia.
    nia. }
  unfold Z.div in Hq0, Hq. destruct (Z.div_eucl m' d) as [q r].
  apply binary_round_aux_valid; [exact Hq0 |].
  rewrite rexp_eq.
  destruct (Z_le_gt_dec e' (-1074)) as [Hsmall | Hbig]; [lia |].
  pose proof (Hq ltac:(lia)) as Hq52.
  assert (53 <= Zdigits2 q); [| subst e'; lia].
  pose proof (Zdigits2_bounds q ltac:(lia)) as [_ U].
  assert (Hlt : 2 ^ 52 < 2 ^ Zdigits2 q) by lia.
  pose proof (Zdigits2_pos q ltac:(lia)).
  apply Z.pow_lt_mono_r_iff in Hlt; lia.
Qed.

(** The product of two valid floats that are not negative is valid. *)
Lemma fmul_valid :
  forall x y,
    valid x = true -> nonneg x = true ->
    valid y = true -> nonneg y = true ->
    valid (fmul x y) = true.
Proof.
  intros x y Vx Nx Vy Ny.
  destruct x as [[|] | [|] | | [|] p1 e1]; try discriminate;
    destruct y as [[|] | [|] | | [|] p2 e2]; try discriminate;
    try reflexivity.
  assert (Hx : regular (S754_finite false p1 e1) = true)
    by (unfold regular; rewrite Vx; reflexivity).
  assert (Hy : regular (S754_finite false p2 e2) = true)
    by (unfold regular; rewrite Vy; reflexivity).
  destruct (fmul_rounds _ _ Hx Hy) as [m [e [Hp [_ ->]]]].
  apply round_exact_valid. exact Hp.
Qed.

End BinaryRounding.

(** *** The floats of a delay *)

Lemma py_float_valid :
  forall s value, py_float s = Some value -> valid value = true.
Proof.
  intros s value H. unfold py_float in H.
  destruct (read_digits 0 0 s) as [[ni ci] r].
  destruct r as [| c r'].
  - destruct ci; [discriminate |]. inversion H.
    apply float_of_ratio_valid; lia.
  - destruct (char_eqb c DOT); [| discriminate].
    destruct (read_digits ni 0 r') as [[n cf] r''].
    destruct r''; [| discriminate].
    destruct (ci + cf)%nat; [discriminate |]. inversion H.
    apply float_of_ratio_valid; [lia |].
    apply Z.pow_pos_nonneg; lia.
Qed.

(** A duration is a number of binary64, or [+inf]. *)
Lemma parse_duration_valid :
  forall s v, parse_duration s = Ok v -> valid v = true.
Proof.
  intros s v H. unfold parse_duration in H.
  destruct (_DURATION_RE s) as [[g1 g2] |]; [| discriminate].
  destruct (py_float g1) as [value |] eqn:Hv; [| discriminate].
  pose proof (py_float_valid _ _ Hv) as Hvalid.
  apply py_float_nonneg in Hv.
  destruct (factor_of _) as [factor |] eqn:Hf; [| discriminate].
  inversion H.
  assert (Hfactor : valid factor = true /\ nonneg factor = true).
  { unfold factor_of in Hf.
    repeat match type of Hf with
           | context [if ?c then _ else _] => destruct c
           end; inversion Hf; split; reflexivity. }
  apply fmul_valid; tauto.
Qed.

Lemma finite_below :
  forall lo hi,
    nonneg lo = true -> fleb lo hi = true -> finite hi = true ->
    finite lo = true.
Proof.
  intros [[|] | [|] | | [|] ml el] [sh | sh | | sh mh eh] Hn Hle Hf;
    try discriminate; reflexivity.
Qed.

Lemma min_max_valid :
  forall a b,
    valid a = true -> valid b = true ->
    valid (py_min a b) = true /\ valid (py_max a b) = true.
Proof.
  intros a b Ha Hb. unfold py_min, py_max.
  destruct (fltb b a), (fltb a b); auto.
Qed.

(** ** The delay getter *)

(** The bounds of a range are regular floats when the upper one is
    finite. *)
Lemma bounds_regular :
  forall left_ right_ a b,
    parse_duration left_ = Ok a ->
    parse_duration right_ = Ok b ->
    finite (py_max a b) = true ->
    regular (py_min a b) = true /\ regular (py_max a b) = true.
Proof.
  intros left_ right_ a b Ha Hb Hfin.
  pose proof (parse_duration_nonneg _ _ Ha) as Hna.
  pose proof (parse_duration_nonneg _ _ Hb) as Hnb.
  destruct (order_of_bounds a b Hna Hnb) as [_ [Hle [Hnmin Hnmax]]].
  destruct (min_max_valid a b (parse_duration_valid _ _ Ha)
              (parse_duration_valid _ _ Hb)) as [Hvmin Hvmax].
  pose proof (finite_below _ _ Hnmin Hle Hfin) as Hfmin.
  unfold regular. rewrite Hvmin, Hvmax, Hfmin, Hfin, Hnmin, Hnmax.
  split; reflexivity.
Qed.

(** Two bounds beyond the largest float: every sample is a NaN. *)
Lemma uniform_of_infinities :
  forall r, uniform infinity infinity r = S754_nan.
Proof. intros r. unfold uniform, fsub. simpl. destruct r; reflexivity. Qed.

(** C3. For a specification [a-b] whose two parts parse as durations, the
    getter holds the bounds (min(a, b), max(a, b)), each clamped at zero,
    whatever the order of the two parts, with the lower bound at most the upper
    one; when the upper bound is finite, every value it returns, that is
    [lo + (hi - lo) * r] for the number [r] of the random generator, is within
    these bounds. For a specification without hyphen that parses, the getter
    returns the parsed value at every call. *)
Theorem delay_getter_bounds :
  (forall left_ right_ a b,
      parse_duration left_ = Ok a ->
      parse_duration right_ = Ok b ->
      let lo := py_max fzero (py_min a b) in
      let hi := py_max fzero (py_max a b) in
      build_delay_getter (left_ ++ HYPHEN :: right_) = Ok (RangeDelay lo hi)
      /\ fleb lo hi = true
      /\ (finite hi = true ->
          forall r,
            unit_interval r = true ->
            fleb lo (next_delay (RangeDelay lo hi) r) = true
            /\ fleb (next_delay (RangeDelay lo hi) r) hi = true))
  /\ (forall spec v,
         contains HYPHEN spec = false ->
         parse_duration spec = Ok v ->
         build_delay_getter spec = Ok (FixedDelay v)
         /\ forall r, next_delay (FixedDelay v) r = v).
Proof.
  split.
  - intros left_ right_ a b Ha Hb lo hi.
    pose proof (parse_duration_nonneg _ _ Ha) as Hna.
    pose proof (parse_duration_nonneg _ _ Hb) as Hnb.
    destruct (order_of_bounds a b Hna Hnb) as [Hpair [Hle [Hnmin Hnmax]]].
    assert (Hlo : lo = py_min a b) by (apply clamp_nonneg; exact Hnmin).
    assert (Hhi : hi = py_max a b) by (apply clamp_nonneg; exact Hnmax).
    destruct (split_once_at HYPHEN left_ right_
                (duration_has_no_hyphen _ _ Ha)) as [Hsplit Hcont].
    split.
    { unfold build_delay_getter. rewrite Hcont, Hsplit, Ha, Hb, Hpair.
      fold lo. rewrite Hhi. reflexivity. }
    split; [rewrite Hlo, Hhi; exact Hle |].
    intros Hfin r Hr. rewrite Hlo, Hhi in *. clear lo hi Hlo Hhi.
    destruct (bounds_regular _ _ a b Ha Hb Hfin) as [Hrlo Hrhi].
    unfold unit_interval in Hr. apply andb_true_iff in Hr.
    destruct Hr as [Hreg Hlt].
    cbn [next_delay].
    apply uniform_in_range; assumption.
  - intros spec v Hnone Hv. split; [| reflexivity].
    unfold build_delay_getter. rewrite Hnone, Hv.
    rewrite (clamp_nonneg v (parse_duration_nonneg _ _ Hv)). reflexivity.
Qed.

(** The specifications "2m-1m" and "90": bounds 60 and 120 seconds, in this
    order, with the sample for [r = 0.5] at most 120 seconds, and the fixed
    value 90 seconds. *)
Lemma delay_getter_bounds_witness :
  (build_delay_getter (lit "2m-1m")
   = Ok (RangeDelay (S754_finite false 8444249301319680 (-47))
           (S754_finite false 8444249301319680 (-46)))
   /\ fleb (next_delay (RangeDelay (S754_finite false 8444249301319680 (-47))
                          (S754_finite false 8444249301319680 (-46)))
              half)
        (S754_finite false 8444249301319680 (-46)) = true)
  /\ build_delay_getter (lit "90")
     = Ok (FixedDelay (S754_finite false 6333186975989760 (-46))).
Proof.
  destruct delay_getter_bounds as [Hrange Hfixed].
  split.
  - destruct (Hrange (lit "2m") (lit "1m")
                (S754_finite false 8444249301319680 (-46))
                (S754_finite false 8444249301319680 (-47))
                eq_refl eq_refl) as [Hbuild [_ Hsample]].
    split; [exact Hbuild |].
    exact (proj2 (Hsample eq_refl half eq_refl)).
  - exact (proj1 (Hfixed (lit "90") _ eq_refl eq_refl)).
Defined.

(** The specification of two numbers of 400 digits: both parts parse, to
    [+inf]; the bounds are [+inf] and [+inf], and the sample for [r = 0.5] is
    a NaN, which is not at least the lower bound. *)
Lemma overflowing_range_samples_nan :
  parse_duration nines = Ok infinity
  /\ build_delay_getter (nines ++ HYPHEN :: nines)
     = Ok (RangeDelay infinity infinity)
  /\ unit_interval half = true
  /\ next_delay (RangeDelay infinity infinity) half = S754_nan
  /\ fleb infinity (next_delay (RangeDelay infinity infinity) half) = false.
Proof. vm_compute. repeat split. Qed.

(* ================================================================== *)
(** ** The properties on example runs *)

(** The two lines "a" and "b" on an absent file give two writes, "a" and
    "a", "b", each line with its line feed. *)
Lemma one_write_per_line_witness :
  map p_content (writes (events (main example_args accepting_world)))
  = [lit "a" ++ [LF]; lit "a" ++ [LF] ++ lit "b" ++ [LF]]
  /\ map p_message (writes (events (main example_args accepting_world)))
     = [lit "chore: append line 1/2: a"; lit "chore: append line 2/2: b"].
Proof.
  destruct (one_write_per_line example_args accepting_world
              (FixedDelay fzero) two_lines
              eq_refl eq_refl eq_refl eq_refl eq_refl eq_refl eq_refl eq_refl)
    as [Hlive _].
  - intros rq _. eexists. reflexivity.
  - destruct Hlive as [_ [Hcontent [Hmessage _]]].
    + reflexivity.
    + intros [| k] rq Hk _; [lia | reflexivity].
    + reflexivity.
    + split; [exact Hcontent | exact Hmessage].
Defined.

(** The claim fails on a text that UTF-8 cannot encode: the live run on the
    one line of [unencodable_text], with the file absent and a world that
    accepts every write, sends the fetch and no write, and ends with exit
    status 1. *)
Lemma unencodable_text_is_not_written :
  splitlines unencodable_text = [[56575]]
  /\ dry_run unencodable_args = false
  /\ http_events (events (main unencodable_args accepting_world))
     = [(0%nat, example_fetch, not_found)]
  /\ writes (events (main unencodable_args accepting_world)) = []
  /\ exit_status (main unencodable_args accepting_world) = 1%Z.
Proof. repeat split; reflexivity. Qed.

(** The second write refused: exit status 1 after two writes and one
    commit. *)
Lemma refused_write_halts_witness :
  exit_status (main example_args refusing_world) = 1%Z
  /\ List.length (writes (events (main example_args refusing_world))) = 2%nat
  /\ confirmed_commits (events (main example_args refusing_world)) = 1%nat.
Proof.
  destruct (refused_write_halts example_args refusing_world 2
              (line_request example_args (lit "owner") (lit "name")
                 (lit "secret") 2 2 (lit "b")
                 {| current_text := lit "a" ++ [LF];
                    file_sha := JStr (lit "abc");
                    committed := 1 |})
              409 (JObj [(lit "message", JStr (lit "conflict"))]))
    as [Hstatus [Hwrites [Hcommits _]]].
  - vm_compute. tauto.
  - reflexivity.
  - reflexivity.
  - exact (conj Hstatus (conj Hwrites Hcommits)).
Defined.

(** The dry run of the example: no write, no pause, two messages. *)
Lemma dry_run_sends_nothing_witness :
  writes (events (main (args_of (Some (lit "secret")) (lit "0") two_lines true)
                    accepting_world)) = []
  /\ pauses (events (main (args_of (Some (lit "secret")) (lit "0") two_lines true)
                       accepting_world)) = [].
Proof.
  destruct (dry_run_sends_nothing
              (args_of (Some (lit "secret")) (lit "0") two_lines true)
              accepting_world eq_refl)
    as [Hwrites [_ [_ [Hpauses _]]]].
  exact (conj Hwrites Hpauses).
Defined.

(** A file found with the token "abc": the first write carries "abc". *)
Lemma first_write_token_witness :
  exists p rest content,
    writes (events (main example_args (finding_world (JStr (lit "abc")))))
    = p :: rest
    /\ fetch_result (finding_world (JStr (lit "abc"))) example_fetch
       = Ok (Some content, JStr (lit "abc"))
    /\ p_sha p = Some (JStr (lit "abc")).
Proof.
  eexists. eexists. eexists. split; [reflexivity |]. split; [reflexivity |].
  destruct (first_write_token example_args (finding_world (JStr (lit "abc")))
              _ _ eq_refl)
    as [rq [_ [_ [[sha [Hfetch _]] | [content [sha [Hfetch Hsha]]]]]]].
  - discriminate Hfetch.
  - rewrite Hsha. inversion Hfetch. reflexivity.
Defined.

(** The claim fails on an empty token: the fetch finds the file and returns
    the token "", and the first write carries no token. *)
Lemma empty_token_is_not_sent :
  fetch_result (finding_world (JStr [])) example_fetch
  = Ok (Some (lit "x" ++ [LF]), JStr [])
  /\ In (Http 0 example_fetch (found (JStr (lit "x" ++ [LF])) (JStr [])))
       (events (main example_args (finding_world (JStr []))))
  /\ map p_sha (writes (events (main example_args (finding_world (JStr [])))))
     = [None; Some (JStr (lit "def"))].
Proof.
  split; [reflexivity |]. split; [left; reflexivity | reflexivity].
Qed.

(** A buffer "x" with two line feeds goes into the append as it is, a buffer
    "x" with one line feed added; and on the example, with the file fetched as
    "x" and a line feed, every content sent ends with a line feed. *)
Lemma buffer_ends_with_line_feed_witness :
  ensure_newline (lit "x" ++ [LF; LF]) = lit "x" ++ [LF; LF]
  /\ ensure_newline (lit "x") = lit "x" ++ [LF]
  /\ forallb (fun p => endswith_LF (p_content p))
       (writes (events (main example_args (finding_world (JStr (lit "abc"))))))
     = true.
Proof.
  destruct (buffer_ends_with_line_feed example_args
              (finding_world (JStr (lit "abc"))))
    as [Hline Hsent].
  split.
  { destruct (Hline (FixedDelay fzero) (lit "owner") (lit "name")
                (lit "secret") 2%nat 1%nat (lit "a")
                {| current_text := lit "x" ++ [LF; LF];
                   file_sha := JNull; committed := 0 |})
      as [Hkept _].
    exact (Hkept eq_refl). }
  split.
  { destruct (Hline (FixedDelay fzero) (lit "owner") (lit "name")
                (lit "secret") 2%nat 1%nat (lit "a")
                {| current_text := lit "x";
                   file_sha := JNull; committed := 0 |})
      as [_ [Hadded _]].
    apply Hadded; [discriminate | reflexivity]. }
  apply forallb_forall. intros p Hp. exact (Hsent p Hp).
Defined.

(** A missing token and a delay that does not parse give the same exit
    status, 2, not two distinct ones. *)
Lemma missing_token_and_bad_delay_share_status :
  given (resolve_token (args_of None (lit "0") two_lines false) accepting_world)
  = false
  /\ given (resolve_token (args_of (Some (lit "secret")) (lit "abc") two_lines false)
              accepting_world) = true
  /\ contains SLASH (repo (args_of (Some (lit "secret")) (lit "abc") two_lines false))
     = true
  /\ build_delay_getter (delay (args_of (Some (lit "secret")) (lit "abc") two_lines false))
     = Raise (InvalidDuration (lit "abc"))
  /\ exit_status (main (args_of None (lit "0") two_lines false) accepting_world)
     = exit_status (main (args_of (Some (lit "secret")) (lit "abc") two_lines false)
                      accepting_world).
Proof. repeat split; reflexivity. Qed.

(** The exit statuses of the example: 2 without token, 1 when the second
    write is refused, 130 when the second write is interrupted; and the return
    code -2 when the fetch is interrupted. *)
Lemma exit_status_by_failure_witness :
  exit_status (main (args_of None (lit "0") two_lines false) accepting_world) = 2%Z
  /\ exit_status (main example_args refusing_world) = 1%Z
  /\ exit_status (main example_args interrupted_world) = 130%Z
  /\ In (Stderr Interrupted) (events (main example_args interrupted_world))
  /\ exit_status (main example_args interrupted_fetch_world) = (-2)%Z.
Proof.
  split.
  { exact (proj1 (exit_status_by_failure
                    (args_of None (lit "0") two_lines false) accepting_world)
             eq_refl). }
  split.
  { destruct (exit_status_by_failure example_args refusing_world)
      as [_ [_ [_ [_ [_ [Hwrite _]]]]]].
    apply (Hwrite 2%nat
             (line_request example_args (lit "owner") (lit "name")
                (lit "secret") 2 2 (lit "b")
                {| current_text := lit "a" ++ [LF];
                   file_sha := JStr (lit "abc");
                   committed := 1 |})
             409%Z (JObj [(lit "message", JStr (lit "conflict"))])).
    - vm_compute. tauto.
    - reflexivity.
    - reflexivity. }
  destruct (exit_status_by_failure example_args interrupted_world)
    as [_ [_ [_ [_ [_ [_ [Hloop _]]]]]]].
  destruct (Hloop (Http 2
                     (line_request example_args (lit "owner") (lit "name")
                        (lit "secret") 2 2 (lit "b")
                        {| current_text := lit "a" ++ [LF];
                           file_sha := JStr (lit "abc");
                           committed := 1 |})
                     (Raised KeyboardInterrupt)))
    as [Hstatus Hnotice].
  { vm_compute. tauto. }
  { reflexivity. }
  split; [exact Hstatus |]. split; [exact (Hnotice eq_refl) |].
  destruct (exit_status_by_failure example_args interrupted_fetch_world)
    as [_ [_ [_ [_ [_ [_ [Hfetch _]]]]]]].
  destruct (Hfetch (Http 0 example_fetch (Raised KeyboardInterrupt)))
    as [Hcode _].
  { vm_compute. tauto. }
  { reflexivity. }
  exact Hcode.
Defined.

(** " 5.25 Ms " is 5.25 times 0.001 seconds. *)
Lemma parse_duration_value_witness :
  parse_duration (lit " 5.25 Ms ")
  = Ok (fmul (S754_finite false 5910974510923776 (-50)) f0_001).
Proof.
  destruct parse_duration_value as [Hvalue _].
  assert (Hnum : number_text (lit "5.25")).
  { apply (with_fraction (lit "5") (lit "25")); split;
      (discriminate || reflexivity). }
  destruct (Hvalue [SPACE] (lit "5.25") [SPACE] [SPACE]
              (S754_finite false 5910974510923776 (-50))
              eq_refl eq_refl eq_refl Hnum eq_refl)
    as [_ [Hms _]].
  apply (Hms (lit "Ms")). repeat constructor.
Defined.

(** A name alone gives a request without committer. *)
Lemma put_file_committer_witness :
  exists rq p,
    events (put_file accepting_world 1 (lit "owner") (lit "name")
              (lit "notes.txt") (lit "main") (lit "m") (lit "t") (lit "secret")
              JNull (Some (lit "Ann")) None)
    = [Http 1 rq (http accepting_world 1 rq)]
    /\ rq_data rq = Some p
    /\ p_committer p = None.
Proof.
  destruct (put_file_committer accepting_world 1 (lit "owner") (lit "name")
              (lit "notes.txt") (lit "main") (lit "m") (lit "t") (lit "secret")
              JNull (Some (lit "Ann")) None)
    as [rq [p [Hev [_ [Hdata [_ Hnone]]]]]].
  exists rq, p. split; [exact Hev |]. split; [exact Hdata |].
  apply Hnone. right. reflexivity.
Defined.

(* ================================================================== *)
(** * Further properties *)

(** ** [shorten] *)

Lemma lstrip_app_last :
  forall l c, isspace c = false -> lstrip (l ++ [c]) = lstrip l ++ [c].
Proof.
  induction l as [| x l IH]; intros c Hc; simpl.
  - rewrite Hc. reflexivity.
  - destruct (isspace x); [apply IH; exact Hc | reflexivity].
Qed.

Lemma lstrip_head :
  forall s, stops isspace (lstrip s).
Proof.
  induction s as [| c s IH]; simpl; [exact I |].
  destruct (isspace c) eqn:Hc; [exact IH | simpl; exact Hc].
Qed.

Lemma lstrip_fixed :
  forall s, stops isspace s -> lstrip s = s.
Proof.
  intros [| c s] H; [reflexivity |]. simpl in *. rewrite H. reflexivity.
Qed.

Lemma strip_stripped : forall s, stripped (strip s).
Proof.
  intros s. unfold stripped, strip, rstrip. rewrite rev_involutive.
  split; [| apply lstrip_head].
  pose proof (lstrip_head s) as H.
  destruct (lstrip s) as [| c t]; [exact I |].
  simpl in H. simpl rev. rewrite (lstrip_app_last _ _ H), rev_app_distr.
  simpl. exact H.
Qed.

Lemma strip_fixed : forall s, stripped s -> strip s = s.
Proof.
  intros s [H1 H2]. unfold strip, rstrip.
  rewrite (lstrip_fixed s H1), (lstrip_fixed _ H2). apply rev_involutive.
Qed.

Lemma isspace_LF : isspace LF = true.
Proof. reflexivity. Qed.

Lemma replace_head :
  forall s, stops isspace s -> stops isspace (replace_LF_by_space s).
Proof.
  intros [| c s] H; [exact I |]. simpl in *.
  destruct (char_eqb c LF) eqn:E; [| exact H].
  apply N.eqb_eq in E. subst c. discriminate.
Qed.

Lemma replace_stripped :
  forall s, stripped s -> stripped (replace_LF_by_space s).
Proof.
  intros s [H1 H2]. split; [apply replace_head; exact H1 |].
  unfold replace_LF_by_space. rewrite <- map_rev.
  apply (replace_head (rev s)). exact H2.
Qed.

Lemma replace_no_LF : forall s, contains LF (replace_LF_by_space s) = false.
Proof.
  induction s as [| c s IH]; [reflexivity |]. simpl. rewrite IH.
  destruct (char_eqb c LF) eqn:E; [reflexivity |]. rewrite E. reflexivity.
Qed.

Lemma replace_fixed :
  forall s, contains LF s = false -> replace_LF_by_space s = s.
Proof.
  induction s as [| c s IH]; intros H; [reflexivity |]. simpl in *.
  apply orb_false_iff in H. destruct H as [Hc Hs].
  rewrite Hc, (IH Hs). reflexivity.
Qed.

Lemma contains_firstn :
  forall c n s, contains c s = false -> contains c (firstn n s) = false.
Proof.
  intros c n. induction n as [| n IH]; intros [| x s] H; try reflexivity.
  simpl in *. apply orb_false_iff in H. destruct H as [Hx Hs].
  rewrite Hx, (IH s Hs). reflexivity.
Qed.

Lemma contains_snoc :
  forall c s x, contains c (s ++ [x]) = contains c s || char_eqb x c.
Proof.
  intros c s x. rewrite contains_app. simpl. rewrite orb_false_r. reflexivity.
Qed.

(** What [shorten] returns, by the text [t] after the strip and the
    replacement. *)
Lemma shorten_cases :
  forall s,
    let t := replace_LF_by_space (strip s) in
    stripped t /\ contains LF t = false
    /\ ((List.length t <= 60)%nat /\ shorten s = t
        \/ (60 < List.length t)%nat
           /\ shorten s = firstn 59 t ++ [ELLIPSIS]).
Proof.
  intros s t. split; [apply replace_stripped, strip_stripped |].
  split; [apply replace_no_LF |].
  unfold shorten. fold t.
  destruct (Nat.leb_spec (List.length t) 60); [left | right]; auto.
Qed.

Lemma truncated_stripped :
  forall t,
    stripped t -> (60 < List.length t)%nat ->
    stripped (firstn 59 t ++ [ELLIPSIS]).
Proof.
  intros t [H1 _] Hlen. split.
  - destruct t as [| c t]; [simpl in Hlen; lia |]. exact H1.
  - rewrite rev_app_distr. reflexivity.
Qed.

(** X1. The preview [shorten] makes of a line has at most 60 characters and
    no line feed; a text that is longer after the strip is cut to 59
    characters and the ellipsis. *)
Theorem shorten_bounded :
  forall s,
    (List.length (shorten s) <= 60)%nat
    /\ contains LF (shorten s) = false
    /\ ((List.length (strip s) <= 60)%nat
        \/ List.length (shorten s) = 60%nat
           /\ exists p, shorten s = p ++ [ELLIPSIS]).
Proof.
  intros s.
  destruct (shorten_cases s) as [_ [Hno [[Hlen ->] | [Hlen ->]]]].
  - split; [exact Hlen |]. split; [exact Hno |]. left.
    unfold replace_LF_by_space in Hlen. rewrite length_map in Hlen.
    exact Hlen.
  - assert (Hcut : List.length (firstn 59 (replace_LF_by_space (strip s))
                                 ++ [ELLIPSIS]) = 60%nat).
    { rewrite length_app, length_firstn. cbn [List.length]. lia. }
    split; [lia |]. split.
    + rewrite contains_snoc, (contains_firstn _ _ _ Hno). reflexivity.
    + right. split; [exact Hcut | eexists; reflexivity].
Qed.

(** X2. Shortening a preview again changes nothing. *)
Theorem shorten_idempotent :
  forall s, shorten (shorten s) = shorten s.
Proof.
  intros s.
  destruct (shorten_cases s) as [Hst [Hno [[Hlen Heq] | [Hlen Heq]]]];
    rewrite Heq.
  - unfold shorten at 1.
    rewrite (strip_fixed _ Hst), (replace_fixed _ Hno).
    apply Nat.leb_le in Hlen. rewrite Hlen. reflexivity.
  - set (t := replace_LF_by_space (strip s)) in *.
    assert (Hcut : List.length (firstn 59 t ++ [ELLIPSIS]) = 60%nat).
    { rewrite length_app, length_firstn. cbn [List.length]. lia. }
    assert (Hno' : contains LF (firstn 59 t ++ [ELLIPSIS]) = false).
    { rewrite contains_snoc, (contains_firstn _ _ _ Hno). reflexivity. }
    unfold shorten.
    rewrite (strip_fixed _ (truncated_stripped t Hst Hlen)).
    rewrite (replace_fixed _ Hno'), Hcut. reflexivity.
Qed.

(** ** Lines *)

Lemma single_line_snoc :
  forall l c,
    single_line l = true -> is_linebreak c = false ->
    single_line (l ++ [c]) = true.
Proof.
  intros l c Hl Hc. unfold single_line in *.
  rewrite forallb_app, Hl. simpl. rewrite Hc. reflexivity.
Qed.

Lemma splitlines_from_single :
  forall n s cur,
    (List.length s <= n)%nat ->
    single_line cur = true ->
    Forall (fun l => single_line l = true) (splitlines_from cur s).
Proof.
  induction n as [| n IH]; intros s cur Hn Hcur.
  - destruct s; [| simpl in Hn; lia]. simpl.
    destruct cur; constructor; [exact Hcur | constructor].
  - destruct s as [| c s']; simpl.
    { destruct cur; constructor; [exact Hcur | constructor]. }
    simpl in Hn.
    destruct (is_linebreak c) eqn:Hc.
    + destruct s' as [| c' s'']; [constructor; [exact Hcur | constructor] |].
      simpl in Hn.
      destruct (char_eqb c CR && char_eqb c' LF); constructor;
        try exact Hcur; apply IH; try reflexivity; simpl; lia.
    + apply IH; [lia |]. apply single_line_snoc; assumption.
Qed.

Lemma splitlines_from_line :
  forall l cur rest,
    single_line l = true ->
    splitlines_from cur (l ++ LF :: rest)
    = (cur ++ l) :: splitlines_from [] rest.
Proof.
  induction l as [| c l IH]; intros cur rest Hl.
  - rewrite app_nil_r. cbn [app splitlines_from].
    change (is_linebreak LF) with true. cbv iota.
    destruct rest; reflexivity.
  - simpl in Hl. apply andb_true_iff in Hl. destruct Hl as [Hc Hl].
    apply negb_true_iff in Hc.
    cbn [app splitlines_from]. rewrite Hc.
    rewrite IH by exact Hl. rewrite <- app_assoc. reflexivity.
Qed.

Lemma splitlines_terminated :
  forall lines,
    Forall (fun l => single_line l = true) lines ->
    splitlines (terminated lines) = lines.
Proof.
  intros lines H. unfold splitlines.
  induction H as [| l ls Hl Hls IH]; [reflexivity |].
  change (terminated (l :: ls)) with ((l ++ [LF]) ++ terminated ls).
  rewrite <- app_assoc. cbn [app].
  rewrite (splitlines_from_line l [] _ Hl), IH. reflexivity.
Qed.

Lemma buffer_after_terminated :
  forall lines t,
    (t = [] \/ endswith_LF t = true) ->
    buffer_after t lines = t ++ terminated lines.
Proof.
  induction lines as [| l ls IH]; intros t Ht.
  - unfold buffer_after, terminated. simpl. rewrite app_nil_r. reflexivity.
  - change (buffer_after t (l :: ls))
      with (buffer_after (append_line t l) ls).
    rewrite IH by (right; apply append_line_ends).
    unfold append_line. rewrite (ensure_newline_terminated t Ht).
    change (terminated (l :: ls)) with ((l ++ [LF]) ++ terminated ls).
    rewrite <- !app_assoc. reflexivity.
Qed.

(** X3. A text of lines that each end with a line feed is split into these
    lines and rebuilt by the loop: committed line by line to an empty file,
    it gives the text itself. *)
Theorem lines_round_trip :
  forall lines,
    Forall (fun l => single_line l = true) lines ->
    splitlines (terminated lines) = lines
    /\ buffer_after [] (splitlines (terminated lines)) = terminated lines.
Proof.
  intros lines H. rewrite (splitlines_terminated lines H).
  split; [reflexivity |].
  rewrite buffer_after_terminated by (left; reflexivity). reflexivity.
Qed.

(** The text of the example, the lines "a" and "b". *)
Lemma lines_round_trip_witness :
  splitlines two_lines = [lit "a"; lit "b"]
  /\ buffer_after [] (splitlines two_lines) = two_lines.
Proof.
  apply (lines_round_trip [lit "a"; lit "b"]).
  repeat constructor.
Defined.

(** X4. No line to commit holds a line boundary, so that every commit adds
    one line to the file; with [--skip-empty] no line to commit is blank. *)
Theorem lines_to_commit :
  forall raw skip start,
    forallb single_line (select_lines raw skip start) = true
    /\ forallb (fun l => negb (str_eqb (strip l) []))
         (select_lines raw true start) = true.
Proof.
  assert (Hskip : forall (p : str -> bool) n ls,
             forallb p ls = true -> forallb p (skipn n ls) = true).
  { intros p n. induction n as [| n IH]; intros [| l ls] H; try exact H.
    simpl in *. apply andb_true_iff in H. apply IH. tauto. }
  assert (Hsel : forall (p : str -> bool) raw skip start,
             forallb p (split_and_filter raw skip) = true ->
             forallb p (select_lines raw skip start) = true).
  { intros p raw skip start H. unfold select_lines.
    destruct (Z.ltb 0 start); [apply Hskip |]; exact H. }
  intros raw skip start. split; apply Hsel; unfold split_and_filter.
  - assert (Hall : forallb single_line (splitlines raw) = true).
    { apply forallb_forall. apply Forall_forall.
      apply (splitlines_from_single (List.length raw)); [lia | reflexivity]. }
    destruct skip; [| exact Hall].
    apply forallb_forall. intros l Hl. apply filter_In in Hl.
    rewrite forallb_forall in Hall. apply Hall. tauto.
  - apply forallb_forall. intros l Hl. apply filter_In in Hl. tauto.
Qed.

(** ** [get_file] *)

Lemma str_eqb_eq : forall a b, str_eqb a b = true <-> a = b.
Proof.
  induction a as [| x a IH]; intros [| y b]; simpl; split; intros H;
    try reflexivity; try discriminate.
  - apply andb_true_iff in H. destruct H as [Hx Hab].
    apply N.eqb_eq in Hx. apply IH in Hab. congruence.
  - inversion H; subst. unfold char_eqb. rewrite N.eqb_refl. simpl.
    apply IH. reflexivity.
Qed.

Lemma read_contents_found :
  forall w b t sha,
    read_contents w (JObj b) = Ok (Some t, sha) ->
    exists c,
      match dict_lookup b (lit "content") with Some x => x | None => JNull end
      = c
      /\ decode_content w c = Ok t
      /\ (dict_lookup b (lit "encoding") = None
          \/ dict_lookup b (lit "encoding") = Some (JStr (lit "base64")))
      /\ sha = match dict_lookup b (lit "sha") with
               | Some x => x
               | None => JNull
               end.
Proof.
  intros w b t sha H. unfold read_contents, py_get in H.
  destruct (differs_from_base64 _) eqn:Henc; [discriminate |].
  destruct (decode_content w _) as [t' |] eqn:Hdec; [| discriminate].
  inversion H; subst. eexists. split; [reflexivity |].
  split; [exact Hdec |]. split; [| reflexivity].
  destruct (dict_lookup b (lit "encoding")) as [v |]; [right | left; reflexivity].
  destruct v; try discriminate. unfold differs_from_base64 in Henc.
  apply negb_false_iff, str_eqb_eq in Henc. subst. reflexivity.
Qed.

(** X5. [get_file] sends one request, a GET, when UTF-8 can encode the path
    and the branch, and otherwise none: it then raises. The answer 404 is an
    absent file, whatever its body; any other status than 200 and 404, and a
    200 whose body is no dictionary with the key [content], is a
    [RuntimeError]. A text is returned only for a 200 whose body holds it
    under [content], with the encoding base64 or none named, and the token is
    what the body holds under [sha]. *)
Theorem get_file_outcomes :
  forall w owner repo_name file branch_name tok,
    let rq := get_request owner repo_name file branch_name tok in
    let r := get_file w owner repo_name file branch_name tok in
    (encodable file && encodable branch_name = false ->
     r = ([], Raise UnicodeEncodeError))
    /\ (encodable file && encodable branch_name = true ->
        events r = [Http 0 rq (http w 0 rq)]
        /\ (forall resp,
               http w 0 rq = Returned 404 resp -> outcome r = Ok (None, JNull))
        /\ (forall code resp,
               http w 0 rq = Returned code resp ->
               code <> 200%Z -> code <> 404%Z ->
               outcome r = Raise RuntimeError)
        /\ (forall resp,
               http w 0 rq = Returned 200 resp ->
               has_key resp (lit "content") = false ->
               outcome r = Raise RuntimeError))
    /\ (forall sha,
           outcome r = Ok (None, sha) ->
           sha = JNull /\ exists resp, http w 0 rq = Returned 404 resp)
    /\ (forall t sha,
           outcome r = Ok (Some t, sha) ->
           exists b c,
             http w 0 rq = Returned 200 (JObj b)
             /\ dict_lookup b (lit "content") = Some c
             /\ decode_content w c = Ok t
             /\ (dict_lookup b (lit "encoding") = None
                 \/ dict_lookup b (lit "encoding")
                    = Some (JStr (lit "base64")))
             /\ sha = match dict_lookup b (lit "sha") with
                      | Some x => x
                      | None => JNull
                      end).
Proof.
  intros w owner repo_name file branch_name tok rq r. subst r.
  destruct (encodable file && encodable branch_name) eqn:Henc.
  2: { unfold get_file. rewrite Henc.
       split; [reflexivity |]. split; [discriminate |].
       split; [intros sha H | intros t sha H]; discriminate. }
  split; [discriminate |].
  rewrite get_file_run by exact Henc. fold rq.
  unfold events, outcome, fetch_result. cbn [fst snd].
  split.
  { intros _. split; [reflexivity |].
    split; [intros resp ->; reflexivity |].
    split.
    - intros code resp -> H200 H404. unfold read_fetch.
      destruct (Z.eqb_spec code 200); [contradiction |].
      destruct (Z.eqb_spec code 404); [contradiction |]. reflexivity.
    - intros resp -> Hkey. unfold read_fetch. rewrite Hkey, andb_false_r.
      reflexivity. }
  destruct (http w 0 rq) as [code resp | e].
  2: { split; [intros sha H | intros t sha H]; discriminate. }
  unfold read_fetch.
  destruct (Z.eqb_spec code 200) as [-> | Hn200]; cbn [andb].
  - destruct resp as [| | | | | | b]; cbn [is_dict andb];
      try (split; [intros sha H | intros t sha H]; discriminate).
    unfold has_key.
    destruct (dict_lookup b (lit "content")) as [c |] eqn:Hc.
    + split.
      * intros sha H. exfalso. unfold read_contents, py_get in H.
        destruct (differs_from_base64 _); [discriminate |].
        destruct (decode_content w _); discriminate.
      * intros t sha H.
        destruct (read_contents_found w b t sha H) as [c' [Hc' [Hdec [He Hs]]]].
        rewrite Hc in Hc'. subst c'.
        exists b, c. repeat split; assumption.
    + split; [intros sha H | intros t sha H]; discriminate.
  - destruct (Z.eqb_spec code 404) as [-> | Hn404].
    + split.
      * intros sha H. inversion H. split; [reflexivity |].
        exists resp. reflexivity.
      * intros t sha H. discriminate.
    + split; [intros sha H | intros t sha H]; discriminate.
Qed.

(** The fetch of the example: the answer 404 is an absent file, and the
    answer 200 of a file "x" gives its text and its token. *)
Lemma get_file_outcomes_witness :
  outcome (get_file accepting_world (lit "owner") (lit "name")
             (lit "notes.txt") (lit "main") (lit "secret"))
  = Ok (None, JNull)
  /\ exists b c,
       http (finding_world (JStr (lit "abc"))) 0 example_fetch
       = Returned 200 (JObj b)
       /\ dict_lookup b (lit "content") = Some c
       /\ decode_content (finding_world (JStr (lit "abc"))) c
          = Ok (lit "x" ++ [LF]).
Proof.
  split.
  - destruct (get_file_outcomes accepting_world (lit "owner") (lit "name")
                (lit "notes.txt") (lit "main") (lit "secret"))
      as [_ [H _]].
    destruct (H eq_refl) as [_ [Habsent _]].
    apply (Habsent (JObj [(lit "message", JStr (lit "Not Found"))])).
    reflexivity.
  - destruct (get_file_outcomes (finding_world (JStr (lit "abc")))
                (lit "owner") (lit "name") (lit "notes.txt") (lit "main")
                (lit "secret")) as [_ [_ [_ H]]].
    destruct (H (lit "x" ++ [LF]) (JStr (lit "abc")) eq_refl)
      as [b [c [Hh [Hc [Hd _]]]]].
    exists b, c. repeat split; assumption.
Defined.

(** ** Requests *)

Lemma read_raw_requests :
  forall a w tail,
    forallb is_stderr tail = true ->
    http_events (events (read_raw a w) ++ tail) = [].
Proof.
  intros a w tail H. rewrite http_events_app.
  rewrite (proj1 (stderr_only _ (read_raw_stderr a w))).
  rewrite (proj1 (stderr_only _ H)). reflexivity.
Qed.

(** X6. A run sends no request, not even the fetch, unless a token is given,
    the repository has a slash, the delay parses, the input text was read, at
    least one line of it is to be committed, and UTF-8 can encode the path and
    the branch. *)
Theorem request_needs_valid_input :
  forall a w,
    http_events (events (main a w)) <> [] ->
    given (resolve_token a w) = true
    /\ contains SLASH (repo a) = true
    /\ (exists g, build_delay_getter (delay a) = Ok g)
    /\ (exists raw,
           outcome (read_raw a w) = Ok raw
           /\ select_lines raw (skip_empty a) (start_index a) <> [])
    /\ fetchable a = true.
Proof.
  intros a w H. rewrite main_by_stage in H. unfold main_stages in H.
  destruct (resolve_token a w) as [[| c tok'] |];
    try (exfalso; apply H; reflexivity).
  split; [reflexivity |].
  destruct (contains SLASH (repo a)); [| exfalso; apply H; reflexivity].
  split; [reflexivity |].
  destruct (build_delay_getter (delay a)) as [g | e].
  2: { exfalso. apply H. destruct (is_Exception e); reflexivity. }
  split; [exists g; reflexivity |].
  destruct (outcome (read_raw a w)) as [raw | e] eqn:Hraw.
  2: { exfalso. apply H. rewrite events_pair.
       apply (proj1 (stderr_only _ (read_raw_stderr a w))). }
  destruct (select_lines raw (skip_empty a) (start_index a))
    as [| l ls] eqn:Hsel.
  { exfalso. apply H. rewrite events_pair.
    apply (read_raw_requests a w [Stderr NoLines]). reflexivity. }
  split; [exists raw; split; [reflexivity | rewrite Hsel; discriminate] |].
  destruct (fetchable a) eqn:Henc; [reflexivity |].
  exfalso. apply H.
  rewrite initial_state_unencodable by exact Henc.
  rewrite outcome_pair, !events_pair.
  apply (read_raw_requests a w [Stderr (FetchFailed UnicodeEncodeError)]).
  reflexivity.
Qed.

(** The run of the example sends requests: its token is given and its
    repository has a slash. *)
Lemma request_needs_valid_input_witness :
  given (resolve_token example_args accepting_world) = true
  /\ contains SLASH (repo example_args) = true.
Proof.
  assert (H : http_events (events (main example_args accepting_world)) <> [])
    by (vm_compute; discriminate).
  destruct (request_needs_valid_input example_args accepting_world H)
    as [Htok [Hrepo _]].
  split; assumption.
Defined.

(** ** Pauses *)

Lemma clamp_any : forall v, nonneg (py_max fzero v) = true.
Proof.
  intros v. unfold py_max, fzero, fltb, SFltb.
  destruct v as [[|] | [|] | | [|] m e]; reflexivity.
Qed.

Lemma pause_events :
  forall w g idx total,
    events (pause w g idx total)
    = if Nat.ltb idx total then
        let d := py_max fzero (next_delay g (random w idx)) in
        [Sampled idx g (next_delay g (random w idx)); Stderr (Pause d);
         Slept idx d (sleep w idx d)]
      else [].
Proof.
  intros w g idx total. unfold pause.
  destruct (Nat.ltb idx total); [| reflexivity].
  cbv zeta.
  match goal with
  | |- context [sleep w idx ?v] => destruct (sleep w idx v)
  end; reflexivity.
Qed.

Lemma pauses_clamped_app :
  forall evs evs',
    pauses_clamped evs -> pauses_clamped evs' -> pauses_clamped (evs ++ evs').
Proof.
  intros evs evs' H H'. unfold pauses_clamped in *.
  rewrite pauses_app, samples_app, map_app, H, H'. reflexivity.
Qed.

Lemma pauses_clamped_quiet :
  forall evs, samples evs = [] -> pauses evs = [] -> pauses_clamped evs.
Proof. intros evs Hs Hp. unfold pauses_clamped. rewrite Hs, Hp. reflexivity. Qed.

Lemma pause_clamped :
  forall w g idx total, pauses_clamped (events (pause w g idx total)).
Proof.
  intros w g idx total. rewrite pause_events.
  destruct (Nat.ltb idx total); reflexivity.
Qed.

Lemma commit_line_clamped :
  forall a w g owner repo_name tok total idx line st,
    pauses_clamped
      (events (commit_line a w g owner repo_name tok total idx line st)).
Proof.
  intros a w g owner repo_name tok total idx line st.
  destruct (dry_run a) eqn:Hdry.
  { rewrite commit_line_dry_run by exact Hdry. reflexivity. }
  destruct (sendable a st line) eqn:Henc.
  2: { rewrite commit_line_unencodable by assumption. reflexivity. }
  rewrite commit_line_live by assumption. cbv zeta.
  destruct (http w idx _) as [code resp | e]; [| reflexivity].
  destruct (not_success code).
  - rewrite events_pair.
    destruct (report_commit_error_run code resp) as [_ [_ [_ [Hs [Hp _]]]]].
    apply (pauses_clamped_app [_]); [reflexivity |].
    apply pauses_clamped_quiet; assumption.
  - destruct (read_answer resp (file_sha st)) as [[[s' c] u] | e];
      [| reflexivity].
    rewrite events_pair.
    apply (pauses_clamped_app [_; _]); [reflexivity |].
    apply pause_clamped.
Qed.

Lemma commit_loop_clamped :
  forall a w g owner repo_name tok total lines idx st,
    pauses_clamped
      (events (commit_loop a w g owner repo_name tok total idx lines st)).
Proof.
  intros a w g owner repo_name tok total lines.
  induction lines as [| line rest IH]; intros idx st; [reflexivity |].
  rewrite commit_loop_cons, events_pair.
  apply pauses_clamped_app; [apply commit_line_clamped |].
  destruct (outcome (commit_line _ _ _ _ _ _ _ _ _ _)); [apply IH | reflexivity].
Qed.

Lemma main_clamped : forall a w, pauses_clamped (events (main a w)).
Proof.
  intros a w.
  destruct (main_cases a w)
    as [[tok [owner [repo_name [g [lines [st0 [pre [Hreach Hmain]]]]]]]]
       | [e Hstop]].
  - rewrite Hmain, events_pair.
    destruct (reaches_loop_pre _ _ _ _ _ _ _ _ _ Hreach)
      as [_ [_ [_ [Hs [Hp _]]]]].
    apply pauses_clamped_app; [apply pauses_clamped_quiet; assumption |].
    destruct (commit_all_observed a w g owner repo_name tok lines st0)
      as [tail [-> [_ [_ [_ [Hst [Hpt _]]]]]]].
    apply pauses_clamped_app; [apply commit_loop_clamped |].
    apply pauses_clamped_quiet; assumption.
  - destruct Hstop as [_ [_ [_ [Hs [Hp _]]]]].
    apply pauses_clamped_quiet; assumption.
Qed.

(** X7. In every run, each pause lasts the delay that was sampled for it,
    clamped at zero: no pause is asked for a negative time or a NaN, whatever
    the delay getter returns. *)
Theorem pauses_are_clamped_samples :
  forall a w,
    pauses (events (main a w))
    = map (py_max fzero) (samples (events (main a w)))
    /\ forallb nonneg (pauses (events (main a w))) = true.
Proof.
  intros a w. pose proof (main_clamped a w) as H.
  split; [exact H |]. rewrite H.
  induction (samples (events (main a w))) as [| v vs IH]; [reflexivity |].
  simpl. rewrite clamp_any, IH. reflexivity.
Qed.

Lemma paused_calls_main :
  forall N, paused_calls N 1 N = seq 1 (N - 1).
Proof.
  intros N. unfold paused_calls.
  destruct N as [| n]; [reflexivity |].
  replace (S n - 1)%nat with n by lia.
  rewrite seq_S, filter_app. cbn [filter Nat.add].
  rewrite Nat.ltb_irrefl, app_nil_r.
  apply forallb_filter_id. apply forallb_forall.
  intros k Hk. apply in_seq in Hk. apply Nat.ltb_lt. lia.
Qed.

Lemma commit_loop_samples :
  forall a w g owner repo_name tok total lines idx st,
    dry_run a = false ->
    encodable (path a) = true ->
    encodable (current_text st) = true ->
    forallb encodable lines = true ->
    (forall k rq,
        (idx <= k < idx + List.length lines)%nat ->
        rq_method rq = PUT ->
        confirms (http w k rq) = true) ->
    (forall k v, sleep w k v = Ok tt) ->
    samples (events (commit_loop a w g owner repo_name tok total idx lines st))
    = map (fun k => next_delay g (random w k))
        (paused_calls total idx (List.length lines)).
Proof.
  intros a w g owner repo_name tok total lines.
  induction lines as [| line rest IH];
    intros idx st Hdry Hpath Htext Hlines Hok Hsleep; [reflexivity |].
  simpl in Hlines. apply andb_true_iff in Hlines.
  destruct Hlines as [Hline Hrest].
  assert (Hnext : encodable (append_line (current_text st) line) = true)
    by (rewrite encodable_append_line, Htext, Hline; reflexivity).
  assert (Hsend : sendable a st line = true)
    by (unfold sendable; rewrite Hpath, Hnext; reflexivity).
  rewrite commit_loop_cons, events_pair, samples_app.
  rewrite commit_line_live by assumption. cbv zeta.
  pose proof (Hok idx (line_request a owner repo_name tok total idx line st)
                ltac:(simpl; lia) eq_refl) as Hc.
  destruct (http w idx _) as [code resp | e]; [| discriminate].
  destruct (confirms_read_answer code resp Hc) as [Hcode Hread].
  rewrite Hcode.
  destruct (Hread (file_sha st)) as [sha' [csha [url Hans]]]. rewrite Hans.
  rewrite outcome_pair, (pause_returns w g idx total Hsleep), events_pair.
  rewrite IH; [| exact Hdry | exact Hpath | exact Hnext | exact Hrest
               | intros k rq Hk; apply Hok; simpl; lia | exact Hsleep].
  rewrite pause_events. unfold paused_calls. simpl seq. simpl filter.
  destruct (Nat.ltb idx total); reflexivity.
Qed.

(** X8. In a live run whose texts UTF-8 can encode, whose writes are all
    confirmed and whose pauses all return, a delay is sampled and a pause made
    after every commit but the last: [N - 1] pauses for [N] lines, the one
    after line [k] from call [k] of the random generator. *)
Theorem one_pause_between_commits :
  forall (a : Args) (w : World) (g : delay_getter) (raw : str)
         (st0 : loop_state),
    given (resolve_token a w) = true ->
    contains SLASH (repo a) = true ->
    fetchable a = true ->
    build_delay_getter (delay a) = Ok g ->
    outcome (read_raw a w) = Ok raw ->
    (forall rq, rq_method rq = GET ->
                state_of_fetch (fetch_result w rq) = Ok st0) ->
    dry_run a = false ->
    encodable (current_text st0) = true ->
    encodable raw = true ->
    let N := List.length (select_lines raw (skip_empty a) (start_index a)) in
    (forall k rq, (1 <= k <= N)%nat -> rq_method rq = PUT ->
                  confirms (http w k rq) = true) ->
    (forall k v, sleep w k v = Ok tt) ->
    samples (events (main a w))
    = map (fun k => next_delay g (random w k)) (seq 1 (N - 1))
    /\ List.length (pauses (events (main a w))) = (N - 1)%nat.
Proof.
  intros a w g raw st0 Htok Hrepo Henc Hg Hraw Hfetch Hdry Htext Hrawenc N
    Hok Hsleep.
  assert (Hpath : encodable (path a) = true)
    by (unfold fetchable in Henc; apply andb_true_iff in Henc; apply Henc).
  assert (Hlinesenc : forallb encodable
                        (select_lines raw (skip_empty a) (start_index a))
                      = true).
  { apply forallb_forall. intros l Hl.
    pose proof (splitlines_encodable raw Hrawenc) as Hall.
    rewrite forallb_forall in Hall. apply Hall.
    unfold select_lines, split_and_filter in Hl.
    assert (Hsk : forall n (ls : list str), In l (skipn n ls) -> In l ls).
    { intros n. induction n as [| n IHn]; intros [| x ls] Hin;
        try exact Hin. right. exact (IHn _ Hin). }
    destruct (Z.ltb 0 (start_index a)); [apply Hsk in Hl |];
      destruct (skip_empty a); try exact Hl;
      apply filter_In in Hl; apply Hl. }
  assert (Hs : samples (events (main a w))
               = map (fun k => next_delay g (random w k)) (seq 1 (N - 1))).
  { set (lines := select_lines raw (skip_empty a) (start_index a)) in *.
    destruct lines as [| l ls] eqn:Hlines.
    - assert (Hnone : samples (events (main a w)) = []).
      { rewrite main_by_stage. unfold main_stages.
        destruct (resolve_token a w) as [[| c tok'] |]; try discriminate.
        rewrite Hrepo, Hg, Hraw. fold lines. rewrite Hlines, events_pair.
        rewrite samples_app.
        rewrite (proj1 (proj2 (proj2 (proj2
                   (stderr_only _ (read_raw_stderr a w)))))).
        reflexivity. }
      rewrite Hnone. reflexivity.
    - destruct (main_reaching_loop a w g raw st0 Htok Hrepo Henc Hg Hraw)
        as [tok [owner [repo_name [pre [Hreach Hmain]]]]].
      { fold lines. rewrite Hlines. discriminate. }
      { exact Hfetch. }
      fold lines in Hreach, Hmain. rewrite Hlines in Hreach, Hmain.
      rewrite Hmain, events_pair, samples_app.
      destruct (reaches_loop_pre _ _ _ _ _ _ _ _ _ Hreach)
        as [_ [_ [_ [Hsp _]]]]. rewrite Hsp.
      destruct (commit_all_observed a w g owner repo_name tok (l :: ls) st0)
        as [tail [-> [_ [_ [_ [Hst _]]]]]].
      rewrite samples_app, Hst, app_nil_r.
      rewrite commit_loop_samples;
        [| exact Hdry | exact Hpath | exact Htext | exact Hlinesenc
         | intros k rq Hk; apply Hok; subst N; lia
         | exact Hsleep].
      cbn [app]. rewrite paused_calls_main. reflexivity. }
  split; [exact Hs |].
  rewrite (main_clamped a w), Hs, !length_map, length_seq. reflexivity.
Qed.

(** The two lines of the example: one pause, between the two commits. *)
Lemma one_pause_between_commits_witness :
  List.length (pauses (events (main example_args accepting_world))) = 1%nat.
Proof.
  refine (proj2 (one_pause_between_commits example_args accepting_world
                   (FixedDelay fzero) two_lines
                   {| current_text := []; file_sha := JNull; committed := 0 |}
                   eq_refl eq_refl eq_refl eq_refl eq_refl _ eq_refl eq_refl
                   eq_refl _ _)).
  - intros rq _. reflexivity.
  - intros [| k] rq Hk _; [lia | reflexivity].
  - reflexivity.
Defined.

(** ** The address of the requests *)

Lemma split_once_parts :
  forall sep s,
    contains sep s = true ->
    exists l r,
      split_once sep s = (l, Some r)
      /\ s = l ++ sep :: r /\ contains sep l = false.
Proof.
  intros sep s. induction s as [| x s IH]; intros H; [discriminate |].
  simpl in *. destruct (char_eqb x sep) eqn:Hx.
  - apply N.eqb_eq in Hx. subst x. exists [], s. auto.
  - destruct (IH H) as [l [r [Hs [Heq Hl]]]]. rewrite Hs.
    exists (x :: l), r. simpl. rewrite Hx, Hl, <- Heq. auto.
Qed.

Lemma no_request_in_stderr :
  forall log k rq ans,
    forallb is_stderr log = true -> ~ In (Http k rq ans) log.
Proof.
  intros log k rq ans H Hin.
  rewrite forallb_forall in H. specialize (H _ Hin). discriminate.
Qed.

(** The request of a line, if it sends one: the write of a live run, of a
    text that can be encoded, answered by the world. *)
Lemma commit_line_request :
  forall a w g owner repo_name tok total idx line st k rq ans,
    In (Http k rq ans)
      (events (commit_line a w g owner repo_name tok total idx line st)) ->
    dry_run a = false
    /\ sendable a st line = true
    /\ k = idx
    /\ rq = line_request a owner repo_name tok total idx line st
    /\ ans = http w idx rq.
Proof.
  intros a w g owner repo_name tok total idx line st k rq ans Hin.
  destruct (dry_run a) eqn:Hdry.
  { rewrite commit_line_dry_run in Hin by exact Hdry.
    destruct Hin as [Hin | []]. discriminate. }
  split; [reflexivity |].
  destruct (sendable a st line) eqn:Henc.
  2: { rewrite commit_line_unencodable in Hin by assumption. contradiction. }
  split; [reflexivity |].
  rewrite commit_line_live in Hin by assumption. cbv zeta in Hin.
  destruct (http w idx _) as [code resp | e] eqn:Hans.
  - destruct (not_success code).
    + rewrite events_pair in Hin. destruct Hin as [Hin | Hin].
      { inversion Hin; subst. rewrite Hans. auto. }
      exfalso. destruct (report_commit_error_run code resp) as [Hh _].
      apply In_http_events in Hin. rewrite Hh in Hin. exact Hin.
    + destruct (read_answer resp (file_sha st)) as [[[s' c] u] | e].
      * rewrite events_pair in Hin.
        destruct Hin as [Hin | [Hin | Hin]]; [| discriminate |].
        { inversion Hin; subst. rewrite Hans. auto. }
        exfalso. destruct (pause_run w g idx total) as [Hh _].
        apply In_http_events in Hin. rewrite Hh in Hin. exact Hin.
      * destruct Hin as [Hin | []]. inversion Hin; subst.
        rewrite Hans. auto.
  - destruct Hin as [Hin | []]. inversion Hin; subst. rewrite Hans. auto.
Qed.

(** The requests of the loop are the writes of its lines, numbered from
    [idx]. *)
Lemma commit_loop_requests :
  forall a w g owner repo_name tok total lines idx st k rq ans,
    In (Http k rq ans)
      (events (commit_loop a w g owner repo_name tok total idx lines st)) ->
    (idx <= k)%nat
    /\ exists line st',
         rq = line_request a owner repo_name tok total k line st'
         /\ sendable a st' line = true.
Proof.
  intros a w g owner repo_name tok total lines.
  induction lines as [| line rest IH]; intros idx st k rq ans Hin;
    [contradiction |].
  rewrite commit_loop_cons, events_pair in Hin.
  apply in_app_or in Hin. destruct Hin as [Hin | Hin].
  - apply commit_line_request in Hin.
    destruct Hin as [_ [Hsend [-> [-> _]]]]. split; [lia |]. eauto.
  - destruct (outcome (commit_line _ _ _ _ _ _ _ _ _ _)) as [st' |];
      [| contradiction].
    destruct (IH _ _ _ _ _ Hin) as [Hk Hrq]. split; [lia | exact Hrq].
Qed.

(** X9. Every request of a run carries the resolved token and goes to the
    file of [--path] in the repository of [--repo], split at its first slash;
    UTF-8 can encode the path. The fetch is call 0 and asks for the branch of
    [--branch]; a write is a later call, names that branch in its body and
    holds a content that UTF-8 can encode. *)
Theorem requests_are_addressed :
  forall a w k rq ans,
    In (Http k rq ans) (events (main a w)) ->
    resolve_token a w = Some (rq_token rq)
    /\ u_owner (rq_url rq) ++ SLASH :: u_repo (rq_url rq) = repo a
    /\ contains SLASH (u_owner (rq_url rq)) = false
    /\ u_path (rq_url rq) = path a
    /\ encodable (path a) = true
    /\ ((rq_method rq = GET /\ k = 0%nat
         /\ u_ref (rq_url rq) = Some (branch a) /\ rq_data rq = None
         /\ encodable (branch a) = true)
        \/ (rq_method rq = PUT /\ (1 <= k)%nat
            /\ u_ref (rq_url rq) = None
            /\ exists p,
                 rq_data rq = Some p /\ p_branch p = branch a
                 /\ encodable (p_content p) = true)).
Proof.
  intros a w k rq ans Hin.
  rewrite main_by_stage in Hin. unfold main_stages in Hin.
  destruct (resolve_token a w) as [[| c tok'] |];
    try (destruct Hin as [Hin | []]; discriminate).
  destruct (contains SLASH (repo a)) eqn:Hrepo;
    [| destruct Hin as [Hin | []]; discriminate].
  destruct (split_once_parts SLASH (repo a) Hrepo)
    as [owner [name [Hsplit [Heq Hown]]]].
  rewrite Hsplit in Hin. cbn [fst snd] in Hin.
  destruct (build_delay_getter (delay a)) as [g | e].
  2: { destruct (is_Exception e); [destruct Hin as [Hin | []] |];
         try discriminate; contradiction. }
  assert (Hread : ~ In (Http k rq ans) (events (read_raw a w)))
    by (apply no_request_in_stderr, read_raw_stderr).
  destruct (outcome (read_raw a w)) as [raw | e].
  2: { rewrite events_pair in Hin. contradiction. }
  destruct (select_lines raw (skip_empty a) (start_index a)) as [| l ls].
  { rewrite events_pair in Hin. apply in_app_or in Hin.
    destruct Hin as [Hin | [Hin | []]]; [contradiction | discriminate]. }
  destruct (fetchable a) eqn:Henc.
  2: { rewrite initial_state_unencodable in Hin by exact Henc.
       rewrite outcome_pair, !events_pair in Hin. apply in_app_or in Hin.
       destruct Hin as [Hin | [Hin | []]]; [contradiction | discriminate]. }
  assert (Hpath : encodable (path a) = true /\ encodable (branch a) = true)
    by (unfold fetchable in Henc; apply andb_true_iff in Henc; exact Henc).
  destruct Hpath as [Hpath Hbranch].
  destruct (initial_state_run a w owner name (c :: tok') Henc)
    as [log [Hinit Hlog]].
  rewrite Hinit in Hin. rewrite outcome_pair, !events_pair in Hin.
  assert (Hfetch : Http k rq ans
                   = Http 0 (get_request owner name (path a) (branch a)
                               (c :: tok'))
                       (http w 0 (get_request owner name (path a) (branch a)
                                    (c :: tok'))) ->
                   Some (c :: tok') = Some (rq_token rq)
                   /\ u_owner (rq_url rq) ++ SLASH :: u_repo (rq_url rq)
                      = repo a
                   /\ contains SLASH (u_owner (rq_url rq)) = false
                   /\ u_path (rq_url rq) = path a
                   /\ encodable (path a) = true
                   /\ ((rq_method rq = GET /\ k = 0%nat
                        /\ u_ref (rq_url rq) = Some (branch a)
                        /\ rq_data rq = None
                        /\ encodable (branch a) = true)
                       \/ (rq_method rq = PUT /\ (1 <= k)%nat
                           /\ u_ref (rq_url rq) = None
                           /\ exists p,
                                rq_data rq = Some p
                                /\ p_branch p = branch a
                                /\ encodable (p_content p) = true))).
  { intros H. inversion H. subst. cbn.
    repeat split; auto. left. repeat split; auto. }
  assert (Hquiet : ~ In (Http k rq ans) log)
    by (apply no_request_in_stderr; exact Hlog).
  destruct (state_of_fetch _) as [st0 | e].
  2: { rewrite events_pair in Hin. apply in_app_or in Hin.
       destruct Hin as [Hin | [Hin | Hin]];
         [contradiction | apply Hfetch; symmetry; exact Hin | contradiction]. }
  rewrite events_pair in Hin. apply in_app_or in Hin.
  destruct Hin as [Hin | Hin]; [contradiction |].
  apply in_app_or in Hin.
  destruct Hin as [[Hin | Hin] | [Hin | Hin]];
    [apply Hfetch; symmetry; exact Hin | contradiction | discriminate |].
  destruct (commit_all_observed a w g owner name (c :: tok') (l :: ls) st0)
    as [tail [Hev [Htail _]]].
  rewrite Hev in Hin. apply in_app_or in Hin. destruct Hin as [Hin | Hin].
  2: { apply In_http_events in Hin. rewrite Htail in Hin. contradiction. }
  destruct (commit_loop_requests _ _ _ _ _ _ _ _ _ _ _ _ _ Hin)
    as [Hk [line [st' [-> Hsend]]]].
  unfold sendable in Hsend. apply andb_true_iff in Hsend.
  cbn. repeat split; auto. right. repeat split; auto.
  eexists. split; [reflexivity |]. split; [reflexivity |]. apply Hsend.
Qed.

(** The second write of the example: call 2, to "notes.txt" of the
    repository "owner/name", with the token "secret". *)
Lemma requests_are_addressed_witness :
  resolve_token example_args accepting_world = Some (lit "secret")
  /\ lit "owner" ++ SLASH :: lit "name" = repo example_args.
Proof.
  destruct (requests_are_addressed example_args accepting_world 2%nat
              (line_request example_args (lit "owner") (lit "name")
                 (lit "secret") 2 2 (lit "b")
                 {| current_text := lit "a" ++ [LF];
                    file_sha := JStr (lit "abc");
                    committed := 1 |})
              (created (lit "abc")))
    as [Htok [Hrepo _]].
  - vm_compute. tauto.
  - split; [exact Htok | exact Hrepo].
Defined.

(** ** What [build_delay_getter] accepts *)

(** X10. A delay getter is built only from one duration, or from two
    durations around a single hyphen: a specification with a second hyphen,
    or with a minus sign before a number, is refused. The bounds of a range
    are the two durations in order, and no bound and no fixed delay is
    negative or a NaN. *)
Theorem delay_getter_is_well_formed :
  forall spec g,
    build_delay_getter spec = Ok g ->
    match g with
    | FixedDelay v =>
        contains HYPHEN spec = false
        /\ parse_duration spec = Ok v /\ nonneg v = true
    | RangeDelay lo hi =>
        exists l r a b,
          spec = l ++ HYPHEN :: r
          /\ contains HYPHEN l = false /\ contains HYPHEN r = false
          /\ parse_duration l = Ok a /\ parse_duration r = Ok b
          /\ lo = py_min a b /\ hi = py_max a b
          /\ fleb lo hi = true /\ nonneg lo = true /\ nonneg hi = true
    end.
Proof.
  intros spec g H. unfold build_delay_getter in H.
  destruct (contains HYPHEN spec) eqn:Hhy.
  - destruct (split_once_parts HYPHEN spec Hhy) as [l [r [Hs [Heq Hl]]]].
    rewrite Hs in H.
    destruct (parse_duration l) as [a |] eqn:Ha; [| discriminate].
    destruct (parse_duration r) as [b |] eqn:Hb; [| discriminate].
    pose proof (parse_duration_nonneg _ _ Ha) as Hna.
    pose proof (parse_duration_nonneg _ _ Hb) as Hnb.
    destruct (order_of_bounds a b Hna Hnb) as [Hpair [Hle [Hnmin Hnmax]]].
    rewrite Hpair in H. rewrite (clamp_nonneg _ Hnmin) in H.
    inversion H; subst g.
    exists l, r, a, b. repeat split; try assumption.
    exact (duration_has_no_hyphen _ _ Hb).
  - destruct (parse_duration spec) as [v |] eqn:Hv; [| discriminate].
    pose proof (parse_duration_nonneg _ _ Hv) as Hn.
    rewrite (clamp_nonneg _ Hn) in H. inversion H; subst g.
    repeat split; assumption.
Qed.

(** The specification "90" has no hyphen and is a duration. *)
Lemma delay_getter_is_well_formed_witness :
  contains HYPHEN (lit "90") = false
  /\ parse_duration (lit "90")
     = Ok (S754_finite false 6333186975989760 (-46)).
Proof.
  destruct (delay_getter_is_well_formed (lit "90")
              (FixedDelay (S754_finite false 6333186975989760 (-46)))
              eq_refl) as [Hno [Hparse _]].
  split; [exact Hno | exact Hparse].
Defined.

(** ** The writes of any run *)

(** What a line of a live run sends: one write, unless UTF-8 cannot encode
    the path or the buffer. *)
Lemma commit_line_sent :
  forall a w g owner repo_name tok total idx line st,
    dry_run a = false ->
    writes (events (commit_line a w g owner repo_name tok total idx line st))
    = if sendable a st line
      then [put_payload (branch a)
              (commit_message (commit_prefix a) idx total line)
              (append_line (current_text st) line) (file_sha st)
              (committer_name a) (committer_email a)]
      else [].
Proof.
  intros a w g owner repo_name tok total idx line st Hdry.
  destruct (sendable a st line) eqn:Henc.
  2: { rewrite commit_line_unencodable by assumption. reflexivity. }
  rewrite commit_line_live by assumption. cbv zeta.
  destruct (http w idx _) as [code resp | e]; [| reflexivity].
  destruct (not_success code).
  - rewrite events_pair.
    destruct (report_commit_error_run code resp) as [_ [Hw _]].
    cbn [writes line_request put_request]. rewrite Hw. reflexivity.
  - destruct (read_answer resp (file_sha st)) as [[[s' c] u] | e];
      [| reflexivity].
    rewrite events_pair.
    destruct (pause_run w g idx total) as [_ [Hw _]].
    cbn [writes line_request put_request]. rewrite Hw. reflexivity.
Qed.

(** A line of a live run that returns was sent and counted. *)
Lemma commit_line_returns :
  forall a w g owner repo_name tok total idx line st st',
    dry_run a = false ->
    outcome (commit_line a w g owner repo_name tok total idx line st)
    = Ok st' ->
    sendable a st line = true
    /\ confirmed_commits
         (events (commit_line a w g owner repo_name tok total idx line st))
       = 1%nat
    /\ committed st' = S (committed st).
Proof.
  intros a w g owner repo_name tok total idx line st st' Hdry H.
  destruct (sendable a st line) eqn:Henc.
  2: { rewrite commit_line_unencodable in H by assumption. discriminate. }
  split; [reflexivity |].
  rewrite commit_line_live in H |- * by assumption. cbv zeta in H |- *.
  destruct (http w idx _) as [code resp | e]; [| discriminate].
  destruct (not_success code).
  - rewrite outcome_pair in H.
    destruct (report_commit_error_run code resp)
      as [_ [_ [_ [_ [_ [Ho | Ho]]]]]]; rewrite Ho in H; discriminate.
  - destruct (read_answer resp (file_sha st)) as [[[s' c] u] | e];
      [| discriminate].
    rewrite outcome_pair in H. rewrite events_pair.
    destruct (outcome (pause w g idx total)); [| discriminate].
    inversion H. cbn [confirmed_commits committed].
    destruct (pause_run w g idx total) as [_ [_ Hc]]. rewrite Hc.
    split; reflexivity.
Qed.

Lemma commit_loop_written :
  forall a w g owner repo_name tok total lines idx st,
    let r := commit_loop a w g owner repo_name tok total idx lines st in
    exists n,
      (n <= List.length lines)%nat
      /\ map p_content (writes (events r))
         = firstn n (buffers (current_text st) lines)
      /\ map p_message (writes (events r))
         = firstn n (messages (commit_prefix a) total idx lines).
Proof.
  intros a w g owner repo_name tok total lines idx st r. subst r.
  destruct (dry_run a) eqn:Hdry.
  { exists 0%nat. rewrite commit_loop_dry_run by exact Hdry.
    rewrite events_pair.
    destruct (dry_run_log_observed (commit_prefix a) total lines idx)
      as [Hw _].
    rewrite Hw. split; [lia | split; reflexivity]. }
  revert idx st. induction lines as [| line rest IH]; intros idx st.
  - exists 0%nat. split; [simpl; lia | split; reflexivity].
  - rewrite commit_loop_cons, events_pair, writes_app.
    rewrite (commit_line_sent a w g owner repo_name tok total idx line st
               Hdry).
    destruct (outcome (commit_line _ _ _ _ _ _ _ _ _ _)) as [st' | e] eqn:Ho.
    + destruct (commit_line_returns _ _ _ _ _ _ _ _ _ _ _ Hdry Ho)
        as [Hsend _].
      rewrite Hsend.
      destruct (IH (S idx) st') as [n [Hn [Hcs Hms]]].
      exists (S n). split; [simpl; lia |].
      rewrite (commit_line_returned _ _ _ _ _ _ _ _ _ _ _ Ho) in Hcs.
      cbn [app map buffers messages firstn p_content p_message put_payload].
      rewrite Hcs, Hms. split; reflexivity.
    + destruct (sendable a st line).
      * exists 1%nat. split; [simpl; lia |].
        cbn [app map buffers messages firstn p_content p_message put_payload].
        split; reflexivity.
      * exists 0%nat. split; [simpl; lia |]. split; reflexivity.
Qed.

Lemma buffers_extend :
  forall lines t b, In b (buffers t lines) -> exists rest, b = t ++ rest.
Proof.
  induction lines as [| line more IH]; intros t b H; [contradiction |].
  assert (Hstep : exists rest, append_line t line = t ++ rest).
  { unfold append_line, ensure_newline.
    destruct t as [| c t']; [eexists; reflexivity |].
    destruct (endswith_LF (c :: t')); [eexists; reflexivity |].
    rewrite <- app_assoc. eexists. reflexivity. }
  destruct H as [<- | H]; [exact Hstep |].
  destruct Hstep as [r1 Hr1]. destruct (IH _ _ H) as [r2 Hr2].
  exists (r1 ++ r2). rewrite Hr2, Hr1, app_assoc. reflexivity.
Qed.

(** X11. In every run the writes follow the lines to commit, in order and
    each line once: the contents of the writes are the first buffers of the
    loop, from the fetched text, and their messages the first messages. Each
    write begins with the text that was fetched: nothing of the file is
    dropped. *)
Theorem writes_follow_the_lines :
  forall (a : Args) (w : World) (raw : str) (st0 : loop_state),
    outcome (read_raw a w) = Ok raw ->
    (forall rq, rq_method rq = GET ->
                state_of_fetch (fetch_result w rq) = Ok st0) ->
    let lines := select_lines raw (skip_empty a) (start_index a) in
    let sent := writes (events (main a w)) in
    exists n,
      (n <= List.length lines)%nat
      /\ map p_content sent = firstn n (buffers (current_text st0) lines)
      /\ map p_message sent
         = firstn n (messages (commit_prefix a) (List.length lines) 1 lines)
      /\ forall p,
           In p sent -> exists rest, p_content p = current_text st0 ++ rest.
Proof.
  intros a w raw st0 Hraw Hfetch lines sent.
  assert (Hmain : exists n,
             (n <= List.length lines)%nat
             /\ map p_content sent
                = firstn n (buffers (current_text st0) lines)
             /\ map p_message sent
                = firstn n (messages (commit_prefix a) (List.length lines) 1
                              lines)).
  { subst sent.
    destruct (main_cases a w)
      as [[tok [owner [repo_name [g [ls [st [pre [Hreach Hmain]]]]]]]]
         | [e Hstop]].
    - pose proof (reaches_loop_pre _ _ _ _ _ _ _ _ _ Hreach)
        as [_ [Hwpre _]].
      destruct Hreach
        as [_ [_ [_ [_ [_ [_ [_ [raw' [log [Hraw' [Hls [_ [Hst _]]]]]]]]]]]]].
      rewrite Hraw in Hraw'. inversion Hraw'; subst raw'.
      rewrite Hfetch in Hst by reflexivity. inversion Hst; subst st.
      fold lines in Hls. subst ls.
      rewrite Hmain, events_pair, writes_app, Hwpre. cbn [app].
      destruct (commit_all_observed a w g owner repo_name tok lines st0)
        as [tail [-> [_ [Hwt _]]]].
      rewrite writes_app, Hwt, app_nil_r.
      apply commit_loop_written.
    - destruct Hstop as [_ [Hw _]]. rewrite Hw.
      exists 0%nat. split; [lia | split; reflexivity]. }
  destruct Hmain as [n [Hn [Hc Hm]]].
  exists n. split; [exact Hn |]. split; [exact Hc |]. split; [exact Hm |].
  intros p Hp.
  apply (buffers_extend lines (current_text st0)).
  apply (in_map p_content) in Hp. rewrite Hc in Hp.
  revert Hp. generalize (buffers (current_text st0) lines). clear.
  intros bs. revert bs. induction n as [| n IH]; intros [| b bs] H;
    try contradiction.
  destruct H as [H | H]; [left; exact H | right; apply IH; exact H].
Qed.

(** The example on a file that holds "x": the two writes hold "x", "a" and
    "x", "a", "b", one line each. *)
Lemma writes_follow_the_lines_witness :
  exists n,
    map p_content
      (writes (events (main example_args (finding_world (JStr (lit "abc"))))))
    = firstn n (buffers (lit "x" ++ [LF]) [lit "a"; lit "b"]).
Proof.
  destruct (writes_follow_the_lines example_args
              (finding_world (JStr (lit "abc"))) two_lines
              {| current_text := lit "x" ++ [LF];
                 file_sha := JStr (lit "abc");
                 committed := 0 |} eq_refl)
    as [n [_ [Hc _]]].
  - intros rq _. reflexivity.
  - exists n. exact Hc.
Defined.

(** ** The version token, from write to write *)

Lemma read_answer_sha :
  forall resp sha sha' csha url,
    read_answer resp sha = Ok (sha', csha, url) ->
    sha' = match answered_sha resp with Some s => s | None => sha end.
Proof.
  intros resp sha sha' csha url H. unfold read_answer in H.
  destruct resp as [| | | | | | b]; try discriminate.
  cbn [py_get answered_sha] in *.
  set (content := match dict_lookup b (lit "content") with
                  | Some x => x
                  | None => JNull
                  end) in H.
  destruct (py_get (or_empty_dict content) (lit "sha") sha) as [x |] eqn:Hx;
    [| discriminate].
  assert (Hsha : x = sha').
  { destruct (py_get (or_empty_dict _) (lit "sha") JNull); [| discriminate].
    destruct (py_get (or_empty_dict content) (lit "html_url") JNull);
      [| discriminate].
    inversion H. reflexivity. }
  subst x. clear H. subst content.
  destruct (dict_lookup b (lit "content")) as [[| | | | | | c] |];
    unfold or_empty_dict in Hx;
    try (destruct (truthy _); cbn [py_get dict_lookup] in Hx;
         [discriminate | inversion Hx; reflexivity]);
    try (cbn [truthy py_get dict_lookup] in Hx; inversion Hx; reflexivity).
  destruct c as [| kv c]; cbn [truthy py_get dict_lookup] in Hx;
    inversion Hx; reflexivity.
Qed.

Lemma commit_line_next_sha :
  forall a w g owner repo_name tok total idx line st st',
    dry_run a = false ->
    outcome (commit_line a w g owner repo_name tok total idx line st)
    = Ok st' ->
    exists code resp,
      http w idx (line_request a owner repo_name tok total idx line st)
      = Returned code resp
      /\ file_sha st' = match answered_sha resp with
                        | Some s => s
                        | None => file_sha st
                        end.
Proof.
  intros a w g owner repo_name tok total idx line st st' Hdry H.
  destruct (commit_line_returns _ _ _ _ _ _ _ _ _ _ _ Hdry H) as [Hsend _].
  rewrite commit_line_live in H by assumption. cbv zeta in H.
  destruct (http w idx _) as [code resp | e]; [| discriminate].
  exists code, resp. split; [reflexivity |].
  destruct (not_success code).
  - rewrite outcome_pair in H.
    destruct (report_commit_error_run code resp)
      as [_ [_ [_ [_ [_ [Ho | Ho]]]]]]; rewrite Ho in H; discriminate.
  - destruct (read_answer resp (file_sha st)) as [[[s' c] u] | e] eqn:Hr;
      [| discriminate].
    rewrite outcome_pair in H.
    destruct (outcome (pause w g idx total)); [| discriminate].
    inversion H. cbn [file_sha].
    exact (read_answer_sha _ _ _ _ _ Hr).
Qed.

Lemma commit_loop_head_request :
  forall a w g owner repo_name tok total idx line rest st rq ans,
    In (Http idx rq ans)
      (events (commit_loop a w g owner repo_name tok total idx (line :: rest)
                 st)) ->
    rq = line_request a owner repo_name tok total idx line st.
Proof.
  intros a w g owner repo_name tok total idx line rest st rq ans Hin.
  rewrite commit_loop_cons, events_pair in Hin.
  apply in_app_or in Hin. destruct Hin as [Hin | Hin].
  - apply commit_line_request in Hin. tauto.
  - exfalso.
    destruct (outcome (commit_line _ _ _ _ _ _ _ _ _ _)) as [st' |];
      [| contradiction].
    apply commit_loop_requests in Hin. lia.
Qed.

Lemma commit_loop_chain :
  forall a w g owner repo_name tok total lines idx st k rq code resp rq' ans',
    In (Http k rq (Returned code resp))
      (events (commit_loop a w g owner repo_name tok total idx lines st)) ->
    In (Http (S k) rq' ans')
      (events (commit_loop a w g owner repo_name tok total idx lines st)) ->
    exists p p',
      rq_data rq = Some p /\ rq_data rq' = Some p'
      /\ p_sha p' = match answered_sha resp with
                    | Some s => sent_sha s
                    | None => p_sha p
                    end.
Proof.
  intros a w g owner repo_name tok total lines.
  induction lines as [| line rest IH];
    intros idx st k rq code resp rq' ans' Hk HSk; [contradiction |].
  pose proof Hk as Hk0. pose proof HSk as HSk0.
  rewrite commit_loop_cons, events_pair in Hk, HSk.
  apply in_app_or in Hk. apply in_app_or in HSk.
  destruct Hk as [Hk | Hk].
  - apply commit_line_request in Hk.
    destruct Hk as [Hdry [_ [-> [-> Hans]]]].
    destruct HSk as [HSk | HSk].
    { apply commit_line_request in HSk. lia. }
    destruct (outcome (commit_line _ _ _ _ _ _ _ _ _ _)) as [st' |] eqn:Ho;
      [| contradiction].
    destruct rest as [| line2 rest2]; [contradiction |].
    apply commit_loop_head_request in HSk. subst rq'.
    destruct (commit_line_next_sha _ _ _ _ _ _ _ _ _ _ _ Hdry Ho)
      as [code' [resp' [Hans' Hsha]]].
    rewrite Hans' in Hans. inversion Hans; subst code' resp'.
    eexists. eexists. split; [reflexivity |]. split; [reflexivity |].
    cbn [line_request put_request rq_data put_payload p_sha].
    rewrite Hsha. fold (sent_sha (file_sha st)).
    destruct (answered_sha resp); reflexivity.
  - destruct (outcome (commit_line _ _ _ _ _ _ _ _ _ _)) as [st' |];
      [| contradiction].
    destruct HSk as [HSk | HSk].
    { apply commit_line_request in HSk. apply commit_loop_requests in Hk.
      lia. }
    exact (IH _ _ _ _ _ _ _ _ Hk HSk).
Qed.

(** X12. From one write to the next, the version token follows the answers:
    the write after a write that was answered carries the token the answer
    holds under [content] and [sha] (left out if that token is false), and
    the token of the answered write again when the answer holds none. *)
Theorem version_token_is_threaded :
  forall a w k rq code resp rq' ans',
    In (Http k rq (Returned code resp)) (events (main a w)) ->
    In (Http (S k) rq' ans') (events (main a w)) ->
    rq_method rq = PUT ->
    exists p p',
      rq_data rq = Some p /\ rq_data rq' = Some p'
      /\ p_sha p' = match answered_sha resp with
                    | Some s => sent_sha s
                    | None => p_sha p
                    end.
Proof.
  intros a w k rq code resp rq' ans' Hk HSk Hput.
  destruct (main_cases a w)
    as [[tok [owner [repo_name [g [lines [st0 [pre [Hreach Hmain]]]]]]]]
       | [e Hstop]].
  - rewrite Hmain, events_pair in Hk, HSk.
    destruct (reaches_loop_pre _ _ _ _ _ _ _ _ _ Hreach) as [Hpre _].
    destruct (commit_all_observed a w g owner repo_name tok lines st0)
      as [tail [Hev [Htail _]]].
    rewrite Hev in Hk, HSk.
    apply in_app_or in Hk. apply in_app_or in HSk.
    destruct Hk as [Hk | Hk].
    { exfalso. apply In_http_events in Hk. rewrite Hpre in Hk.
      destruct Hk as [Hk | []]. inversion Hk; subst. discriminate. }
    destruct HSk as [HSk | HSk].
    { exfalso. apply In_http_events in HSk. rewrite Hpre in HSk.
      destruct HSk as [HSk | []]. inversion HSk. }
    apply in_app_or in Hk. apply in_app_or in HSk.
    destruct Hk as [Hk | Hk].
    2: { exfalso. apply In_http_events in Hk. rewrite Htail in Hk.
         exact Hk. }
    destruct HSk as [HSk | HSk].
    2: { exfalso. apply In_http_events in HSk. rewrite Htail in HSk.
         exact HSk. }
    exact (commit_loop_chain _ _ _ _ _ _ _ _ _ _ _ _ _ _ _ _ Hk HSk).
  - exfalso. destruct Hstop as [_ [_ [_ [_ [_ [_ Hget]]]]]].
    destruct (Hget _ _ _ Hk) as [Hm _]. congruence.
Qed.

(** The two writes of the example: the first is answered with the token
    "abc", which the second carries. *)
Lemma version_token_is_threaded_witness :
  exists p',
    rq_data (line_request example_args (lit "owner") (lit "name")
               (lit "secret") 2 2 (lit "b")
               {| current_text := lit "a" ++ [LF];
                  file_sha := JStr (lit "abc");
                  committed := 1 |}) = Some p'
    /\ p_sha p' = Some (JStr (lit "abc")).
Proof.
  destruct (version_token_is_threaded example_args accepting_world 1%nat
              (line_request example_args (lit "owner") (lit "name")
                 (lit "secret") 2 1 (lit "a")
                 {| current_text := []; file_sha := JNull; committed := 0 |})
              201%Z
              (JObj [(lit "content", JObj [(lit "sha", JStr (lit "abc"))]);
                     (lit "commit", JObj [(lit "sha", JStr (lit "c0ffee"))])])
              (line_request example_args (lit "owner") (lit "name")
                 (lit "secret") 2 2 (lit "b")
                 {| current_text := lit "a" ++ [LF];
                    file_sha := JStr (lit "abc");
                    committed := 1 |})
              (created (lit "abc")))
    as [p [p' [_ [Hp' Hsha]]]].
  - vm_compute. tauto.
  - vm_compute. tauto.
  - reflexivity.
  - exists p'. split; [exact Hp' | exact Hsha].
Defined.

(** ** A run that returns *)

Lemma commit_loop_returns :
  forall a w g owner repo_name tok total lines idx st st',
    dry_run a = false ->
    outcome (commit_loop a w g owner repo_name tok total idx lines st)
    = Ok st' ->
    let evs :=
      events (commit_loop a w g owner repo_name tok total idx lines st) in
    List.length (writes evs) = List.length lines
    /\ confirmed_commits evs = List.length lines
    /\ committed st' = (committed st + List.length lines)%nat.
Proof.
  intros a w g owner repo_name tok total lines.
  induction lines as [| line rest IH]; intros idx st st' Hdry H evs;
    subst evs.
  - inversion H. simpl. repeat split; lia.
  - rewrite commit_loop_cons in H |- *. rewrite outcome_pair in H.
    rewrite events_pair, writes_app, confirmed_commits_app, length_app.
    destruct (outcome (commit_line _ _ _ _ _ _ _ _ _ _)) as [st1 |] eqn:Ho;
      [| discriminate].
    destruct (commit_line_returns _ _ _ _ _ _ _ _ _ _ _ Hdry Ho)
      as [Hsend [Hc Hn]].
    rewrite (commit_line_sent a w g owner repo_name tok total idx line st
               Hdry), Hsend.
    destruct (IH _ _ _ Hdry H) as [Hw' [Hc' Hn']].
    rewrite Hc, Hw', Hc', Hn', Hn. simpl. repeat split; lia.
Qed.

(** X13. [main] returns only after the last line: a live run that returns
    has sent one write for every line to commit, had each of them confirmed,
    and ends with the report of that many commits; a dry run that returns ends
    with its closing notice, with no commit counted. A run with no line to
    commit does not return: it exits. *)
Theorem return_means_all_committed :
  forall a w st,
    outcome (main a w) = Ok st ->
    exists raw,
      outcome (read_raw a w) = Ok raw
      /\ let N := List.length
                    (select_lines raw (skip_empty a) (start_index a)) in
         (0 < N)%nat
         /\ if dry_run a then
              committed st = 0%nat
              /\ last (events (main a w)) (Stderr NoLines)
                 = Stdout DryRunFinished
            else
              committed st = N
              /\ List.length (writes (events (main a w))) = N
              /\ confirmed_commits (events (main a w)) = N
              /\ last (events (main a w)) (Stderr NoLines) = Stdout (Done N).
Proof.
  intros a w st H.
  destruct (main_cases a w)
    as [[tok [owner [repo_name [g [lines [st0 [pre [Hreach Hmain]]]]]]]]
       | [e Hstop]].
  2: { destruct Hstop as [Ho _]. rewrite Ho in H. discriminate. }
  pose proof (reaches_loop_pre _ _ _ _ _ _ _ _ _ Hreach)
    as [_ [Hwpre [Hcpre _]]].
  destruct Hreach
    as [_ [_ [_ [_ [_ [_ [_ [raw [log [Hraw [Hls [Hne [Hst _]]]]]]]]]]]]].
  exists raw. split; [exact Hraw |]. cbv zeta. rewrite <- Hls.
  split; [destruct lines; [contradiction | simpl; lia] |].
  rewrite Hmain in H |- *. rewrite outcome_pair in H. rewrite events_pair.
  rewrite commit_all_run in H |- *. cbv zeta in H |- *.
  destruct (outcome (commit_loop _ _ _ _ _ _ _ _ _ _)) as [st' | e] eqn:Ho.
  2: { destruct e; discriminate. }
  inversion H; subst st'. rewrite events_pair.
  assert (Hinit : committed st0 = 0%nat).
  { unfold state_of_fetch in Hst.
    destruct (fetch_result w _) as [[[t |] sha] | e]; inversion Hst;
      reflexivity. }
  destruct (dry_run a) eqn:Hdry.
  - rewrite commit_loop_dry_run in Ho by exact Hdry.
    rewrite outcome_pair in Ho. inversion Ho. cbn [committed].
    split; [exact Hinit |].
    rewrite app_assoc. apply last_last.
  - destruct (commit_loop_returns _ _ _ _ _ _ _ _ _ _ _ Hdry Ho)
      as [Hw [Hc Hn]].
    rewrite Hinit in Hn. cbn [Nat.add] in Hn.
    split; [exact Hn |].
    rewrite !writes_app, !confirmed_commits_app, !length_app.
    rewrite Hwpre, Hcpre, Hw, Hc. cbn.
    split; [lia |]. split; [lia |].
    rewrite app_assoc, Hn. apply last_last.
Qed.

(** The run of the example returns after its two commits. *)
Lemma return_means_all_committed_witness :
  exists raw,
    outcome (read_raw example_args accepting_world) = Ok raw
    /\ (0 < List.length (select_lines raw (skip_empty example_args)
                           (start_index example_args)))%nat.
Proof.
  destruct (return_means_all_committed example_args accepting_world
              {| current_text := two_lines; file_sha := JStr (lit "abc");
                 committed := 2 |} eq_refl)
    as [raw [Hraw [Hpos _]]].
  exists raw. split; [exact Hraw | exact Hpos].
Defined.

(** ** A text that cannot be encoded *)



(** ** The notice of an interruption *)









(** ** Whole numbers *)

Section WholeNumbers.

Local Open Scope Z_scope.

Lemma regular_nonneg : forall x, regular x = true -> nonneg x = true.
Proof.
  intros x H. unfold regular in H. apply andb_true_iff in H. tauto.
Qed.

(** A number that a regular float equals is rounded to that float. *)
Lemma round_exact_representable :
  forall m e x,
    roundable m e -> regular x = true -> scaled m e = float_value x ->
    round_exact m e = x.
Proof.
  intros m e x Hp Hx Hv.
  destruct (round_exact_le m e x Hp Hx ltac:(lia)) as [Hreg [Hval Hle]].
  pose proof (round_exact_ge m e x Hp Hx ltac:(lia)) as Hge.
  pose proof (compare_value _ _ Hreg Hx) as Hc.
  rewrite Hval in Hc.
  replace (round_value m e ?= float_value x) with Eq in Hc
    by (symmetry; apply Z.compare_eq_iff; lia).
  destruct (compare_nonneg _ _ (regular_nonneg _ Hreg) (regular_nonneg _ Hx))
    as [c [Hc' [_ Heq]]].
  rewrite Hc in Hc'. inversion Hc'. subst c. apply Heq. reflexivity.
Qed.

Lemma whole_float_regular :
  forall m,
    0 < m < 2 ^ 53 ->
    regular (whole_float m) = true
    /\ float_value (whole_float m) = scaled m 0.
Proof.
  intros m Hm. unfold whole_float.
  pose proof (Zdigits2_bounds m ltac:(lia)) as [Hlo Hhi].
  pose proof (Zdigits2_pos m ltac:(lia)) as Hd.
  assert (Hd53 : Zdigits2 m <= 53) by (apply mantissa_lt; lia).
  set (k := 53 - Zdigits2 m).
  assert (Hk : 0 < 2 ^ k) by (apply pow2_pos; subst k; lia).
  assert (Hdg : Zdigits2 (m * 2 ^ k) = 53).
  { rewrite Zdigits2_shift by (subst k; lia). subst k. lia. }
  destruct (m * 2 ^ k) as [| p | p] eqn:Hp; try nia.
  split.
  - unfold regular, valid. cbn [valid_binary finite nonneg].
    rewrite !andb_true_r. apply bounded_iff. rewrite Hdg. lia.
  - cbn [float_value]. rewrite <- Hp.
    rewrite scaled_shift by (subst k; lia).
    f_equal. subst k. lia.
Qed.

(** The conversion of a whole number below [2^53] is exact. *)
Lemma float_of_ratio_whole :
  forall n, 0 < n < 2 ^ 53 -> float_of_ratio n 1 = whole_float n.
Proof.
  intros n Hn. unfold float_of_ratio.
  destruct n as [| p | p]; try lia.
  unfold SFdiv_core_binary.
  rewrite !Z.add_0_r, Z.sub_diag, fexp_eq.
  change (Zdigits2 1) with 1.
  pose proof (Zdigits2_pos (Z.pos p) ltac:(lia)) as Hd.
  assert (Hd53 : Zdigits2 (Z.pos p) <= 53) by (apply mantissa_lt; lia).
  set (d1 := Zdigits2 (Z.pos p)) in *.
  replace (Z.min (Z.max (d1 - 1 - 53) (-1074)) 0) with (d1 - 54) by lia.
  replace (0 - (d1 - 54)) with (54 - d1) by lia.
  set (m' := match 54 - d1 with
             | Z0 => Z.pos p
             | Z.pos _ => Z.shiftl (Z.pos p) (54 - d1)
             | Z.neg _ => 0
             end).
  assert (Hm' : m' = Z.pos p * 2 ^ (54 - d1)).
  { subst m'. destruct (54 - d1) as [| s' | s'] eqn:Es; try lia.
    rewrite Z.shiftl_mul_pow2 by lia. reflexivity. }
  rewrite Hm'. clear m' Hm'.
  assert (Hdiv : Z.div_eucl (Z.pos p * 2 ^ (54 - d1)) 1
                 = (Z.pos p * 2 ^ (54 - d1), 0)).
  { pose proof (Z.div_eucl_eq (Z.pos p * 2 ^ (54 - d1)) 1 ltac:(lia)) as E.
    pose proof (Z.mod_pos_bound (Z.pos p * 2 ^ (54 - d1)) 1 ltac:(lia)) as B.
    unfold Z.modulo in B.
    destruct (Z.div_eucl (Z.pos p * 2 ^ (54 - d1)) 1) as [q r].
    f_equal; lia. }
  rewrite Hdiv. change (new_location 1 0) with loc_Exact.
  fold (round_exact (Z.pos p * 2 ^ (54 - d1)) (d1 - 54)).
  destruct (whole_float_regular (Z.pos p) Hn) as [Hreg Hval].
  assert (Hp : 0 < 2 ^ (54 - d1)) by (apply pow2_pos; lia).
  apply round_exact_representable; [| exact Hreg |].
  - unfold roundable. split; [nia |]. split; [lia |].
    rewrite rexp_eq, Zdigits2_shift by lia. fold d1. lia.
  - rewrite Hval, scaled_shift by lia. f_equal. lia.
Qed.

(** The product of two regular floats is exact when a regular float equals
    it. *)
Lemma fmul_whole :
  forall x y a b,
    regular x = true -> regular y = true ->
    float_value x = scaled a 0 -> float_value y = scaled b 0 ->
    0 < a * b < 2 ^ 53 ->
    fmul x y = whole_float (a * b).
Proof.
  intros x y a b Hx Hy Ha Hb Hab.
  destruct (fmul_rounds x y Hx Hy) as [m [e [Hp [Hv ->]]]].
  destruct (whole_float_regular (a * b) Hab) as [Hreg Hval].
  apply round_exact_representable; [exact Hp | exact Hreg |].
  rewrite Hval. rewrite Ha, Hb in Hv. unfold scaled in *.
  change (0 + 2148) with 2148 in *.
  assert (0 < 2 ^ 2148) by reflexivity. nia.
Qed.

End WholeNumbers.

Lemma py_float_whole :
  forall ip n,
    ip <> [] ->
    read_digits 0 0 ip = (n, List.length ip, []) ->
    py_float ip = Some (float_of_ratio (Z.of_N n) 1).
Proof.
  intros ip n Hne Hread. unfold py_float. rewrite Hread.
  destruct ip; [contradiction | reflexivity].
Qed.

Lemma whole_duration_text :
  forall ip name,
    digits ip -> In name unit_names ->
    duration_text ascii_case_eq ip ip None
    /\ duration_text ascii_case_eq (ip ++ name) ip (Some name).
Proof.
  intros ip name Hip Hname. split.
  - exists [], [], [], []. rewrite !app_nil_r.
    repeat split; try reflexivity.
    + apply whole_number. exact Hip.
    + apply no_unit.
  - exists [], [], name, []. rewrite !app_nil_r.
    repeat split; try reflexivity.
    + apply whole_number. exact Hip.
    + apply some_unit with (name := name); [exact Hname |].
      unfold spells. clear. induction name as [| c name IH]; constructor.
      * unfold ascii_case_eq, char_eqb. rewrite N.eqb_refl. reflexivity.
      * exact IH.
Qed.

Section WholeDurations.

Local Open Scope Z_scope.

Lemma scaled_product_zero :
  forall x factor,
    x = fzero -> nonneg factor = true -> finite factor = true ->
    fmul x factor = fzero.
Proof.
  intros x factor -> Hn Hf.
  destruct factor as [[|] | [|] | | [|] m e]; try discriminate; reflexivity.
Qed.

(** The value of a whole number of seconds, minutes or hours. *)
Lemma whole_product :
  forall n factor k,
    0 <= n -> 0 < k ->
    regular factor = true -> float_value factor = scaled k 0 ->
    n * k < 2 ^ 53 ->
    regular (fmul (float_of_ratio n 1) factor) = true
    /\ float_value (fmul (float_of_ratio n 1) factor) = scaled (n * k) 0.
Proof.
  intros n factor k Hn Hk Hreg Hval Hlt.
  destruct (Z.eq_dec n 0) as [-> | Hn0].
  - change (float_of_ratio 0 1) with fzero.
    rewrite scaled_product_zero; try reflexivity.
    + split; reflexivity.
    + unfold regular in Hreg. apply andb_true_iff in Hreg. tauto.
    + unfold regular in Hreg. apply andb_true_iff in Hreg.
      destruct Hreg as [Hreg _]. apply andb_true_iff in Hreg. tauto.
  - assert (Hn53 : 0 < n < 2 ^ 53) by nia.
    rewrite (float_of_ratio_whole n Hn53).
    destruct (whole_float_regular n Hn53) as [Hr Hv].
    rewrite (fmul_whole _ _ n k Hr Hreg Hv Hval) by nia.
    apply whole_float_regular. nia.
Qed.

End WholeDurations.

(** X16. A whole number of seconds, minutes or hours is parsed without
    rounding, as long as its number of seconds is below [2^53]: for the digits
    of [n], the duration is the float that equals [n], [60 n] with the unit
    [m], and [3600 n] with the unit [h]. *)
Theorem whole_durations_are_exact :
  forall ip n,
    digits ip ->
    read_digits 0 0 ip = (n, List.length ip, []) ->
    forall u factor k,
      In (u, factor, k)
        [([], f1, 1%Z); (lit "s", f1, 1%Z); (lit "m", f60, 60%Z);
         (lit "h", f3600, 3600%Z)] ->
      (Z.of_N n * k < 2 ^ 53)%Z ->
      exists v,
        parse_duration (ip ++ u) = Ok v
        /\ regular v = true
        /\ float_value v = scaled (Z.of_N n * k) 0.
Proof.
  intros ip n Hip Hread u factor k Hin Hlt.
  pose proof (py_float_whole ip n (proj1 Hip) Hread) as Hfloat.
  exists (fmul (float_of_ratio (Z.of_N n) 1) factor).
  assert (Hfactor : (0 < k)%Z /\ regular factor = true
                    /\ float_value factor = scaled k 0).
  { simpl in Hin.
    destruct Hin as [H | [H | [H | [H | []]]]]; inversion H; subst;
      (split; [reflexivity | split; vm_compute; reflexivity]). }
  destruct Hfactor as [Hk [Hreg Hval]].
  split; [| apply whole_product; try assumption; lia].
  simpl in Hin.
  destruct Hin as [H | [H | [H | [H | []]]]]; inversion H; subst.
  - rewrite app_nil_r.
    destruct (whole_duration_text ip (lit "s") Hip ltac:(simpl; auto))
      as [Htext _].
    rewrite (parse_duration_of_text _ _ _ _ Htext Hfloat). reflexivity.
  - destruct (whole_duration_text ip (lit "s") Hip ltac:(simpl; auto))
      as [_ Htext].
    rewrite (parse_duration_of_text _ _ _ _ Htext Hfloat). reflexivity.
  - destruct (whole_duration_text ip (lit "m") Hip ltac:(simpl; auto))
      as [_ Htext].
    rewrite (parse_duration_of_text _ _ _ _ Htext Hfloat). reflexivity.
  - destruct (whole_duration_text ip (lit "h") Hip ltac:(simpl; auto))
      as [_ Htext].
    rewrite (parse_duration_of_text _ _ _ _ Htext Hfloat). reflexivity.
Qed.

(** The duration "90m" is the float 5400. *)
Lemma whole_durations_are_exact_witness :
  exists v,
    parse_duration (lit "90" ++ lit "m") = Ok v
    /\ float_value v = scaled (90 * 60) 0.
Proof.
  assert (Hdigits : digits (lit "90")) by (split; [discriminate | reflexivity]).
  assert (Hread : read_digits 0 0 (lit "90") = (90, List.length (lit "90"), []))
    by reflexivity.
  assert (Hunit : In (lit "m", f60, 60%Z)
                    [([], f1, 1%Z); (lit "s", f1, 1%Z); (lit "m", f60, 60%Z);
                     (lit "h", f3600, 3600%Z)])
    by (right; right; left; reflexivity).
  assert (Hlt : (Z.of_N 90 * 60 < 2 ^ 53)%Z) by (vm_compute; reflexivity).
  destruct (whole_durations_are_exact (lit "90") 90 Hdigits Hread
              (lit "m") f60 60%Z Hunit Hlt)
    as [v [Hv [_ Hval]]].
  exists v. split; [exact Hv | exact Hval].
Defined.
